(** * Token-to-expert routing (component/Cmoe/routing.py)

    A shallow embedding of [top1gating] and [top2gating] and of the helpers
    they call, followed by the properties of the routing specification.

    Conventions of the embedding.
    - A 2-D tensor is the list of its rows; the input tensor also carries its
      dtype and its second dimension ([gates.shape[1]] is read even when the
      batch is empty).
    - Floating-point values are idealised as rationals ([Q]): rounding is not
      modelled, infinities only where the source writes one
      ([float("-inf")] in [masked_fill]).
    - Integer tensors (masks, indices, locations) hold [Z]; boolean tensors
      hold [bool].
    - A Python or PyTorch exception is a [Raise] in the [result] monad.
    - Of the diagnostics dictionary [metadata] the overflow percentages of
      [top2gating] are embedded, as functions of its locals; the entropy and
      the histograms are left out.
    - [_make_finite] and [gumbel_rsample] are embedded on their own: the
      [forward] methods that call them need norms and are left out. *)

From Stdlib Require Import Bool String List ZArith QArith Qround Qabs.
From Stdlib Require Import Lia Lqa Permutation Sorted.
Import ListNotations.

(** ** Exceptions *)

Inductive exn : Type :=
| ZeroDivisionError
| RuntimeError.

Inductive result (A : Type) : Type :=
| Ok (a : A)
| Raise (e : exn).

Arguments Ok {A} a.
Arguments Raise {A} e.

Definition bind {A B : Type} (r : result A) (k : A -> result B) : result B :=
  match r with
  | Ok a => k a
  | Raise e => Raise e
  end.

Notation "x <- c ;; k" := (bind c (fun x => k))
  (at level 61, c at next level, right associativity).

(** ** Scalars *)

Definition Qltb (x y : Q) : bool := negb (Qle_bool y x).

Definition Qnonzero (x : Q) : bool := negb (Qeq_bool x 0).

(** Python's [int(x)] on a float: truncation toward zero. *)
Definition py_int (x : Q) : Z := Z.quot (Qnum x) (Zpos (Qden x)).

(** Python's [a / b] on two ints. *)
Definition py_truediv (a b : nat) : result Q :=
  match b with
  | O => Raise ZeroDivisionError
  | S _ => Ok (inject_Z (Z.of_nat a) / inject_Z (Z.of_nat b))
  end.

(** A float that may be [-inf], as [masked_fill] produces. *)
Inductive xfloat : Type :=
| NegInf
| Fin (q : Q).

Definition xltb (x y : xfloat) : bool :=
  match x, y with
  | _, NegInf => false
  | NegInf, Fin _ => true
  | Fin a, Fin b => Qltb a b
  end.

(** ** Tensors *)

Inductive dtype : Type := float16 | bfloat16 | float32 | float64.

(** [torch.finfo(dtype).eps] *)
Definition finfo_eps (d : dtype) : Q :=
  match d with
  | float16 => 1 # 1024
  | bfloat16 => 1 # 128
  | float32 => 1 # 8388608
  | float64 => 1 # 4503599627370496
  end.

Record Tensor : Type := mkTensor {
  t_dtype : dtype;
  shape1 : nat;
  rows : list (list Q)
}.

Definition shape0 (t : Tensor) : nat := length (rows t).

(** Every row of a matrix has [n] entries. *)
Definition rect {A : Type} (n : nat) (m : list (list A)) : Prop :=
  Forall (fun r => length r = n) m.

Definition wf_tensor (t : Tensor) : Prop := rect (shape1 t) (rows t).

Fixpoint zip_with {A B C : Type} (f : A -> B -> C) (xs : list A) (ys : list B)
  : list C :=
  match xs, ys with
  | x :: xs', y :: ys' => f x y :: zip_with f xs' ys'
  | _, _ => []
  end.

Definition sumZ (l : list Z) : Z := fold_right Z.add 0%Z l.

Definition sumQ (l : list Q) : Q := fold_right Qplus 0 l.

(** Element-wise product of two integer matrices. *)
Definition mul_zz (a b : list (list Z)) : list (list Z) :=
  zip_with (zip_with Z.mul) a b.

(** Integer matrix times boolean matrix ([mask * torch.lt(...)]). *)
Definition mul_zb (a : list (list Z)) (b : list (list bool)) : list (list Z) :=
  zip_with (zip_with (fun x (c : bool) => if c then x else 0%Z)) a b.

(** Float matrix times integer matrix ([gates * mask]). *)
Definition mul_qz (a : list (list Q)) (b : list (list Z)) : list (list Q) :=
  zip_with (zip_with (fun g m => g * inject_Z m)) a b.

(** [m * v.unsqueeze(-1)]: row [s] of [m] scaled by [v[s]]. *)
Definition scale_rows_z (m : list (list Z)) (v : list Z) : list (list Z) :=
  zip_with (fun r x => map (fun y => (y * x)%Z) r) m v.

(** [v.unsqueeze(-1) * m.to(v.dtype)] *)
Definition scale_rows_q (v : list Q) (m : list (list Z)) : list (list Q) :=
  zip_with (fun x r => map (fun y => x * inject_Z y) r) v m.

(** [torch.lt(m, c)] *)
Definition lt_scalar (m : list (list Z)) (c : Z) : list (list bool) :=
  map (map (fun x => (x <? c)%Z)) m.

(** [m.sum(dim=1)] *)
Definition sum_dim1_z (m : list (list Z)) : list Z := map sumZ m.

Definition sum_dim1_q (m : list (list Q)) : list Q := map sumQ m.

(** [torch.sum(m, dim=0)] of a matrix with [n] columns. *)
Definition sum_dim0_z (n : nat) (m : list (list Z)) : list Z :=
  fold_right (zip_with Z.add) (repeat 0%Z n) m.

Definition sum_dim0_q (n : nat) (m : list (list Q)) : list Q :=
  fold_right (zip_with Qplus) (repeat 0 n) m.

Definition Qnat (n : nat) : Q := inject_Z (Z.of_nat n).

(** [torch.mean(m, dim=0)] *)
Definition mean_dim0_q (n : nat) (m : list (list Q)) : list Q :=
  map (fun x => x / Qnat (length m)) (sum_dim0_q n m).

Definition mean_dim0_z (n : nat) (m : list (list Z)) : list Q :=
  map (fun x => inject_Z x / Qnat (length m)) (sum_dim0_z n m).

(** [torch.mean(v)] of a vector. *)
Definition mean_q (v : list Q) : Q := sumQ v / Qnat (length v).

(** ** argmax *)

(** Index of the first maximal entry of [r], scanning from position [i] with
    the best entry so far, [best], found at [bi]. *)
Fixpoint argmax_from {A : Type} (ltb : A -> A -> bool) (best : A) (bi i : nat)
  (r : list A) : nat :=
  match r with
  | [] => bi
  | x :: r' =>
      if ltb best x then argmax_from ltb x i (S i) r'
      else argmax_from ltb best bi (S i) r'
  end.

Definition argmax_row {A : Type} (ltb : A -> A -> bool) (r : list A) : nat :=
  match r with
  | [] => O
  | x :: r' => argmax_from ltb x 0 1 r'
  end.

(** [torch.argmax(m, dim=1)] of a matrix with [n] columns: a reduction over
    an empty dimension raises. *)
Definition argmax {A : Type} (ltb : A -> A -> bool) (n : nat)
  (m : list (list A)) : result (list Z) :=
  match n with
  | O => Raise RuntimeError
  | S _ => Ok (map (fun r => Z.of_nat (argmax_row ltb r)) m)
  end.

(** ** one_hot *)

Definition one_hot_row (num_classes : Z) (i : Z) : list Z :=
  map (fun c => if (Z.of_nat c =? i)%Z then 1%Z else 0%Z)
      (seq 0 (Z.to_nat num_classes)).

Definition in_range (num_classes : Z) (i : Z) : bool :=
  ((0 <=? i) && (i <? num_classes))%Z.

(** [one_hot(indices, num_classes)]: [torch.zeros] of a negative size raises,
    and [scatter_] raises on an index outside [0, num_classes). *)
Definition one_hot (indices : list Z) (num_classes : Z)
  : result (list (list Z)) :=
  if (num_classes <? 0)%Z then Raise RuntimeError
  else if forallb (in_range num_classes) indices
       then Ok (map (one_hot_row num_classes) indices)
       else Raise RuntimeError.

(** ** Exclusive prefix sum *)

Fixpoint cumsum_from (acc : list Z) (m : list (list Z)) : list (list Z) :=
  match m with
  | [] => []
  | r :: m' => acc :: cumsum_from (zip_with Z.add acc r) m'
  end.

(** Modelled from the spec: [fused_cumsum_sub_one] is imported from
    [.moe_layer], which is not part of the sources.  The specification
    describes it as the exclusive prefix sum per expert column: for each
    column, the running count of true values strictly before the current
    row.  On an entry the mask selects this is the inclusive cumulative sum
    minus one, as the name spells; the routers read the result only through
    a product with the mask, that is only on such entries. *)
Definition fused_cumsum_sub_one (mask : list (list Z)) : list (list Z) :=
  cumsum_from (repeat 0%Z (length (hd [] mask))) mask.

(** ** Further tensor helpers *)

Definition b2z (b : bool) : Z := if b then 1%Z else 0%Z.

(** [input_mask.any()] *)
Definition any (m : list bool) : bool := existsb (fun b => b) m.

(** [(~input_mask).to(mask1.dtype)] *)
Definition nonpadding_of (input_mask : list bool) : list Z :=
  map (fun b => b2z (negb b)) input_mask.

(** [torch.bmm(g.unsqueeze(-1), l.unsqueeze(1))], einsum("se,sc->sec") *)
Definition bmm_outer (g : list (list Q)) (l : list (list Z))
  : list (list (list Q)) :=
  zip_with (fun grow lrow => map (fun x => map (fun y => x * inject_Z y) lrow) grow)
           g l.

(** [t.bool()] of a 3-D float tensor. *)
Definition to_bool3 (t : list (list (list Q))) : list (list (list bool)) :=
  map (map (map Qnonzero)) t.

Definition add3 (a b : list (list (list Q))) : list (list (list Q)) :=
  zip_with (zip_with (zip_with Qplus)) a b.

(** [logits.float()] *)
Definition to_float (t : Tensor) : Tensor := mkTensor float32 (shape1 t) (rows t).

(** [logits.masked_fill(mask.bool(), float("-inf"))] *)
Definition masked_fill_neginf (x : list (list Q)) (mask : list (list Z))
  : list (list xfloat) :=
  zip_with (zip_with (fun v m => if (m =? 0)%Z then Fin v else NegInf)) x mask.

(** Element-wise sum of two float matrices. *)
Definition add_qq (a b : list (list Q)) : list (list Q) :=
  zip_with (zip_with Qplus) a b.

(** [torch.clamp(v, min=lo)] *)
Definition clamp_min (lo : Q) (v : list Q) : list Q :=
  map (fun x => if Qltb x lo then lo else x) v.

(** [m += v] with [v] of shape (1, E): [v] is added to every row. *)
Definition add_row (m : list (list Z)) (v : list Z) : list (list Z) :=
  map (fun r => zip_with Z.add r v) m.

(** [m * b.repeat(E, 1).transpose(1, 0)]: row [s] of [m] is kept when [b[s]]
    holds and zeroed otherwise. *)
Definition keep_rows (m : list (list Z)) (b : list bool) : list (list Z) :=
  zip_with (fun r (c : bool) => map (fun y => (y * b2z c)%Z) r) m b.

(** [m.max(dim=1)[0]] *)
Definition max_dim1 (m : list (list Q)) : list Q :=
  map (fun r => match r with
                | [] => 0
                | x :: r' => fold_left (fun a b => if Qltb a b then b else a) r' x
                end) m.

(** [m[idx]]: the rows of [m] picked by an index tensor. *)
Definition index_rows {A : Type} (m : list (list A)) (idx : list nat)
  : list (list A) :=
  map (fun i => nth i m []) idx.

(** ** argsort *)

Fixpoint insert_by {K : Type} (leb : K -> K -> bool) (key : nat -> K) (i : nat)
  (l : list nat) : list nat :=
  match l with
  | [] => [i]
  | j :: l' =>
      if leb (key i) (key j) then i :: l else j :: insert_by leb key i l'
  end.

(** [keys.argsort(dim=0)]: the positions of [keys] in ascending order of
    their keys (positions with equal keys stay in order). *)
Definition argsort {K : Type} (leb : K -> K -> bool) (d : K) (keys : list K)
  : list nat :=
  fold_right (insert_by leb (fun i => nth i keys d)) []
             (seq 0 (length keys)).

(** ** Random draws *)

(** The draws one call may consume: [gumbel_rsample(logits.shape)] and
    [torch.rand_like(gates2_s)]. *)
Record Draws : Type := mkDraws {
  gumbel : list (list Q);
  uniform : list Q
}.

(** ** Capacity *)

(** Lines 43-47 of [top1gating]. *)
Definition top1_capacity (num_tokens num_experts : nat) (capacity_factor : Q)
  (eval_mode : bool) (moe_eval_capacity_token_fraction : Q) : result Z :=
  if Qltb 0 moe_eval_capacity_token_fraction && eval_mode
  then Ok (Qceiling (moe_eval_capacity_token_fraction * Qnat num_tokens))
  else q <- py_truediv num_tokens num_experts ;;
       Ok (py_int (capacity_factor * inject_Z (Qceiling q))).

(** Lines 263-267 of [top2gating]. *)
Definition top2_capacity (num_tokens num_experts : nat) (eval_mode : bool)
  (moe_eval_capacity_token_fraction : Q) : result Z :=
  if Qltb 0 moe_eval_capacity_token_fraction && eval_mode
  then Ok (Qceiling (moe_eval_capacity_token_fraction * Qnat num_tokens))
  else q <- py_truediv num_tokens num_experts ;;
       Ok (2 * Qceiling q)%Z.

(** ** top1gating *)

(** The locals of [top1gating] at its dense return; the tuple the source
    returns is ([t1_l_aux], [t1_combine1_sec], [t1_dispatch_mask]). *)
Record Top1Frame : Type := mkTop1 {
  t1_gates : list (list Q);
  t1_capacity : Z;
  t1_indices1_s : list Z;
  t1_mask1_sel : list (list Z);   (* mask1 before the capacity cut *)
  t1_gates1_s : list Q;
  t1_locations1 : list (list Z);
  t1_l_aux : Q;
  t1_mask1 : list (list Z);       (* mask1 after the capacity cut *)
  t1_locations1_s : list Z;
  t1_gates1 : list (list Q);
  t1_locations1_sc : list (list Z);
  t1_combine1_sec : list (list (list Q));
  t1_dispatch_mask : list (list (list bool))
}.

Inductive Top1Return : Type :=
| Top1Tutel (l_aux : Q) (capacity : Z) (num_experts : nat)
            (indices : list (list Z)) (locations : list (list Z))
            (gates : list (list Q))
| Top1Dense (f : Top1Frame).

(** ** top2gating *)

(** The locals of [top2gating] at its dense return; the tuple the source
    returns is ([t2_l_aux], [t2_combine_weights], [t2_dispatch_mask]). *)
Record Top2Frame : Type := mkTop2 {
  t2_gates : list (list Q);
  t2_capacity : Z;
  t2_indices1_s : list Z;
  t2_indices2_s : list Z;
  t2_mask1_hot : list (list Z);   (* one_hot(indices1_s) *)
  t2_mask2_hot : list (list Z);   (* one_hot(indices2_s) *)
  t2_mask1_sel : list (list Z);   (* mask1_ : before the capacity cut *)
  t2_mask2_sel : list (list Z);   (* mask2_ : before the capacity cut *)
  t2_locations1 : list (list Z);
  t2_locations2 : list (list Z);
  t2_l_aux : Q;
  t2_mask1 : list (list Z);       (* after the capacity cut *)
  t2_mask2 : list (list Z);
  t2_gates1_s : list Q;
  t2_gates2_s : list Q;
  t2_locations1_s : list Z;
  t2_locations2_s : list Z;
  t2_combine_weights : list (list (list Q));
  t2_dispatch_mask : list (list (list bool))
}.

Inductive Top2Return : Type :=
| Top2Tutel (l_aux : Q) (capacity : Z) (num_experts : nat)
            (indices : list (list Z)) (locations : list (list Z))
            (gates : list (list Q))
| Top2Dense (f : Top2Frame).

Section Routers.

(** [F.softmax(., dim=1)] on one row: PyTorch's, and not a rational function,
    so it is a parameter of the embedding. *)
Variable softmax : list Q -> list Q.

(** [has_tutel] is imported from [.moe_layer]: a capability flag. *)
Variable has_tutel : bool.

Definition top1gating (logits : Tensor) (input_mask : option (list bool))
  (use_fp32 : bool) (capacity_factor : Q) (eval_mode : bool)
  (moe_eval_capacity_token_fraction : Q) (use_xmoe : bool)
  : result Top1Return :=
  let logits := if use_fp32 then to_float logits else logits in
  let gates := map softmax (rows logits) in
  let num_tokens := length gates in
  let num_experts := shape1 logits in
  capacity <- top1_capacity num_tokens num_experts capacity_factor eval_mode
                moe_eval_capacity_token_fraction ;;
  indices1_s <- argmax Qltb num_experts gates ;;
  mask1 <- one_hot indices1_s (Z.of_nat num_experts) ;;
  let mask1 :=
    match input_mask with
    | Some im => if any im then scale_rows_z mask1 (nonpadding_of im) else mask1
    | None => mask1
    end in
  let gates1_s := sum_dim1_q (mul_qz gates mask1) in
  let locations1 := fused_cumsum_sub_one mask1 in
  let me := mean_dim0_q num_experts gates in
  let ce := mean_dim0_z num_experts mask1 in
  let l_aux := mean_q (zip_with Qmult me ce) in
  let l_aux := l_aux * Qnat num_experts * Qnat num_experts in
  if has_tutel then
    let locations1_s := sum_dim1_z (mul_zz locations1 mask1) in
    Ok (Top1Tutel l_aux capacity num_experts [indices1_s] [locations1_s]
                  [gates1_s])
  else
    let mask1_sel := mask1 in
    let mask1 := mul_zb mask1 (lt_scalar locations1 capacity) in
    let locations1_s := sum_dim1_z (mul_zz locations1 mask1) in
    let gates1 := scale_rows_q gates1_s mask1 in
    locations1_sc <- one_hot locations1_s capacity ;;
    let combine1_sec := bmm_outer gates1 locations1_sc in
    let dispatch_mask := to_bool3 combine1_sec in
    Ok (Top1Dense
          (mkTop1 gates capacity indices1_s mask1_sel gates1_s locations1 l_aux
                  mask1 locations1_s gates1 locations1_sc combine1_sec
                  dispatch_mask)).

Definition top2gating (draws : Draws) (logits : Tensor)
  (input_mask : option (list bool)) (use_fp32 : bool)
  (second_expert_policy : string) (normalize_gate_prob_before_dropping : bool)
  (eval_mode : bool) (moe_eval_capacity_token_fraction : Q)
  (batch_prioritized_routing : bool) : result Top2Return :=
  let logits := if use_fp32 then to_float logits else logits in
  let gates := map softmax (rows logits) in
  let num_tokens := length gates in
  let num_experts := shape1 logits in
  capacity <- top2_capacity num_tokens num_experts eval_mode
                moe_eval_capacity_token_fraction ;;
  indices1_s <- argmax Qltb num_experts gates ;;
  mask1 <- one_hot indices1_s (Z.of_nat num_experts) ;;
  let mask1_hot := mask1 in
  let logits_w_noise :=
    if String.eqb second_expert_policy "sampling"
    then add_qq (rows logits) (gumbel draws)
    else rows logits in
  let logits_except1 := masked_fill_neginf logits_w_noise mask1 in
  indices2_s <- argmax xltb num_experts logits_except1 ;;
  mask2 <- one_hot indices2_s (Z.of_nat num_experts) ;;
  let mask2_hot := mask2 in
  let gates1_s := sum_dim1_q (mul_qz gates mask1) in
  let gates2_s := sum_dim1_q (mul_qz gates mask2) in
  let '(gates1_s, gates2_s) :=
    if normalize_gate_prob_before_dropping then
      let denom_s := zip_with Qplus gates1_s gates2_s in
      let denom_s := clamp_min (finfo_eps (t_dtype logits)) denom_s in
      (zip_with Qdiv gates1_s denom_s, zip_with Qdiv gates2_s denom_s)
    else (gates1_s, gates2_s) in
  let mask2 :=
    if String.eqb second_expert_policy "random" then
      let sampled :=
        zip_with (fun g u => Qltb u (2 * g)) gates2_s (uniform draws) in
      keep_rows mask2 sampled
    else mask2 in
  let '(mask1, mask2) :=
    match input_mask with
    | Some im =>
        if any im then
          (scale_rows_z mask1 (nonpadding_of im),
           scale_rows_z mask2 (nonpadding_of im))
        else (mask1, mask2)
    | None => (mask1, mask2)
    end in
  let '(locations1, locations2) :=
    if batch_prioritized_routing then
      let importance_scores := map (Qmult (-1)) (max_dim1 gates) in
      let order := argsort Qle_bool 0 importance_scores in
      let rank := argsort Nat.leb O order in
      let sorted_mask1 := index_rows mask1 order in
      let sorted_cumsum1 :=
        mul_zz (fused_cumsum_sub_one sorted_mask1) sorted_mask1 in
      let importance_sorted_locations1 := index_rows sorted_cumsum1 rank in
      let sorted_mask2 := index_rows mask2 order in
      let sorted_cumsum2 :=
        mul_zz (fused_cumsum_sub_one sorted_mask2) sorted_mask2 in
      let importance_sorted_locations2 := index_rows sorted_cumsum2 rank in
      let importance_sorted_locations2 :=
        add_row importance_sorted_locations2 (sum_dim0_z num_experts mask1) in
      (importance_sorted_locations1, importance_sorted_locations2)
    else
      let locations1 := fused_cumsum_sub_one mask1 in
      let locations2 := fused_cumsum_sub_one mask2 in
      let locations2 := add_row locations2 (sum_dim0_z num_experts mask1) in
      (locations1, locations2) in
  let me := mean_dim0_q num_experts gates in
  let ce := mean_dim0_z num_experts mask1 in
  let l_aux := mean_q (zip_with Qmult me ce) in
  let l_aux := l_aux * Qnat num_experts * Qnat num_experts in
  let mask1_ := mask1 in
  let mask2_ := mask2 in
  let mask1 := mul_zb mask1 (lt_scalar locations1 capacity) in
  let mask2 := mul_zb mask2 (lt_scalar locations2 capacity) in
  let '(gates1_s, gates2_s) :=
    if negb normalize_gate_prob_before_dropping then
      let gates1_s := sum_dim1_q (mul_qz gates mask1) in
      let gates2_s := sum_dim1_q (mul_qz gates mask2) in
      let denom_s := zip_with Qplus gates1_s gates2_s in
      let denom_s := clamp_min (finfo_eps (t_dtype logits)) denom_s in
      (zip_with Qdiv gates1_s denom_s, zip_with Qdiv gates2_s denom_s)
    else (gates1_s, gates2_s) in
  if has_tutel then
    let locations1_s := sum_dim1_z (mul_zz locations1 mask1_) in
    let locations2_s := sum_dim1_z (mul_zz locations2 mask2_) in
    Ok (Top2Tutel l_aux capacity num_experts [indices1_s; indices2_s]
                  [locations1_s; locations2_s] [gates1_s; gates2_s])
  else
    let locations1_s := sum_dim1_z (mul_zz locations1 mask1) in
    let locations2_s := sum_dim1_z (mul_zz locations2 mask2) in
    let gates1 := scale_rows_q gates1_s mask1 in
    let gates2 := scale_rows_q gates2_s mask2 in
    locations1_sc <- one_hot locations1_s capacity ;;
    locations2_sc <- one_hot locations2_s capacity ;;
    let combine1_sec := bmm_outer gates1 locations1_sc in
    let combine2_sec := bmm_outer gates2 locations2_sc in
    let combine_weights := add3 combine1_sec combine2_sec in
    let dispatch_mask := to_bool3 combine_weights in
    Ok (Top2Dense
          (mkTop2 gates capacity indices1_s indices2_s mask1_hot mask2_hot
                  mask1_ mask2_ locations1 locations2 l_aux mask1 mask2
                  gates1_s gates2_s locations1_s locations2_s combine_weights
                  dispatch_mask)).

End Routers.

(** A gate normalisation for concrete runs: a row of scores is divided by
    its sum.  On a constant row it returns the uniform distribution, as
    softmax does. *)
Definition linear_gate (r : list Q) : list Q :=
  map (fun x => Qred (x / sumQ r)) r.

(** ** _make_finite *)

(** A float as [_make_finite] may meet it: not a number, an infinity, or a
    finite value. *)
Inductive score : Type :=
| Nan
| PosInf
| MinusInf
| Finite (q : Q).

(** [x.isfinite()] *)
Definition isfinite (x : score) : bool :=
  match x with
  | Finite _ => true
  | _ => false
  end.

(** [ok.all()] of a 2-D boolean tensor. *)
Definition all2 (m : list (list bool)) : bool :=
  forallb (forallb (fun b => b)) m.

(** [t[mask]]: the entries of [t] where [mask] holds, in row-major order. *)
Definition masked_select {A : Type} (t : list (list A)) (mask : list (list bool))
  : list A :=
  concat (zip_with
            (fun r mr =>
               concat (zip_with (fun x (b : bool) => if b then [x] else []) r mr))
            t mask).

(** The smaller of two floats as [torch.min] orders them: a NaN wins. *)
Definition score_min (a b : score) : score :=
  match a, b with
  | Nan, _ | _, Nan => Nan
  | MinusInf, _ | _, MinusInf => MinusInf
  | PosInf, x | x, PosInf => x
  | Finite p, Finite q => if Qltb q p then Finite q else Finite p
  end.

(** [v.min()] of a 1-D tensor: the reduction raises on an empty tensor. *)
Definition tensor_min (v : list score) : result score :=
  match v with
  | [] => Raise RuntimeError
  | x :: v' => Ok (fold_left score_min v' x)
  end.

(** [t[mask] = value] *)
Definition masked_assign {A : Type} (t : list (list A)) (mask : list (list bool))
  (value : A) : list (list A) :=
  zip_with (zip_with (fun x (b : bool) => if b then value else x)) t mask.

(** [_make_finite(self, scores)] of [Top1Gate] and [Top2Gate].  The source
    assigns in place and returns its argument; the embedding returns the
    tensor after the assignment. *)
Definition _make_finite (scores : list (list score))
  : result (list (list score)) :=
  let ok := map (map isfinite) scores in
  if negb (all2 ok) then
    lo <- tensor_min (masked_select scores ok) ;;
    Ok (masked_assign scores (map (map negb) ok) lo)
  else Ok scores.

(** ** gumbel_rsample *)

(** A [torch.device]. *)
Definition device : Type := string.

(** The bound method [Gumbel(zero, one).rsample]: a distribution object,
    told from the others by its identity, with its parameters on a device. *)
Record Sampler : Type := mkSampler {
  sampler_id : nat;
  sampler_device : device
}.

(** A Python dict with devices as keys. *)
Definition dict (V : Type) : Type := list (device * V).

(** [d.get(k)] *)
Fixpoint dict_get {V : Type} (k : device) (d : dict V) : option V :=
  match d with
  | [] => None
  | (k', v) :: d' => if String.eqb k k' then Some v else dict_get k d'
  end.

(** [d[k] = v] *)
Fixpoint dict_set {V : Type} (k : device) (v : V) (d : dict V) : dict V :=
  match d with
  | [] => [(k, v)]
  | (k', v') :: d' =>
      if String.eqb k k' then (k, v) :: d' else (k', v') :: dict_set k v d'
  end.

Section Gumbel.

(** The state of the random number generators, and the draw a sampler makes
    from it for a shape: PyTorch's, parameters of the embedding. *)
Variable Rng : Type.
Variable rsample : Sampler -> nat * nat -> Rng -> list (list Q) * Rng.

(** What a call of [gumbel_rsample] reads and writes: the module-level
    [gumbel_map], the distribution objects created so far, and the
    generators. *)
Record World : Type := mkWorld {
  gumbel_map : dict Sampler;
  created : nat;
  rng : Rng
}.

Definition gumbel_rsample (shape : nat * nat) (dev : device) (w : World)
  : list (list Q) * World :=
  match dict_get dev (gumbel_map w) with
  | Some gumbel =>
      let (t, r) := rsample gumbel shape (rng w) in
      (t, mkWorld (gumbel_map w) (created w) r)
  | None =>
      let gumbel := mkSampler (created w) dev in
      let (t, r) := rsample gumbel shape (rng w) in
      (t, mkWorld (dict_set dev gumbel (gumbel_map w)) (S (created w)) r)
  end.

(** A run of calls, in order. *)
Fixpoint gumbel_calls (calls : list (nat * nat * device)) (w : World) : World :=
  match calls with
  | [] => w
  | (shape, dev) :: calls' => gumbel_calls calls' (snd (gumbel_rsample shape dev w))
  end.

End Gumbel.

Arguments mkWorld {Rng} gumbel_map created rng.
Arguments gumbel_map {Rng} w.
Arguments created {Rng} w.
Arguments rng {Rng} w.
Arguments gumbel_rsample {Rng} rsample shape dev w.
Arguments gumbel_calls {Rng} rsample calls w.

(** ** Overflow diagnostics of top2gating *)

(** [torch.ge(m, c)] *)
Definition ge_scalar (m : list (list Z)) (c : Z) : list (list bool) :=
  map (map (fun x => (c <=? x)%Z)) m.

(** [torch.sum(m)] over all entries. *)
Definition sum_all_z (m : list (list Z)) : Z := sumZ (map sumZ m).

(** [a / b] on two integer tensors of one element: a float, not a number
    for 0 / 0 and an infinity for another division by zero. *)
Definition true_divide (a b : Z) : score :=
  if (b =? 0)%Z then
    if (a =? 0)%Z then Nan else if (0 <? a)%Z then PosInf else MinusInf
  else Finite (inject_Z a / inject_Z b).

(** Lines 337-342 of [top2gating]: [100 * torch.sum(mask * torch.ge(locations,
    capacity)) / torch.sum(mask)], on the masks before the capacity cut. *)
Definition overflow_expert (mask locations : list (list Z)) (capacity : Z)
  : score :=
  true_divide (100 * sum_all_z (mul_zb mask (ge_scalar locations capacity)))
              (sum_all_z mask).

(** [metadata["overflow_expert1"]] and [metadata["overflow_expert2"]] *)
Definition overflow_expert1 (f : Top2Frame) : score :=
  overflow_expert (t2_mask1_sel f) (t2_locations1 f) (t2_capacity f).

Definition overflow_expert2 (f : Top2Frame) : score :=
  overflow_expert (t2_mask2_sel f) (t2_locations2 f) (t2_capacity f).

(** ** Vocabulary of the properties *)

(** Column [e] of a matrix, entries outside a row read as [d]. *)
Definition col {A : Type} (d : A) (e : nat) (m : list (list A)) : list A :=
  map (fun r => nth e r d) m.

Definition entry (m : list (list Z)) (s e : nat) : Z := nth e (nth s m []) 0%Z.



Definition bit (x : Z) : Prop := x = 0%Z \/ x = 1%Z.

Definition binary (m : list (list Z)) : Prop := Forall (Forall bit) m.

(** Running count along one column, starting from [a]. *)
Fixpoint excl_from (a : Z) (l : list Z) : list Z :=
  match l with
  | [] => []
  | x :: l' => a :: excl_from (a + x) l'
  end.

Definition sel (x : Z) (c : bool) : Z := if c then x else 0%Z.

(** Every row of [m] has at most one nonzero entry. *)
Definition one_per_row (m : list (list Z)) : Prop :=
  Forall (fun r => (sumZ r <= 1)%Z) m.

(** The padding step shared by both routers. *)
Definition padded (input_mask : option (list bool)) (m : list (list Z))
  : list (list Z) :=
  match input_mask with
  | Some im => if any im then scale_rows_z m (nonpadding_of im) else m
  | None => m
  end.

Definition gather {A : Type} (d : A) (l : list A) (idx : list nat) : list A :=
  map (fun i => nth i l d) idx.

(** The locations [sorted_cumsum[rank]] that [top2gating] computes from a
    mask under batch-prioritised routing. *)
Definition bpr_locations (m : list (list Z)) (order rank : list nat)
  : list (list Z) :=
  index_rows (mul_zz (fused_cumsum_sub_one (index_rows m order))
                     (index_rows m order)) rank.

(** The locations [loc] lay the tokens selected by column [e] of [m] out as
    running counts along some ordering of the batch: token [s] stands at
    position [pos s] of the ordered column [c]. *)
Definition slot_layout (e : nat) (m loc : list (list Z)) : Prop :=
  exists (c : list Z) (pos : nat -> nat),
    Forall bit c /\ sumZ c = sumZ (col 0%Z e m) /\
    (forall s, entry m s e = 1%Z ->
       nth (pos s) c 0%Z = 1%Z /\ entry loc s e = sumZ (firstn (pos s) c)) /\
    (forall s s', (s < length m)%nat -> (s' < length m)%nat ->
       s <> s' -> pos s <> pos s').

(** [logits_w_noise] *)
Definition noisy_logits (draws : Draws) (logits : Tensor) (policy : string)
  : list (list Q) :=
  if String.eqb policy "sampling"
  then add_qq (rows logits) (gumbel draws)
  else rows logits.

(** [importance_scores.argsort(dim=0)] *)
Definition importance_order (gates : list (list Q)) : list nat :=
  argsort Qle_bool 0 (map (Qmult (-1)) (max_dim1 gates)).

(** The normalisation of a pair of gate vectors. *)
Definition normalized (eps : Q) (g1 g2 : list Q) : list Q * list Q :=
  let denom_s := clamp_min eps (zip_with Qplus g1 g2) in
  (zip_with Qdiv g1 denom_s, zip_with Qdiv g2 denom_s).

Definition eps_of (logits : Tensor) (use_fp32 : bool) : Q :=
  finfo_eps (if use_fp32 then float32 else t_dtype logits).

(** A selection mask over [n] experts: rows of [n] bits with at most one set. *)
Definition selection (n : nat) (m : list (list Z)) : Prop :=
  rect n m /\ binary m /\ one_per_row m.

(** Number of nonzero entries of a mask row. *)
Definition nonzero_count (r : list Z) : nat :=
  length (filter (fun x => negb (x =? 0)%Z) r).

(** The shapes PyTorch requires of the arguments of [top2gating]: a
    rectangular logits tensor, one padding flag per token, and draws of the
    shape the policy asks for. *)
Definition well_shaped (draws : Draws) (logits : Tensor)
  (input_mask : option (list bool)) (policy : string) : Prop :=
  wf_tensor logits /\
  (forall im, input_mask = Some im -> length im = shape0 logits) /\
  (policy = "sampling"%string ->
     length (gumbel draws) = shape0 logits /\
     rect (shape1 logits) (gumbel draws)) /\
  (policy = "random"%string -> length (uniform draws) = shape0 logits).

(** [locations] before the first-choice offset is added, in either
    admission order. *)
Definition base_locations (bpr : bool) (m : list (list Z)) (order : list nat)
  : list (list Z) :=
  if bpr then bpr_locations m order (argsort Nat.leb O order)
  else fused_cumsum_sub_one m.

(** The two choice ranks of [top2gating]. *)
Inductive choice : Type := First | Second.

(** Token [s] is dispatched to expert [e] through its choice [r]. *)
Definition admitted (f : Top2Frame) (r : choice) (s e : nat) : Prop :=
  entry (match r with First => t2_mask1 f | Second => t2_mask2 f end) s e = 1%Z.

(** The slot of expert buffers that token [s] takes through its choice [r]. *)
Definition slot (f : Top2Frame) (r : choice) (s : nat) : Z :=
  nth s (match r with
         | First => t2_locations1_s f
         | Second => t2_locations2_s f
         end) 0%Z.

(** Integer ceiling of [a / b]. *)
Definition ceil_div (a b : nat) : Z :=
  ((Z.of_nat a + Z.of_nat b - 1) / Z.of_nat b)%Z.


(** The capacity of top-1 routing with Python's [int] read as truncation. *)
Definition truncated_top1_capacity (S E : nat) (capacity_factor : Q)
  (eval_mode : bool) (fraction : Q) : Z :=
  if eval_mode && Qltb 0 fraction
  then Qceiling (fraction * Qnat S)
  else py_int (capacity_factor * inject_Z (ceil_div S E)).

(** The capacity of top-2 routing as the specification words it. *)
Definition claimed_top2_capacity (S E : nat) (eval_mode : bool) (fraction : Q)
  : Z :=
  if eval_mode && Qltb 0 fraction
  then Qceiling (fraction * Qnat S)
  else (2 * ceil_div S E)%Z.

(** Entry of a float matrix. *)
Definition gate (g : list (list Q)) (s e : nat) : Q := nth e (nth s g []) 0.

(** The combine weight of token [s] at expert [e]: the sum over the slots of
    the expert. *)
Definition weight (f : Top2Frame) (s e : nat) : Q :=
  sumQ (nth e (nth s (t2_combine_weights f) []) []).

(** The auxiliary loss in the words of the specification: E squared times
    the mean over experts of (mean gate probability of the expert) times
    (mean assignment fraction of the expert under [mask]). *)
Definition balance_loss_spec (E : nat) (gates : list (list Q))
  (mask : list (list Z)) : Q :=
  let me e :=
    sumQ (map (fun s => gate gates s e) (seq 0 (length gates)))
    / Qnat (length gates) in
  let ce e :=
    inject_Z (sumZ (map (fun s => entry mask s e) (seq 0 (length mask))))
    / Qnat (length mask) in
  Qnat E * Qnat E * (sumQ (map (fun e => me e * ce e) (seq 0 E)) / Qnat E).

(** The auxiliary loss as both routers compute it. *)
Definition l_aux_of (E : nat) (gates : list (list Q)) (mask : list (list Z))
  : Q :=
  mean_q (zip_with Qmult (mean_dim0_q E gates) (mean_dim0_z E mask))
  * Qnat E * Qnat E.

(** Token [s] selects expert [e] through its choice [r], before the
    capacity cut. *)
Definition selected (f : Top2Frame) (r : choice) (s e : nat) : Prop :=
  entry (match r with First => t2_mask1_sel f | Second => t2_mask2_sel f end)
        s e = 1%Z.

(** The combine weights of token [s] summed over all experts and slots. *)
Definition total_weight (E : nat) (f : Top2Frame) (s : nat) : Q :=
  sumQ (map (weight f s) (seq 0 E)).

(** The gate probability of token [s] at those of its two choices that
    were admitted. *)
Definition admitted_mass (f : Top2Frame) (s : nat) : Q :=
  nth s (sum_dim1_q (mul_qz (t2_gates f) (t2_mask1 f))) 0
  + nth s (sum_dim1_q (mul_qz (t2_gates f) (t2_mask2 f))) 0.

(** ** Concrete calls *)

Definition no_draws : Draws := mkDraws [] [].

(** Four tokens, two experts: tokens 0 and 1 prefer expert 0, tokens 2 and 3
    prefer expert 1. *)
Definition logits_4x2 : Tensor :=
  mkTensor float32 2 [[6; 4]; [7; 3]; [2; 8]; [1; 9]].

(** Three tokens, three experts; tokens 1 and 2 prefer expert 0. *)
Definition logits_3x3 : Tensor :=
  mkTensor float32 3 [[3; 6; 1]; [6; 3; 1]; [7; 2; 1]].

(** Two tokens, three experts; token 0 has gates (0.3, 0.6, 0.1) and token 1
    takes expert 0, the second choice of token 0, first. *)
Definition logits_2x3 : Tensor := mkTensor float32 3 [[3; 6; 1]; [6; 3; 1]].

(** Two tokens with uniform gates over two experts. *)
Definition logits_uniform : Tensor := mkTensor float32 2 [[1; 1]; [1; 1]].

(** * Lemmas *)

(** ** Lists *)

Lemma zip_with_length {A B C : Type} (f : A -> B -> C) xs ys :
  length (zip_with f xs ys) = Nat.min (length xs) (length ys).
Proof.
  revert ys; induction xs as [|x xs IH]; intros [|y ys]; simpl; auto.
Qed.

Lemma zip_with_nth {A B C : Type} (f : A -> B -> C) xs ys i da db dc :
  (i < length xs)%nat -> (i < length ys)%nat ->
  nth i (zip_with f xs ys) dc = f (nth i xs da) (nth i ys db).
Proof.
  revert ys i; induction xs as [|x xs IH]; intros [|y ys] [|i]; simpl;
    intros; try lia; auto.
  apply IH; lia.
Qed.

Lemma zip_with_map_l {A A' B C : Type} (f : A' -> B -> C) (g : A -> A') xs ys :
  zip_with f (map g xs) ys = zip_with (fun x y => f (g x) y) xs ys.
Proof.
  revert ys; induction xs as [|x xs IH]; intros [|y ys]; simpl; auto.
  now rewrite IH.
Qed.

Lemma zip_with_map_r {A B B' C : Type} (f : A -> B' -> C) (g : B -> B') xs ys :
  zip_with f xs (map g ys) = zip_with (fun x y => f x (g y)) xs ys.
Proof.
  revert ys; induction xs as [|x xs IH]; intros [|y ys]; simpl; auto.
  now rewrite IH.
Qed.

Lemma map_zip_with {A B C D : Type} (f : A -> B -> C) (g : C -> D) xs ys :
  map g (zip_with f xs ys) = zip_with (fun x y => g (f x y)) xs ys.
Proof.
  revert ys; induction xs as [|x xs IH]; intros [|y ys]; simpl; auto.
  now rewrite IH.
Qed.

Lemma zip_with_ext_in {A B C : Type} (f g : A -> B -> C) xs ys :
  (forall x y, In x xs -> In y ys -> f x y = g x y) ->
  zip_with f xs ys = zip_with g xs ys.
Proof.
  revert ys; induction xs as [|x xs IH]; intros [|y ys] H; simpl; auto.
  rewrite H by (simpl; auto). f_equal. apply IH. intros; apply H; simpl; auto.
Qed.

Lemma nth_map_in {A B : Type} (f : A -> B) l i da db :
  (i < length l)%nat -> nth i (map f l) db = f (nth i l da).
Proof.
  intros Hi. rewrite (nth_indep _ db (f da)) by now rewrite length_map.
  apply map_nth.
Qed.

Lemma sumZ_cons x l : sumZ (x :: l) = (x + sumZ l)%Z.
Proof. reflexivity. Qed.

Lemma sumZ_app l1 l2 : sumZ (l1 ++ l2) = (sumZ l1 + sumZ l2)%Z.
Proof.
  induction l1 as [|x l1 IH]; [reflexivity|].
  rewrite <- app_comm_cons, !sumZ_cons. lia.
Qed.

Lemma sumZ_perm l1 l2 : Permutation l1 l2 -> sumZ l1 = sumZ l2.
Proof. induction 1; rewrite ?sumZ_cons; try reflexivity; lia. Qed.

Lemma sumZ_bits_nonneg l : Forall bit l -> (0 <= sumZ l)%Z.
Proof.
  induction 1 as [|x l [->| ->] _ IH]; rewrite ?sumZ_cons; [reflexivity|lia|lia].
Qed.

(** ** Shapes *)

Lemma rect_in {A : Type} n (m : list (list A)) r :
  rect n m -> In r m -> length r = n.
Proof. intros Hm Hr. unfold rect in Hm. rewrite Forall_forall in Hm. auto. Qed.

Lemma rect_map_length {A B : Type} (f : A -> list B) n l :
  (forall x, length (f x) = n) -> rect n (map f l).
Proof. intros H. apply Forall_forall. intros r [x [<- _]]%in_map_iff. apply H. Qed.

Lemma rect_zip_with {A B C : Type} (f : A -> B -> C) n a b :
  rect n a -> rect n b -> rect n (zip_with (zip_with f) a b).
Proof.
  intros Ha; revert b; induction Ha as [|r a Hr Ha IH]; intros [|r' b] Hb;
    simpl; try constructor.
  - inversion Hb as [|? ? Hr' Hb']. rewrite zip_with_length, Hr, Hr'.
    apply Nat.min_id.
  - apply IH. now inversion Hb.
Qed.

Lemma col_length {A : Type} (d : A) e m : length (col d e m) = length m.
Proof. apply length_map. Qed.

Lemma col_nth (m : list (list Z)) s e : nth s (col 0%Z e m) 0%Z = entry m s e.
Proof.
  unfold col, entry.
  assert (H0 : nth e (@nil Z) 0%Z = 0%Z) by now destruct e.
  rewrite <- H0 at 1. apply (map_nth (fun r : list Z => nth e r 0%Z)).
Qed.

Lemma col_zip_with {A B C : Type} (f : A -> B -> C) da db dc n e a b :
  rect n a -> rect n b -> (e < n)%nat ->
  col dc e (zip_with (zip_with f) a b) = zip_with f (col da e a) (col db e b).
Proof.
  intros Ha; revert b; induction Ha as [|r a Hr Ha IH]; intros [|r' b] Hb He;
    simpl; auto.
  inversion Hb as [|? ? Hr' Hb']. f_equal.
  - apply zip_with_nth; lia.
  - apply IH; auto.
Qed.

Lemma col_map_map {A B : Type} (f : A -> B) da db n e m :
  rect n m -> (e < n)%nat ->
  col db e (map (map f) m) = map f (col da e m).
Proof.
  intros Hm He. unfold col. rewrite !map_map. apply map_ext_in.
  intros r Hr. pose proof (rect_in _ _ _ Hm Hr). rewrite (nth_indep _ db (f da)).
  - apply map_nth.
  - rewrite length_map. lia.
Qed.

(** ** Columns of the tensor operations *)

Lemma col_cumsum_from n e m : forall acc,
  rect n m -> length acc = n -> (e < n)%nat ->
  col 0%Z e (cumsum_from acc m) = excl_from (nth e acc 0%Z) (col 0%Z e m).
Proof.
  induction m as [|r m IH]; intros acc Hm Hacc He; simpl; auto.
  inversion Hm as [|? ? Hr Hm']; subst. f_equal.
  rewrite IH; auto.
  - f_equal. apply zip_with_nth; lia.
  - rewrite zip_with_length. lia.
Qed.

Lemma col_fused_cumsum n e m :
  rect n m -> (e < n)%nat ->
  col 0%Z e (fused_cumsum_sub_one m) = excl_from 0%Z (col 0%Z e m).
Proof.
  intros Hm He. unfold fused_cumsum_sub_one.
  destruct m as [|r m]; [reflexivity|].
  inversion Hm as [|? ? Hr Hm']; subst. simpl hd.
  rewrite (col_cumsum_from (length r)); auto.
  - now rewrite nth_repeat.
  - apply repeat_length.
Qed.

Lemma cumsum_from_rect n m : forall acc,
  rect n m -> length acc = n -> rect n (cumsum_from acc m).
Proof.
  induction m as [|r m IH]; intros acc Hm Hacc; simpl; constructor; auto.
  inversion Hm as [|? ? Hr Hm']; subst.
  apply IH; auto. rewrite zip_with_length. lia.
Qed.

Lemma cumsum_from_length m : forall acc,
  length (cumsum_from acc m) = length m.
Proof. induction m; intros; simpl; auto. Qed.

Lemma fused_cumsum_rect n m : rect n m -> rect n (fused_cumsum_sub_one m).
Proof.
  intros Hm. unfold fused_cumsum_sub_one.
  destruct m as [|r m]; [constructor|].
  inversion Hm as [|? ? Hr Hm']; subst. simpl hd.
  apply cumsum_from_rect; auto. apply repeat_length.
Qed.

Lemma fused_cumsum_length m : length (fused_cumsum_sub_one m) = length m.
Proof. apply cumsum_from_length. Qed.

Lemma sum_dim0_z_length n m : rect n m -> length (sum_dim0_z n m) = n.
Proof.
  unfold sum_dim0_z. induction 1 as [|r m Hr Hm IH]; simpl.
  - apply repeat_length.
  - rewrite zip_with_length, IH, Hr. apply Nat.min_id.
Qed.

Lemma sum_dim0_z_nth n e m :
  rect n m -> (e < n)%nat ->
  nth e (sum_dim0_z n m) 0%Z = sumZ (col 0%Z e m).
Proof.
  intros Hm He. induction Hm as [|r m Hr Hm IH].
  - unfold sum_dim0_z; simpl. now rewrite nth_repeat.
  - pose proof (sum_dim0_z_length _ _ Hm) as Hl.
    unfold sum_dim0_z in *; simpl.
    rewrite (zip_with_nth _ _ _ _ 0%Z 0%Z) by lia.
    rewrite IH. reflexivity.
Qed.

Lemma col_add_row n e m v :
  rect n m -> length v = n -> (e < n)%nat ->
  col 0%Z e (add_row m v) = map (fun x => (x + nth e v 0)%Z) (col 0%Z e m).
Proof.
  intros Hm Hv He. unfold add_row, col. rewrite !map_map.
  apply map_ext_in. intros r Hr. pose proof (rect_in _ _ _ Hm Hr).
  apply zip_with_nth; lia.
Qed.

Lemma add_row_rect n m v : rect n m -> length v = n -> rect n (add_row m v).
Proof.
  intros Hm Hv. unfold add_row. apply Forall_forall.
  intros r [x [<- Hx]]%in_map_iff. pose proof (rect_in _ _ _ Hm Hx).
  rewrite zip_with_length. lia.
Qed.

Lemma col_index_rows e (m : list (list Z)) idx :
  col 0%Z e (index_rows m idx) = map (fun i => nth i (col 0%Z e m) 0%Z) idx.
Proof.
  unfold index_rows. unfold col at 1. rewrite map_map.
  apply map_ext. intros i. now rewrite col_nth.
Qed.

Lemma index_rows_rect {A : Type} n (m : list (list A)) idx :
  rect n m -> Forall (fun i => (i < length m)%nat) idx ->
  rect n (index_rows m idx).
Proof.
  intros Hm Hidx. unfold index_rows. apply Forall_forall.
  intros r [i [<- Hi]]%in_map_iff.
  rewrite Forall_forall in Hidx. apply (rect_in _ _ _ Hm), nth_In. auto.
Qed.

(** ** Running counts along one column *)

Lemma sumZ_nil : sumZ [] = 0%Z.
Proof. reflexivity. Qed.

Ltac sumz := cbn [firstn zip_with map excl_from]; rewrite ?sumZ_nil, ?sumZ_cons.

Lemma excl_from_length l : forall a, length (excl_from a l) = length l.
Proof. induction l; intros; simpl; auto. Qed.

Lemma excl_from_nth l : forall a i,
  (i < length l)%nat ->
  nth i (excl_from a l) 0%Z = (a + sumZ (firstn i l))%Z.
Proof.
  induction l as [|x l IH]; intros a [|i] Hi; cbn [length] in *; sumz;
    cbn [nth]; try lia.
  rewrite IH by lia. lia.
Qed.

Lemma firstn_sum_le l : Forall bit l -> forall i,
  (0 <= sumZ (firstn i l) <= sumZ l)%Z.
Proof.
  induction 1 as [|x l Hx Hl IH]; intros [|i]; sumz; try lia.
  - pose proof (sumZ_bits_nonneg _ Hl). destruct Hx; subst; lia.
  - specialize (IH i). destruct Hx; subst; lia.
Qed.

(** A selected token sits strictly below the column total. *)
Lemma firstn_sum_lt_total l : Forall bit l -> forall i,
  nth i l 0%Z = 1%Z -> (sumZ (firstn i l) < sumZ l)%Z.
Proof.
  induction 1 as [|x l Hx Hl IH]; intros [|i] Hi; cbn [nth] in Hi; try lia; sumz.
  - subst. pose proof (sumZ_bits_nonneg _ Hl). lia.
  - specialize (IH i Hi). lia.
Qed.

(** Of two selected tokens the earlier one has the smaller running count. *)
Lemma firstn_sum_strict l : Forall bit l -> forall i j,
  (i < j)%nat -> nth i l 0%Z = 1%Z ->
  (sumZ (firstn i l) < sumZ (firstn j l))%Z.
Proof.
  induction 1 as [|x l Hx Hl IH]; intros i j Hij Hi.
  - destruct i; cbn [nth] in Hi; lia.
  - destruct j as [|j]; [lia|]. destruct i as [|i]; cbn [nth] in Hi; sumz.
    + subst. pose proof (firstn_sum_le _ Hl j). lia.
    + specialize (IH i j). lia.
Qed.


Lemma admitted_le_total l bs : Forall bit l ->
  (0 <= sumZ (zip_with sel l bs) <= sumZ l)%Z.
Proof.
  intros Hl; revert bs; induction Hl as [|x l Hx Hl IH]; intros [|b bs]; sumz;
    try lia.
  - pose proof (sumZ_bits_nonneg _ Hl). destruct Hx; subst; lia.
  - specialize (IH bs). destruct Hx; subst; destruct b; unfold sel at 1 3; lia.
Qed.

(** ** One-hot rows and masks *)

Lemma one_hot_row_length n i : length (one_hot_row n i) = Z.to_nat n.
Proof. unfold one_hot_row. now rewrite length_map, length_seq. Qed.

Lemma one_hot_row_bits n i : Forall bit (one_hot_row n i).
Proof.
  unfold one_hot_row. apply Forall_forall. intros x [c [<- _]]%in_map_iff.
  unfold bit. destruct (Z.of_nat c =? i)%Z; auto.
Qed.

Lemma hot_seq_zero i k : forall a,
  (i < Z.of_nat a)%Z ->
  sumZ (map (fun c => if (Z.of_nat c =? i)%Z then 1%Z else 0%Z) (seq a k)) = 0%Z.
Proof.
  induction k as [|k IH]; intros a Ha; [reflexivity|].
  cbn [seq map]. rewrite sumZ_cons, IH by lia.
  destruct (Z.of_nat a =? i)%Z eqn:E; [apply Z.eqb_eq in E|]; lia.
Qed.

Lemma hot_seq_le_one i k : forall a,
  (sumZ (map (fun c => if (Z.of_nat c =? i)%Z then 1%Z else 0%Z) (seq a k)) <= 1)%Z.
Proof.
  induction k as [|k IH]; intros a; [cbn; lia|].
  cbn [seq map]. rewrite sumZ_cons.
  destruct (Z.of_nat a =? i)%Z eqn:E.
  - apply Z.eqb_eq in E. rewrite hot_seq_zero by lia. lia.
  - specialize (IH (S a)). lia.
Qed.

(** A one-hot row has at most one nonzero entry. *)
Lemma one_hot_row_sum n i : (sumZ (one_hot_row n i) <= 1)%Z.
Proof. apply hot_seq_le_one. Qed.

Lemma one_hot_inv idx n m :
  one_hot idx n = Ok m ->
  m = map (one_hot_row n) idx /\ (0 <= n)%Z /\
  Forall (fun i => (0 <= i < n)%Z) idx.
Proof.
  unfold one_hot. destruct (n <? 0)%Z eqn:Hn; [discriminate|].
  destruct (forallb (in_range n) idx) eqn:Hr; [|discriminate].
  intros [= <-]. apply Z.ltb_ge in Hn. repeat split; auto.
  rewrite forallb_forall in Hr. apply Forall_forall. intros i Hi.
  specialize (Hr i Hi). unfold in_range in Hr.
  apply andb_prop in Hr as [H1 H2]. apply Z.leb_le in H1. apply Z.ltb_lt in H2.
  lia.
Qed.

Lemma one_hot_ok idx n :
  (0 <= n)%Z -> Forall (fun i => (0 <= i < n)%Z) idx ->
  one_hot idx n = Ok (map (one_hot_row n) idx).
Proof.
  intros Hn Hidx. unfold one_hot.
  destruct (n <? 0)%Z eqn:E; [apply Z.ltb_lt in E; lia|].
  replace (forallb (in_range n) idx) with true; [reflexivity|].
  symmetry. apply forallb_forall. intros i Hi.
  rewrite Forall_forall in Hidx. specialize (Hidx i Hi). unfold in_range.
  apply andb_true_intro. split; [apply Z.leb_le|apply Z.ltb_lt]; lia.
Qed.

Lemma hot_rect n idx : rect (Z.to_nat n) (map (one_hot_row n) idx).
Proof. apply rect_map_length. intros; apply one_hot_row_length. Qed.

Lemma hot_binary n idx : binary (map (one_hot_row n) idx).
Proof.
  apply Forall_forall. intros r [i [<- _]]%in_map_iff. apply one_hot_row_bits.
Qed.

Lemma hot_one_per_row n idx : one_per_row (map (one_hot_row n) idx).
Proof.
  apply Forall_forall. intros r [i [<- _]]%in_map_iff. apply one_hot_row_sum.
Qed.

Lemma bit_mul x y : bit x -> bit y -> bit (x * y)%Z.
Proof. intros [->| ->] [->| ->]; unfold bit; auto. Qed.

Lemma bit_b2z b : bit (b2z b).
Proof. destruct b; unfold bit; auto. Qed.

Lemma sumZ_scale_bit r y : Forall bit r -> bit y ->
  (sumZ (map (fun x => (x * y)%Z) r) <= sumZ r)%Z.
Proof.
  intros Hr Hy. induction Hr as [|x r Hx Hr IH]; cbn [map];
    rewrite ?sumZ_nil, ?sumZ_cons; [lia|].
  destruct Hx, Hy; subst; lia.
Qed.

Section ScaleRows.
(** Facts shared by [scale_rows_z] and [keep_rows]: both scale the rows of
    a mask by one bit per row. *)
Variable B : Type.
Variable bitof : B -> Z.
Hypothesis bitof_bit : forall b, bit (bitof b).

Let scale (m : list (list Z)) (v : list B) : list (list Z) :=
  zip_with (fun r x => map (fun y => (y * bitof x)%Z) r) m v.

Lemma scale_rect n m v : rect n m -> rect n (scale m v).
Proof.
  intros Hm; revert v; induction Hm as [|r m Hr Hm IH]; intros [|x v];
    cbn; constructor; try apply IH. now rewrite length_map.
Qed.

Lemma scale_binary m v : binary m -> binary (scale m v).
Proof.
  intros Hm; revert v; induction Hm as [|r m Hr Hm IH]; intros [|x v];
    cbn; constructor; try apply IH.
  apply Forall_forall. intros z [y [<- Hy]]%in_map_iff.
  rewrite Forall_forall in Hr. apply bit_mul; auto.
Qed.

Lemma scale_one_per_row m v :
  binary m -> one_per_row m -> one_per_row (scale m v).
Proof.
  intros Hb Hm; revert v; induction Hm as [|r m Hr Hm IH]; intros [|x v];
    cbn; constructor; inversion Hb; subst; try (apply IH; assumption).
  pose proof (sumZ_scale_bit r (bitof x) H1 (bitof_bit x)). lia.
Qed.

End ScaleRows.

Lemma scale_rows_z_nonpadding m im :
  scale_rows_z m (nonpadding_of im) =
  zip_with (fun r b => map (fun y => (y * b2z (negb b))%Z) r) m im.
Proof. unfold scale_rows_z, nonpadding_of. apply zip_with_map_r. Qed.

Lemma padded_row_zero m im s :
  nth s im false = true ->
  Forall (fun x => x = 0%Z) (nth s (scale_rows_z m (nonpadding_of im)) []).
Proof.
  rewrite scale_rows_z_nonpadding. revert im s.
  induction m as [|r m IH]; intros [|b im] [|s] H; cbn in *;
    try discriminate; try constructor; auto.
  subst. apply Forall_forall. intros z [y [<- _]]%in_map_iff. cbn. lia.
Qed.

(** [mask * torch.lt(locations, capacity)] keeps the shape, the bits and the
    single selection per row. *)
Lemma mul_zb_rect n m b : rect n m -> rect n b -> rect n (mul_zb m b).
Proof. apply rect_zip_with. Qed.

Lemma mul_zb_binary m : binary m -> forall b, binary (mul_zb m b).
Proof.
  unfold mul_zb. induction 1 as [|r m Hr Hm IH]; intros [|c b]; cbn;
    constructor; try apply IH.
  clear -Hr. revert c. induction Hr as [|x r Hx Hr IH]; intros [|y c]; cbn;
    constructor; try apply IH.
  destruct y; auto. now left.
Qed.

Lemma sel_row_le r : Forall bit r -> forall c,
  (sumZ (zip_with (fun x (y : bool) => if y then x else 0%Z) r c) <= sumZ r)%Z.
Proof.
  induction 1 as [|x r Hx Hr IH]; intros [|y c]; cbn [zip_with];
    rewrite ?sumZ_nil, ?sumZ_cons; try lia.
  - pose proof (sumZ_bits_nonneg _ Hr). destruct Hx; subst; lia.
  - specialize (IH c). destruct Hx; subst; destruct y; lia.
Qed.

Lemma mul_zb_one_per_row m : binary m -> one_per_row m ->
  forall b, one_per_row (mul_zb m b).
Proof.
  unfold mul_zb. intros Hb Hm; induction Hm as [|r m Hr Hm IH]; intros [|c b];
    cbn; constructor; inversion Hb; subst; try (apply IH; assumption).
  pose proof (sel_row_le r ltac:(assumption) c). lia.
Qed.

Lemma lt_scalar_rect n m c : rect n m -> rect n (lt_scalar m c).
Proof.
  intros Hm. apply Forall_forall. intros r [x [<- Hx]]%in_map_iff.
  rewrite length_map. apply (rect_in _ _ _ Hm Hx).
Qed.

Lemma mul_zb_length m b :
  length b = length m -> length (mul_zb m b) = length m.
Proof. intros H. unfold mul_zb. rewrite zip_with_length. lia. Qed.

(** ** The frame of a dense [top1gating] return *)

Lemma bind_ok {A B : Type} (r : result A) (k : A -> result B) b :
  bind r k = Ok b -> exists a, r = Ok a /\ k a = Ok b.
Proof. destruct r as [a|e]; cbn; [eauto|discriminate]. Qed.

Lemma argmax_inv {A : Type} (ltb : A -> A -> bool) n m idx :
  argmax ltb n m = Ok idx ->
  (0 < n)%nat /\ idx = map (fun r => Z.of_nat (argmax_row ltb r)) m.
Proof. destruct n; cbn; [discriminate|]. intros [= <-]. split; [lia|auto]. Qed.

Lemma top1gating_dense_inv softmax logits input_mask use_fp32 capacity_factor
  eval_mode fraction use_xmoe f :
  top1gating softmax false logits input_mask use_fp32 capacity_factor
             eval_mode fraction use_xmoe = Ok (Top1Dense f) ->
  let E := shape1 logits in
  let C := t1_capacity f in
  (0 < E)%nat /\ (0 <= C)%Z /\
  top1_capacity (shape0 logits) E capacity_factor eval_mode fraction = Ok C /\
  t1_l_aux f =
    mean_q (zip_with Qmult (mean_dim0_q E (t1_gates f))
                           (mean_dim0_z E (t1_mask1_sel f)))
    * Qnat E * Qnat E /\
  t1_gates f = map softmax (rows logits) /\
  t1_indices1_s f = map (fun r => Z.of_nat (argmax_row Qltb r)) (t1_gates f) /\
  t1_mask1_sel f =
    padded input_mask (map (one_hot_row (Z.of_nat E)) (t1_indices1_s f)) /\
  t1_gates1_s f = sum_dim1_q (mul_qz (t1_gates f) (t1_mask1_sel f)) /\
  t1_locations1 f = fused_cumsum_sub_one (t1_mask1_sel f) /\
  t1_mask1 f = mul_zb (t1_mask1_sel f) (lt_scalar (t1_locations1 f) C) /\
  t1_locations1_s f = sum_dim1_z (mul_zz (t1_locations1 f) (t1_mask1 f)) /\
  t1_gates1 f = scale_rows_q (t1_gates1_s f) (t1_mask1 f) /\
  t1_locations1_sc f = map (one_hot_row C) (t1_locations1_s f) /\
  Forall (fun i => (0 <= i < C)%Z) (t1_locations1_s f) /\
  t1_combine1_sec f = bmm_outer (t1_gates1 f) (t1_locations1_sc f) /\
  t1_dispatch_mask f = to_bool3 (t1_combine1_sec f).
Proof.
  unfold top1gating. intros H.
  apply bind_ok in H as (C & HCap & H).
  apply bind_ok in H as (idx & Hidx & H).
  apply bind_ok in H as (m1 & Hm1 & H).
  apply bind_ok in H as (sc & Hsc & H).
  injection H as <-. cbn [t1_capacity t1_gates t1_indices1_s t1_mask1_sel
    t1_gates1_s t1_locations1 t1_mask1 t1_locations1_s t1_gates1
    t1_locations1_sc t1_combine1_sec t1_dispatch_mask t1_l_aux].
  assert (Hrows : rows (if use_fp32 then to_float logits else logits) = rows logits)
    by now destruct use_fp32.
  assert (Hsh : shape1 (if use_fp32 then to_float logits else logits) = shape1 logits)
    by now destruct use_fp32.
  rewrite Hrows, Hsh in *.
  apply argmax_inv in Hidx as [HE ->].
  apply one_hot_inv in Hm1 as (-> & _ & _).
  apply one_hot_inv in Hsc as (-> & HC & Hloc).
  unfold padded, shape0. rewrite length_map in HCap. repeat split; auto.
Qed.

(** ** Counting dispatched cells *)










Lemma entry_bit m s e : binary m -> bit (entry m s e).
Proof.
  intros Hm. unfold entry.
  destruct (Nat.lt_ge_cases s (length m)) as [Hs|Hs].
  - pose proof (proj1 (Forall_forall _ _) Hm _ (nth_In m [] Hs)) as Hr.
    destruct (Nat.lt_ge_cases e (length (nth s m []))) as [He|He].
    + apply (proj1 (Forall_forall _ _) Hr). now apply nth_In.
    + rewrite nth_overflow by lia. now left.
  - rewrite (nth_overflow m) by lia. destruct e; now left.
Qed.



Lemma nth_bit r e : Forall bit r -> bit (nth e r 0%Z).
Proof.
  intros Hr. destruct (Nat.lt_ge_cases e (length r)) as [He|He].
  - apply (proj1 (Forall_forall _ _) Hr). now apply nth_In.
  - rewrite nth_overflow by lia. now left.
Qed.

Lemma col_bits e m : binary m -> Forall bit (col 0%Z e m).
Proof.
  intros Hm. apply Forall_forall. intros x [r [<- Hr]]%in_map_iff.
  apply nth_bit. apply (proj1 (Forall_forall _ _) Hm _ Hr).
Qed.



(** ** Shape and bits of the selection masks *)

Lemma padded_rect n im m : rect n m -> rect n (padded im m).
Proof.
  intros Hm. destruct im as [im|]; cbn; auto. destruct (any im); auto.
  rewrite scale_rows_z_nonpadding.
  apply (scale_rect bool (fun b => b2z (negb b))); auto.
Qed.

Lemma padded_binary im m : binary m -> binary (padded im m).
Proof.
  intros Hm. destruct im as [im|]; cbn; auto. destruct (any im); auto.
  rewrite scale_rows_z_nonpadding.
  apply (scale_binary bool (fun b => b2z (negb b))); auto.
  intros b. apply bit_b2z.
Qed.

Lemma padded_one_per_row im m :
  binary m -> one_per_row m -> one_per_row (padded im m).
Proof.
  intros Hb Hm. destruct im as [im|]; cbn; auto. destruct (any im); auto.
  rewrite scale_rows_z_nonpadding.
  apply (scale_one_per_row bool (fun b => b2z (negb b))); auto.
  intros b. apply bit_b2z.
Qed.

Lemma any_nth im s : nth s im false = true -> any im = true.
Proof.
  intros H. unfold any. apply existsb_exists. exists true. split; auto.
  rewrite <- H. apply nth_In.
  destruct (Nat.lt_ge_cases s (length im)); auto.
  rewrite nth_overflow in H by lia. discriminate.
Qed.

(** The column of a capacity-cut mask. *)
Lemma col_cut n e m loc C :
  rect n m -> rect n loc -> (e < n)%nat ->
  col 0%Z e (mul_zb m (lt_scalar loc C)) =
  zip_with sel (col 0%Z e m) (map (fun x => (x <? C)%Z) (col 0%Z e loc)).
Proof.
  intros Hm Hl He. unfold mul_zb.
  rewrite (col_zip_with _ 0%Z false 0%Z n); auto using lt_scalar_rect.
  unfold lt_scalar. now rewrite (col_map_map _ 0%Z false n).
Qed.

(** ** Entries of a capacity-cut mask and the slot of an admitted token *)


Lemma entry_cons_S r m s e : entry (r :: m) (S s) e = entry m s e.
Proof. reflexivity. Qed.

Lemma entry_range m s e :
  entry m s e <> 0%Z -> (s < length m)%nat /\ (e < length (nth s m []))%nat.
Proof.
  unfold entry. intros H. split.
  - destruct (Nat.lt_ge_cases s (length m)); auto.
    rewrite (nth_overflow m) in H by lia. now destruct e.
  - destruct (Nat.lt_ge_cases e (length (nth s m []))); auto.
    now rewrite nth_overflow in H by lia.
Qed.

Lemma sel_row_nth r : forall c e,
  nth e (zip_with (fun x (y : bool) => if y then x else 0%Z) r c) 0%Z <> 0%Z ->
  nth e (zip_with (fun x (y : bool) => if y then x else 0%Z) r c) 0%Z = nth e r 0%Z
  /\ nth e c false = true.
Proof.
  induction r as [|x r IH]; intros [|y c] [|e]; cbn; try congruence.
  - destruct y; auto. congruence.
  - apply IH.
Qed.

Lemma entry_cut m : forall b s e,
  entry (mul_zb m b) s e <> 0%Z ->
  entry (mul_zb m b) s e = entry m s e /\ nth e (nth s b []) false = true.
Proof.
  unfold entry, mul_zb.
  induction m as [|r m IH]; intros [|c b] [|s] e; cbn [zip_with nth];
    try (destruct e; cbn; congruence).
  - apply sel_row_nth.
  - apply IH.
Qed.

Lemma lt_scalar_nth loc C s e :
  nth e (nth s (lt_scalar loc C) []) false = true -> (entry loc s e < C)%Z.
Proof.
  unfold lt_scalar, entry.
  replace (nth s (map (map (fun x => (x <? C)%Z)) loc) [])
    with (map (fun x => (x <? C)%Z) (nth s loc []))
    by (symmetry; apply (map_nth (map (fun x => (x <? C)%Z)) loc [] s)).
  intros H.
  destruct (Nat.lt_ge_cases e (length (nth s loc []))) as [He|He].
  - rewrite (nth_indep _ false ((fun x => (x <? C)%Z) 0%Z)) in H
      by (rewrite length_map; lia).
    rewrite (map_nth (fun x => (x <? C)%Z)) in H. now apply Z.ltb_lt.
  - rewrite nth_overflow in H by (rewrite length_map; lia). discriminate.
Qed.

Lemma bits_sum_zero l : Forall bit l -> (sumZ l <= 0)%Z ->
  forall r, sumZ (zip_with Z.mul r l) = 0%Z.
Proof.
  induction 1 as [|x l Hx Hl IH]; intros Hs [|y r]; cbn [zip_with];
    rewrite ?sumZ_nil, ?sumZ_cons in *; auto.
  pose proof (sumZ_bits_nonneg _ Hl).
  rewrite IH by (destruct Hx; lia). destruct Hx; subst; lia.
Qed.

Lemma bits_nth_le_sum l : Forall bit l -> forall e, (nth e l 0 <= sumZ l)%Z.
Proof.
  induction 1 as [|x l Hx Hl IH]; intros [|e]; cbn [nth];
    rewrite ?sumZ_nil, ?sumZ_cons; try lia.
  - pose proof (sumZ_bits_nonneg _ Hl). lia.
  - specialize (IH e). destruct Hx; lia.
Qed.

(** In a row with a single selection, the masked sum of a location row reads
    the location at the selected expert. *)
Lemma masked_row_sum mr : Forall bit mr -> (sumZ mr <= 1)%Z ->
  forall lr e, nth e mr 0%Z = 1%Z ->
  sumZ (zip_with Z.mul lr mr) = nth e lr 0%Z.
Proof.
  induction 1 as [|x mr Hx Hm IH]; intros Hs lr e He.
  - destruct e; discriminate.
  - rewrite sumZ_cons in Hs. destruct lr as [|y lr].
    + destruct e; reflexivity.
    + cbn [zip_with]. rewrite sumZ_cons. destruct e as [|e]; cbn [nth] in *.
      * subst. rewrite bits_sum_zero; auto; lia.
      * pose proof (bits_nth_le_sum _ Hm e).
        assert (x = 0%Z) by (destruct Hx; lia). subst.
        rewrite (IH ltac:(lia) lr e He). lia.
Qed.

Lemma sum_dim1_mul_nth loc m s :
  (s < length loc)%nat -> (s < length m)%nat ->
  nth s (sum_dim1_z (mul_zz loc m)) 0%Z
  = sumZ (zip_with Z.mul (nth s loc []) (nth s m [])).
Proof.
  intros Hl Hm. unfold sum_dim1_z, mul_zz.
  rewrite (nth_indep _ 0%Z (sumZ []))
    by (rewrite length_map, zip_with_length; lia).
  rewrite map_nth. f_equal. apply zip_with_nth; auto.
Qed.

(** The slot stored for an admitted token is its location in the expert it
    was admitted to. *)
Lemma admitted_slot loc mf s e :
  binary mf -> one_per_row mf -> length loc = length mf ->
  entry mf s e = 1%Z ->
  nth s (sum_dim1_z (mul_zz loc mf)) 0%Z = entry loc s e.
Proof.
  intros Hb Ho Hlen He.
  destruct (entry_range mf s e ltac:(lia)) as [Hs _].
  rewrite sum_dim1_mul_nth by lia. unfold entry.
  apply masked_row_sum; auto.
  - apply (proj1 (Forall_forall _ _) Hb). now apply nth_In.
  - apply (proj1 (Forall_forall _ _) Ho (nth s mf [])). now apply nth_In.
Qed.

Lemma col_overflow n e (m : list (list Z)) :
  rect n m -> (n <= e)%nat -> sumZ (col 0%Z e m) = 0%Z.
Proof.
  intros Hm He. induction Hm as [|r m Hr Hm IH]; [reflexivity|].
  cbn [col map]. rewrite sumZ_cons. fold (col 0%Z e m). rewrite IH.
  rewrite nth_overflow by lia. reflexivity.
Qed.




(** ** argsort *)

Lemma insert_by_perm {K : Type} (leb : K -> K -> bool) key i l :
  Permutation (insert_by leb key i l) (i :: l).
Proof.
  induction l as [|j l IH]; cbn; auto.
  destruct (leb (key i) (key j)); auto.
  rewrite IH. apply perm_swap.
Qed.

Lemma insertion_perm {K : Type} (leb : K -> K -> bool) key l :
  Permutation (fold_right (insert_by leb key) [] l) l.
Proof.
  induction l as [|i l IH]; cbn; auto.
  rewrite insert_by_perm. now constructor.
Qed.

Lemma argsort_perm {K : Type} (leb : K -> K -> bool) d keys :
  Permutation (argsort leb d keys) (seq 0 (length keys)).
Proof. apply insertion_perm. Qed.

Lemma argsort_length {K : Type} (leb : K -> K -> bool) d keys :
  length (argsort leb d keys) = length keys.
Proof.
  rewrite (Permutation_length (argsort_perm leb d keys)). apply length_seq.
Qed.

Lemma insert_by_sorted (key : nat -> nat) i l :
  StronglySorted (fun a b => (key a <= key b)%nat) l ->
  StronglySorted (fun a b => (key a <= key b)%nat) (insert_by Nat.leb key i l).
Proof.
  induction 1 as [|j l Hl IH Hj]; cbn.
  - repeat constructor.
  - destruct (Nat.leb (key i) (key j)) eqn:E.
    + apply Nat.leb_le in E. constructor; [now constructor|].
      constructor; auto. eapply Forall_impl; [|exact Hj]. cbn; intros; lia.
    + apply Nat.leb_gt in E. constructor; auto.
      eapply Permutation_Forall; [symmetry; apply insert_by_perm|].
      constructor; auto. lia.
Qed.

Lemma insertion_sorted (key : nat -> nat) l :
  StronglySorted (fun a b => (key a <= key b)%nat)
                 (fold_right (insert_by Nat.leb key) [] l).
Proof.
  induction l as [|i l IH]; cbn; [constructor|]. now apply insert_by_sorted.
Qed.

Lemma sorted_map_key (key : nat -> nat) l :
  StronglySorted (fun a b => (key a <= key b)%nat) l ->
  StronglySorted le (map key l).
Proof.
  induction 1 as [|j l Hl IH Hj]; cbn; constructor; auto.
  apply Forall_forall. intros x [y [<- Hy]]%in_map_iff.
  apply (proj1 (Forall_forall _ _) Hj _ Hy).
Qed.

(** Two ascending lists with the same elements are equal. *)
Lemma sorted_perm_unique l1 : forall l2,
  StronglySorted le l1 -> StronglySorted le l2 -> Permutation l1 l2 -> l1 = l2.
Proof.
  induction l1 as [|a l1 IH]; intros l2 H1 H2 HP.
  - apply Permutation_nil in HP. now subst.
  - destruct l2 as [|b l2];
      [apply Permutation_sym, Permutation_nil in HP; discriminate|].
    inversion H1 as [|? ? H1' Ha]; inversion H2 as [|? ? H2' Hb]; subst.
    assert (a = b).
    { assert (Hin1 : In a (b :: l2))
        by (eapply Permutation_in; [exact HP|now left]).
      assert (Hin2 : In b (a :: l1))
        by (eapply Permutation_in; [symmetry; exact HP|now left]).
      rewrite Forall_forall in Ha, Hb.
      destruct Hin1 as [->|Hin1]; auto. destruct Hin2 as [->|Hin2]; auto.
      specialize (Ha _ Hin2). specialize (Hb _ Hin1). lia. }
    subst. f_equal. apply IH; auto. eapply Permutation_cons_inv; eauto.
Qed.

Lemma seq_sorted n : forall a, StronglySorted le (seq a n).
Proof.
  induction n as [|n IH]; intros a; cbn; constructor; auto.
  apply Forall_forall. intros x Hx%in_seq. lia.
Qed.

Lemma map_nth_seq {A : Type} (l : list A) d :
  map (fun i => nth i l d) (seq 0 (length l)) = l.
Proof.
  apply (nth_ext _ _ d d).
  - now rewrite length_map, length_seq.
  - intros n Hn. rewrite length_map, length_seq in Hn.
    rewrite (nth_indep _ d ((fun i => nth i l d) O))
      by (rewrite length_map, length_seq; lia).
    rewrite (map_nth (fun i => nth i l d)). now rewrite seq_nth.
Qed.

(** [order.argsort()] inverts a permutation [order]. *)
Lemma rank_inverse order :
  Permutation order (seq 0 (length order)) ->
  map (fun i => nth i order O) (argsort Nat.leb O order)
  = seq 0 (length order).
Proof.
  intros HP. apply sorted_perm_unique.
  - apply sorted_map_key. apply insertion_sorted.
  - apply seq_sorted.
  - etransitivity; [apply Permutation_map, argsort_perm|].
    rewrite (map_nth_seq order O). exact HP.
Qed.

Lemma perm_seq_range l n :
  Permutation l (seq 0 n) -> Forall (fun i => (i < n)%nat) l.
Proof.
  intros HP. apply Forall_forall. intros i Hi.
  apply (Permutation_in _ HP) in Hi. apply in_seq in Hi. lia.
Qed.

(** ** Gathering a column through an index tensor *)

Lemma gather_zip_with {A B C : Type} (f : A -> B -> C) da db dc a b idx :
  length a = length b -> Forall (fun i => (i < length a)%nat) idx ->
  gather dc (zip_with f a b) idx = zip_with f (gather da a idx) (gather db b idx).
Proof.
  intros Hlen. induction 1 as [|i idx Hi Hidx IH]; cbn; auto.
  f_equal; auto. apply zip_with_nth; lia.
Qed.

Lemma gather_map {A B : Type} (f : A -> B) da db a idx :
  Forall (fun i => (i < length a)%nat) idx ->
  gather db (map f a) idx = map f (gather da a idx).
Proof.
  induction 1 as [|i idx Hi Hidx IH]; cbn; auto. f_equal; auto.
  rewrite (nth_indep _ db (f da)) by (rewrite length_map; lia).
  apply map_nth.
Qed.

Lemma gather_perm {A : Type} (d : A) l idx :
  Permutation idx (seq 0 (length l)) -> Permutation (gather d l idx) l.
Proof.
  intros HP. unfold gather.
  etransitivity; [apply Permutation_map, HP|].
  now rewrite map_nth_seq.
Qed.

Lemma gather_gather {A : Type} (d : A) l order rank :
  length order = length l ->
  Forall (fun i => (i < length order)%nat) rank ->
  map (fun i => nth i order O) rank = seq 0 (length order) ->
  gather d (gather d l order) rank = l.
Proof.
  intros Hlen Hr Hinv.
  transitivity (map (fun k => nth k l d) (map (fun i => nth i order O) rank)).
  - rewrite map_map. unfold gather. apply map_ext_in. intros i Hi.
    rewrite Forall_forall in Hr. specialize (Hr i Hi).
    rewrite (nth_indep _ d ((fun j => nth j l d) O)) by (rewrite length_map; lia).
    apply (map_nth (fun j => nth j l d)).
  - rewrite Hinv, Hlen. apply map_nth_seq.
Qed.

(** ** Batch-prioritised locations *)

Lemma sel_mul_excl (t : Z -> bool) l : Forall bit l -> forall a,
  zip_with sel l (map t (zip_with Z.mul (excl_from a l) l))
  = zip_with sel l (map t (excl_from a l)).
Proof.
  induction 1 as [|x l Hx Hl IH]; intros a; cbn [excl_from zip_with map]; auto.
  rewrite IH. f_equal. destruct Hx; subst.
  - unfold sel. now destruct (t _), (t _).
  - now rewrite Z.mul_1_r.
Qed.

Section BatchPrioritised.
Variables (n e : nat) (m : list (list Z)) (order : list nat).
Hypothesis Hrect : rect n m.
Hypothesis Hbin : binary m.
Hypothesis He : (e < n)%nat.
Hypothesis Horder : Permutation order (seq 0 (length m)).

Let rank := argsort Nat.leb O order.
Let SM := gather 0%Z (col 0%Z e m) order.
Let Y := zip_with Z.mul (excl_from 0%Z SM) SM.

Lemma order_length : length order = length m.
Proof. rewrite (Permutation_length Horder). apply length_seq. Qed.

Lemma order_range : Forall (fun i => (i < length m)%nat) order.
Proof. apply perm_seq_range, Horder. Qed.

Lemma rank_perm : Permutation rank (seq 0 (length m)).
Proof. rewrite <- order_length. apply argsort_perm. Qed.

Lemma rank_range : Forall (fun i => (i < length m)%nat) rank.
Proof. apply perm_seq_range, rank_perm. Qed.

Lemma rank_length : length rank = length m.
Proof. rewrite (Permutation_length rank_perm). apply length_seq. Qed.

Lemma SM_length : length SM = length m.
Proof. unfold SM, gather. rewrite length_map. apply order_length. Qed.

Lemma SM_bits : Forall bit SM.
Proof.
  apply Forall_forall. intros x [i [<- _]]%in_map_iff.
  apply nth_bit. now apply col_bits.
Qed.

Lemma SM_sum : sumZ SM = sumZ (col 0%Z e m).
Proof.
  apply sumZ_perm. apply gather_perm. now rewrite col_length.
Qed.

Lemma Y_length : length Y = length m.
Proof.
  unfold Y. rewrite zip_with_length, excl_from_length, SM_length.
  apply Nat.min_id.
Qed.

Lemma col_sorted_mask : col 0%Z e (index_rows m order) = SM.
Proof. apply col_index_rows. Qed.

Lemma sorted_mask_rect : rect n (index_rows m order).
Proof. apply index_rows_rect; auto. apply order_range. Qed.

Lemma col_bpr_locations :
  col 0%Z e (bpr_locations m order rank) = gather 0%Z Y rank.
Proof.
  unfold bpr_locations. rewrite col_index_rows. unfold gather. f_equal.
  unfold mul_zz. rewrite (col_zip_with _ 0%Z 0%Z 0%Z n);
    auto using fused_cumsum_rect, sorted_mask_rect.
  rewrite (col_fused_cumsum n); auto using sorted_mask_rect.
  now rewrite col_sorted_mask.
Qed.

Lemma col_mask_by_rank : col 0%Z e m = gather 0%Z SM rank.
Proof.
  symmetry. unfold SM. apply gather_gather.
  - rewrite col_length. apply order_length.
  - rewrite order_length. apply rank_range.
  - apply rank_inverse. now rewrite order_length.
Qed.

Lemma bpr_locations_rect : rect n (bpr_locations m order rank).
Proof.
  unfold bpr_locations. apply index_rows_rect.
  - apply rect_zip_with; auto using fused_cumsum_rect, sorted_mask_rect.
  - unfold mul_zz. rewrite zip_with_length, fused_cumsum_length.
    unfold index_rows at 1 2. rewrite !length_map, Nat.min_id, order_length.
    apply rank_range.
Qed.

Lemma bpr_locations_length : length (bpr_locations m order rank) = length m.
Proof. unfold bpr_locations, index_rows. rewrite length_map. apply rank_length. Qed.

(** The tokens that pass a test [t] on their batch-prioritised location
    are as many as in the importance-sorted column. *)
Lemma bpr_admitted (t : Z -> bool) :
  sumZ (zip_with sel (col 0%Z e m)
                 (map t (col 0%Z e (bpr_locations m order rank))))
  = sumZ (zip_with sel SM (map t (excl_from 0%Z SM))).
Proof.
  rewrite col_bpr_locations, col_mask_by_rank.
  rewrite <- (gather_map t 0%Z false)
    by (rewrite Y_length; apply rank_range).
  rewrite <- (gather_zip_with sel 0%Z false 0%Z);
    [|now rewrite length_map, SM_length, Y_length
     |rewrite SM_length; apply rank_range].
  match goal with
  | |- sumZ (gather _ ?X _) = _ =>
      rewrite (sumZ_perm (gather 0%Z X rank) X)
  end.
  - unfold Y. now rewrite sel_mul_excl by apply SM_bits.
  - apply gather_perm.
    rewrite zip_with_length, length_map, SM_length, Y_length, Nat.min_id.
    apply rank_perm.
Qed.


End BatchPrioritised.

(** ** Layout of the slots of one expert *)

Lemma layout_distinct e m loc s s' :
  slot_layout e m loc -> s <> s' ->
  entry m s e = 1%Z -> entry m s' e = 1%Z ->
  entry loc s e <> entry loc s' e.
Proof.
  intros (c & pos & Hc & _ & Hpos & Hinj) Hne Hs Hs'.
  destruct (entry_range m s e ltac:(lia)) as [Hr _].
  destruct (entry_range m s' e ltac:(lia)) as [Hr' _].
  destruct (Hpos s Hs) as [H1 ->]. destruct (Hpos s' Hs') as [H1' ->].
  specialize (Hinj s s' Hr Hr' Hne).
  destruct (Nat.lt_total (pos s) (pos s')) as [Hlt|[Heq|Hlt]]; [|lia|].
  - pose proof (firstn_sum_strict c Hc _ _ Hlt H1). lia.
  - pose proof (firstn_sum_strict c Hc _ _ Hlt H1'). lia.
Qed.

Lemma layout_range e m loc s :
  slot_layout e m loc -> entry m s e = 1%Z ->
  (0 <= entry loc s e < sumZ (col 0%Z e m))%Z.
Proof.
  intros (c & pos & Hc & Hsum & Hpos & _) Hs.
  destruct (Hpos s Hs) as [H1 ->]. rewrite <- Hsum.
  pose proof (firstn_sum_le c Hc (pos s)).
  pose proof (firstn_sum_lt_total c Hc _ H1). lia.
Qed.

Lemma entry_fused n m s e :
  rect n m -> (e < n)%nat -> (s < length m)%nat ->
  entry (fused_cumsum_sub_one m) s e = sumZ (firstn s (col 0%Z e m)).
Proof.
  intros Hm He Hs. rewrite <- col_nth, (col_fused_cumsum n); auto.
  rewrite excl_from_nth by now rewrite col_length. lia.
Qed.

Lemma rect_entry_range n m s e :
  rect n m -> entry m s e <> 0%Z -> (s < length m)%nat /\ (e < n)%nat.
Proof.
  intros Hm H. destruct (entry_range m s e H) as [Hs He]. split; auto.
  rewrite (rect_in n m (nth s m [])) in He; auto. now apply nth_In.
Qed.

(** Sequence order: the layout is the column itself. *)
Lemma layout_sequence n e m :
  rect n m -> binary m -> slot_layout e m (fused_cumsum_sub_one m).
Proof.
  intros Hm Hb. exists (col 0%Z e m), (fun s => s).
  repeat split; auto using col_bits.
  - now rewrite col_nth.
  - destruct (rect_entry_range n m s e Hm ltac:(lia)) as [Hs He].
    now apply (entry_fused n).
Qed.

(** Batch-prioritised order: the layout is the importance-sorted column and
    a token stands at its rank. *)
Lemma layout_batch_prioritised n e m order :
  rect n m -> binary m -> Permutation order (seq 0 (length m)) ->
  slot_layout e m (bpr_locations m order (argsort Nat.leb O order)).
Proof.
  intros Hm Hb HP.
  set (rank := argsort Nat.leb O order).
  set (SM := gather 0%Z (col 0%Z e m) order).
  exists SM, (fun s => nth s rank O).
  split; [apply (SM_bits e m order Hb)|].
  destruct (Nat.lt_ge_cases e n) as [He|He].
  - split; [apply (SM_sum e m order HP)|]. split.
    + intros s Hs.
      destruct (rect_entry_range n m s e Hm ltac:(lia)) as [Hlen _].
      pose proof (rank_length m order HP) as Hrl.
      pose proof (rank_range m order HP) as Hrr. fold rank in Hrl, Hrr.
      assert (Hk : (nth s rank O < length m)%nat).
      { rewrite Forall_forall in Hrr. apply Hrr, nth_In. lia. }
      assert (H1 : nth (nth s rank O) SM 0%Z = 1%Z).
      { rewrite <- Hs, <- col_nth, (col_mask_by_rank e m order HP).
        fold rank SM. unfold gather at 1.
        now rewrite (nth_map_in _ _ _ O) by lia. }
      split; auto.
      rewrite <- col_nth. unfold rank.
      rewrite (col_bpr_locations n e m order Hm He HP).
      fold rank SM. unfold gather at 1.
      rewrite (nth_map_in _ _ _ O) by lia.
      pose proof (SM_length e m order HP) as HSl. fold SM in HSl.
      rewrite (zip_with_nth _ _ _ _ 0%Z 0%Z)
        by (rewrite ?excl_from_length; lia).
      rewrite H1, excl_from_nth by lia. lia.
    + intros s s' Hs Hs' Hne Heq.
      pose proof (rank_length m order HP) as Hrl. fold rank in Hrl.
      apply Hne. eapply (proj1 (NoDup_nth rank O)); eauto; try lia.
      eapply Permutation_NoDup; [symmetry; apply (rank_perm m order HP)|].
      apply seq_NoDup.
  - split; [|split].
    + apply sumZ_perm. unfold SM. apply gather_perm. now rewrite col_length.
    + intros s Hs.
      destruct (rect_entry_range n m s e Hm ltac:(lia)). lia.
    + intros s s' Hs Hs' Hne Heq.
      pose proof (rank_length m order HP) as Hrl. fold rank in Hrl.
      apply Hne. eapply (proj1 (NoDup_nth rank O)); eauto; try lia.
      eapply Permutation_NoDup; [symmetry; apply (rank_perm m order HP)|].
      apply seq_NoDup.
Qed.

Lemma entry_add_row n m v s e :
  rect n m -> length v = n -> (e < n)%nat -> (s < length m)%nat ->
  entry (add_row m v) s e = (entry m s e + nth e v 0)%Z.
Proof.
  intros Hm Hv He Hs. rewrite <- !col_nth, (col_add_row n); auto.
  now rewrite (nth_map_in _ _ _ 0%Z) by (rewrite col_length; lia).
Qed.

(** ** The frame of a dense [top2gating] return *)

Ltac split_pair H :=
  match type of H with
  | context [match ?p with pair _ _ => _ end] =>
      let E := fresh "E" in destruct p eqn:E
  end.

Lemma top2gating_dense_inv softmax draws logits input_mask use_fp32 policy
  normalize eval_mode fraction bpr f :
  top2gating softmax false draws logits input_mask use_fp32 policy normalize
             eval_mode fraction bpr = Ok (Top2Dense f) ->
  let E := shape1 logits in
  let C := t2_capacity f in
  let n1 := sum_dim0_z E (t2_mask1_sel f) in
  let order := importance_order (t2_gates f) in
  let rank := argsort Nat.leb O order in
  let raw1 := sum_dim1_q (mul_qz (t2_gates f) (t2_mask1_hot f)) in
  let raw2 := sum_dim1_q (mul_qz (t2_gates f) (t2_mask2_hot f)) in
  let cut1 := sum_dim1_q (mul_qz (t2_gates f) (t2_mask1 f)) in
  let cut2 := sum_dim1_q (mul_qz (t2_gates f) (t2_mask2 f)) in
  exists sampled,
  (0 < E)%nat /\ (0 <= C)%Z /\
  top2_capacity (shape0 logits) E eval_mode fraction = Ok C /\
  t2_l_aux f =
    mean_q (zip_with Qmult (mean_dim0_q E (t2_gates f))
                           (mean_dim0_z E (t2_mask1_sel f)))
    * Qnat E * Qnat E /\
  t2_gates f = map softmax (rows logits) /\
  t2_indices1_s f = map (fun r => Z.of_nat (argmax_row Qltb r)) (t2_gates f) /\
  t2_mask1_hot f = map (one_hot_row (Z.of_nat E)) (t2_indices1_s f) /\
  t2_indices2_s f =
    map (fun r => Z.of_nat (argmax_row xltb r))
        (masked_fill_neginf (noisy_logits draws logits policy) (t2_mask1_hot f)) /\
  t2_mask2_hot f = map (one_hot_row (Z.of_nat E)) (t2_indices2_s f) /\
  t2_mask1_sel f = padded input_mask (t2_mask1_hot f) /\
  t2_mask2_sel f =
    padded input_mask
      (if String.eqb policy "random" then keep_rows (t2_mask2_hot f) sampled
       else t2_mask2_hot f) /\
  length sampled =
    Nat.min (Nat.min (length (t2_gates f)) (length (t2_mask2_hot f)))
            (length (uniform draws)) /\
  t2_locations1 f =
    (if bpr then bpr_locations (t2_mask1_sel f) order rank
     else fused_cumsum_sub_one (t2_mask1_sel f)) /\
  t2_locations2 f =
    add_row (if bpr then bpr_locations (t2_mask2_sel f) order rank
             else fused_cumsum_sub_one (t2_mask2_sel f)) n1 /\
  t2_mask1 f = mul_zb (t2_mask1_sel f) (lt_scalar (t2_locations1 f) C) /\
  t2_mask2 f = mul_zb (t2_mask2_sel f) (lt_scalar (t2_locations2 f) C) /\
  (t2_gates1_s f, t2_gates2_s f) =
    (if normalize then normalized (eps_of logits use_fp32) raw1 raw2
     else normalized (eps_of logits use_fp32) cut1 cut2) /\
  t2_locations1_s f = sum_dim1_z (mul_zz (t2_locations1 f) (t2_mask1 f)) /\
  t2_locations2_s f = sum_dim1_z (mul_zz (t2_locations2 f) (t2_mask2 f)) /\
  Forall (fun i => (0 <= i < C)%Z) (t2_locations1_s f) /\
  Forall (fun i => (0 <= i < C)%Z) (t2_locations2_s f) /\
  t2_combine_weights f =
    add3 (bmm_outer (scale_rows_q (t2_gates1_s f) (t2_mask1 f))
                    (map (one_hot_row C) (t2_locations1_s f)))
         (bmm_outer (scale_rows_q (t2_gates2_s f) (t2_mask2 f))
                    (map (one_hot_row C) (t2_locations2_s f))) /\
  t2_dispatch_mask f = to_bool3 (t2_combine_weights f).
Proof.
  unfold top2gating. intros H.
  apply bind_ok in H as (C & HCap & H).
  apply bind_ok in H as (idx1 & Hidx1 & H).
  apply bind_ok in H as (m1 & Hm1 & H).
  apply bind_ok in H as (idx2 & Hidx2 & H).
  apply bind_ok in H as (m2 & Hm2 & H).
  assert (Hrows : rows (if use_fp32 then to_float logits else logits) = rows logits)
    by now destruct use_fp32.
  assert (Hsh : shape1 (if use_fp32 then to_float logits else logits) = shape1 logits)
    by now destruct use_fp32.
  assert (Hdt : finfo_eps (t_dtype (if use_fp32 then to_float logits else logits))
                = eps_of logits use_fp32)
    by now destruct use_fp32.
  rewrite ?Hrows, ?Hsh, ?Hdt in *.
  apply argmax_inv in Hidx1 as [HE ->].
  apply one_hot_inv in Hm1 as (-> & _ & _).
  apply argmax_inv in Hidx2 as [_ ->].
  apply one_hot_inv in Hm2 as (-> & _ & _).
  cbv zeta in H.
  split_pair H. split_pair H. split_pair H. split_pair H.
  apply bind_ok in H as (sc1 & Hsc1 & H).
  apply bind_ok in H as (sc2 & Hsc2 & H).
  apply one_hot_inv in Hsc1 as (-> & HC & Hloc1).
  apply one_hot_inv in Hsc2 as (-> & _ & Hloc2).
  injection H as <-.
  cbn [t2_gates t2_capacity t2_indices1_s t2_indices2_s t2_mask1_hot
       t2_mask2_hot t2_mask1_sel t2_mask2_sel t2_locations1 t2_locations2
       t2_l_aux t2_mask1 t2_mask2 t2_gates1_s t2_gates2_s t2_locations1_s
       t2_locations2_s t2_combine_weights t2_dispatch_mask].
  exists (zip_with (fun g u => Qltb u (2 * g)) l0 (uniform draws)).
  assert (Hpad : l1 = padded input_mask
                   (map (one_hot_row (Z.of_nat (shape1 logits)))
                      (map (fun r => Z.of_nat (argmax_row Qltb r))
                         (map softmax (rows logits)))) /\
                 l2 = padded input_mask
                   (if String.eqb policy "random"
                    then keep_rows
                      (map (one_hot_row (Z.of_nat (shape1 logits)))
                        (map (fun r => Z.of_nat (argmax_row xltb r))
                          (masked_fill_neginf (noisy_logits draws logits policy)
                            (map (one_hot_row (Z.of_nat (shape1 logits)))
                              (map (fun r => Z.of_nat (argmax_row Qltb r))
                                (map softmax (rows logits)))))))
                      (zip_with (fun g u => Qltb u (2 * g)) l0 (uniform draws))
                    else
                      map (one_hot_row (Z.of_nat (shape1 logits)))
                        (map (fun r => Z.of_nat (argmax_row xltb r))
                          (masked_fill_neginf (noisy_logits draws logits policy)
                            (map (one_hot_row (Z.of_nat (shape1 logits)))
                              (map (fun r => Z.of_nat (argmax_row Qltb r))
                                (map softmax (rows logits)))))))).
  { unfold padded, noisy_logits.
    destruct input_mask as [im|]; [destruct (any im)|];
      injection E0 as <- <-; split; reflexivity. }
  destruct Hpad as [Hp1 Hp2]. clear E0.
  assert (Hloc : l3 = (if bpr
                       then bpr_locations l1
                              (importance_order (map softmax (rows logits)))
                              (argsort Nat.leb O
                                 (importance_order (map softmax (rows logits))))
                       else fused_cumsum_sub_one l1) /\
                 l4 = add_row
                        (if bpr
                         then bpr_locations l2
                                (importance_order (map softmax (rows logits)))
                                (argsort Nat.leb O
                                   (importance_order (map softmax (rows logits))))
                         else fused_cumsum_sub_one l2)
                        (sum_dim0_z (shape1 logits) l1)).
  { unfold bpr_locations, importance_order.
    destruct bpr; injection E1 as <- <-; split; reflexivity. }
  destruct Hloc as [Hl3 Hl4]. clear E1.
  assert (Hg : (l5, l6) =
               (if normalize
                then normalized (eps_of logits use_fp32)
                       (sum_dim1_q (mul_qz (map softmax (rows logits))
                          (map (one_hot_row (Z.of_nat (shape1 logits)))
                            (map (fun r => Z.of_nat (argmax_row Qltb r))
                              (map softmax (rows logits))))))
                       (sum_dim1_q (mul_qz (map softmax (rows logits))
                          (map (one_hot_row (Z.of_nat (shape1 logits)))
                            (map (fun r => Z.of_nat (argmax_row xltb r))
                              (masked_fill_neginf
                                (noisy_logits draws logits policy)
                                (map (one_hot_row (Z.of_nat (shape1 logits)))
                                  (map (fun r => Z.of_nat (argmax_row Qltb r))
                                    (map softmax (rows logits)))))))))
                else normalized (eps_of logits use_fp32)
                       (sum_dim1_q (mul_qz (map softmax (rows logits))
                          (mul_zb l1 (lt_scalar l3 C))))
                       (sum_dim1_q (mul_qz (map softmax (rows logits))
                          (mul_zb l2 (lt_scalar l4 C)))))).
  { unfold normalized, noisy_logits.
    destruct normalize; cbn [negb] in E2; rewrite <- E2; [rewrite <- E|];
      reflexivity. }
  assert (Hl0 : length l0 =
            Nat.min (length (map softmax (rows logits)))
              (length (map (one_hot_row (Z.of_nat (shape1 logits)))
                (map (fun r => Z.of_nat (argmax_row xltb r))
                  (masked_fill_neginf (noisy_logits draws logits policy)
                    (map (one_hot_row (Z.of_nat (shape1 logits)))
                      (map (fun r => Z.of_nat (argmax_row Qltb r))
                        (map softmax (rows logits))))))))).
  { unfold noisy_logits.
    destruct normalize; injection E as <- <-;
      unfold sum_dim1_q, mul_qz, clamp_min;
      repeat rewrite ?zip_with_length, ?length_map; lia. }
  clear E E2. unfold shape0. rewrite length_map in HCap.
  repeat split; auto.
  rewrite zip_with_length, Hl0. reflexivity.
Qed.

(** ** Selection masks *)

Lemma selection_hot n idx :
  selection n (map (one_hot_row (Z.of_nat n)) idx).
Proof.
  repeat split.
  - rewrite <- (Nat2Z.id n) at 1. apply hot_rect.
  - apply hot_binary.
  - apply hot_one_per_row.
Qed.

Lemma selection_padded n im m : selection n m -> selection n (padded im m).
Proof.
  intros (H1 & H2 & H3).
  repeat split; auto using padded_rect, padded_binary, padded_one_per_row.
Qed.

Lemma selection_keep_rows n m b : selection n m -> selection n (keep_rows m b).
Proof.
  intros (H1 & H2 & H3). unfold keep_rows. repeat split.
  - apply (scale_rect bool b2z); auto.
  - apply (scale_binary bool b2z); auto using bit_b2z.
  - apply (scale_one_per_row bool b2z); auto using bit_b2z.
Qed.

Lemma selection_cut n m loc C :
  selection n m -> rect n loc ->
  selection n (mul_zb m (lt_scalar loc C)).
Proof.
  intros (H1 & H2 & H3) Hl. repeat split.
  - apply mul_zb_rect; auto using lt_scalar_rect.
  - now apply mul_zb_binary.
  - now apply mul_zb_one_per_row.
Qed.

Lemma lt_scalar_length m C : length (lt_scalar m C) = length m.
Proof. apply length_map. Qed.

Lemma padded_length im m :
  (forall v, im = Some v -> length v = length m) ->
  length (padded im m) = length m.
Proof.
  intros H. destruct im as [v|]; cbn; auto. destruct (any v); auto.
  unfold scale_rows_z, nonpadding_of.
  rewrite zip_with_length, length_map, (H v eq_refl). apply Nat.min_id.
Qed.

Lemma nonzero_count_bits r :
  Forall bit r -> Z.of_nat (nonzero_count r) = sumZ r.
Proof.
  unfold nonzero_count.
  induction 1 as [|x r Hx Hr IH]; [reflexivity|].
  rewrite sumZ_cons. cbn [filter]. destruct Hx; subst; cbn [Z.eqb negb length]; lia.
Qed.

Lemma selection_row n m s :
  selection n m -> (nonzero_count (nth s m []) <= 1)%nat.
Proof.
  intros (_ & Hb & Ho).
  destruct (Nat.lt_ge_cases s (length m)) as [Hs|Hs].
  - pose proof (proj1 (Forall_forall _ _) Hb _ (nth_In m [] Hs)) as Hr.
    pose proof (proj1 (Forall_forall _ _) Ho _ (nth_In m [] Hs)) as Hsum.
    cbv beta in Hsum. pose proof (nonzero_count_bits _ Hr). lia.
  - rewrite nth_overflow by lia. cbn. lia.
Qed.

(** ** Facts about the frames *)

Lemma top1_frame_selection softmax logits input_mask use_fp32 capacity_factor
  eval_mode fraction use_xmoe f :
  top1gating softmax false logits input_mask use_fp32 capacity_factor
             eval_mode fraction use_xmoe = Ok (Top1Dense f) ->
  selection (shape1 logits) (t1_mask1_sel f) /\
  selection (shape1 logits) (t1_mask1 f) /\
  rect (shape1 logits) (t1_locations1 f) /\
  length (t1_locations1 f) = length (t1_mask1 f).
Proof.
  intros H. apply top1gating_dense_inv in H. cbv zeta in H.
  destruct H as (_ & _ & _ & _ & _ & _ & Hsel & _ & Hloc & Hm1 & _).
  assert (Hs : selection (shape1 logits) (t1_mask1_sel f))
    by (rewrite Hsel; apply selection_padded, selection_hot).
  assert (Hr : rect (shape1 logits) (t1_locations1 f))
    by (rewrite Hloc; apply fused_cumsum_rect, Hs).
  repeat split; try apply Hs; auto; rewrite Hm1.
  - apply mul_zb_rect; auto using lt_scalar_rect. apply Hs.
  - apply mul_zb_binary, Hs.
  - apply mul_zb_one_per_row; apply Hs.
  - rewrite mul_zb_length; rewrite ?lt_scalar_length, Hloc, fused_cumsum_length;
      reflexivity.
Qed.

(** ** top1gating: capacity and admission order *)


(** An admitted token was selected, sits below the capacity, and its stored
    slot is its location. *)
Lemma admitted_facts n m loc C s e :
  selection n m -> rect n loc -> length loc = length m ->
  entry (mul_zb m (lt_scalar loc C)) s e = 1%Z ->
  entry m s e = 1%Z /\ (entry loc s e < C)%Z /\
  (s < length m)%nat /\ (e < n)%nat /\
  nth s (sum_dim1_z (mul_zz loc (mul_zb m (lt_scalar loc C)))) 0%Z
  = entry loc s e.
Proof.
  intros Hsel Hl Hlen He.
  destruct (entry_cut m (lt_scalar loc C) s e ltac:(lia)) as [Heq Hlt].
  rewrite He in Heq. symmetry in Heq.
  destruct (rect_entry_range n m s e (proj1 Hsel) ltac:(lia)) as [Hs Hen].
  pose proof (selection_cut n m loc C Hsel Hl) as (_ & Hb & Ho).
  repeat split; auto using lt_scalar_nth.
  apply admitted_slot; auto.
  rewrite mul_zb_length; auto. now rewrite lt_scalar_length.
Qed.

Lemma top1_admission_order softmax logits input_mask use_fp32 capacity_factor
  eval_mode fraction use_xmoe f i j e :
  top1gating softmax false logits input_mask use_fp32 capacity_factor
             eval_mode fraction use_xmoe = Ok (Top1Dense f) ->
  (i < j)%nat ->
  entry (t1_mask1 f) i e = 1%Z -> entry (t1_mask1 f) j e = 1%Z ->
  nth i (t1_locations1_s f) 0%Z = sumZ (firstn i (col 0%Z e (t1_mask1_sel f))) /\
  nth j (t1_locations1_s f) 0%Z = sumZ (firstn j (col 0%Z e (t1_mask1_sel f))) /\
  (nth i (t1_locations1_s f) 0 < nth j (t1_locations1_s f) 0)%Z.
Proof.
  intros H Hij Hi Hj.
  pose proof (top1_frame_selection _ _ _ _ _ _ _ _ _ H)
    as (Hsel & _ & Hlr & Hll).
  apply top1gating_dense_inv in H. cbv zeta in H.
  destruct H as (_ & _ & _ & _ & _ & _ & _ & _ & Hloc & Hm1 & Hls & _).
  rewrite Hm1 in Hi, Hj, Hll.
  assert (Hlen : length (t1_locations1 f) = length (t1_mask1_sel f))
    by (rewrite Hloc; apply fused_cumsum_length).
  destruct (admitted_facts _ _ _ _ _ _ Hsel Hlr Hlen Hi)
    as (Hi1 & _ & Hil & He & Hsi).
  destruct (admitted_facts _ _ _ _ _ _ Hsel Hlr Hlen Hj)
    as (Hj1 & _ & Hjl & _ & Hsj).
  rewrite Hls, Hm1, Hsi, Hsj, Hloc.
  rewrite !(entry_fused (shape1 logits)); auto; try apply Hsel.
  repeat split.
  apply firstn_sum_strict; auto.
  - apply col_bits, Hsel.
  - now rewrite col_nth.
Qed.

(** ** Shapes of a [top2gating] call *)

Lemma base_locations_rect n bpr m order :
  rect n m -> Permutation order (seq 0 (length m)) ->
  rect n (base_locations bpr m order).
Proof.
  intros Hm HP. destruct bpr; unfold base_locations.
  - now apply bpr_locations_rect.
  - now apply fused_cumsum_rect.
Qed.

Lemma base_locations_length bpr m order :
  Permutation order (seq 0 (length m)) ->
  length (base_locations bpr m order) = length m.
Proof.
  intros HP. destruct bpr; unfold base_locations.
  - now apply bpr_locations_length.
  - apply fused_cumsum_length.
Qed.

Lemma base_locations_layout n e bpr m order :
  rect n m -> binary m -> Permutation order (seq 0 (length m)) ->
  slot_layout e m (base_locations bpr m order).
Proof.
  intros Hm Hb HP. destruct bpr; unfold base_locations.
  - now apply (layout_batch_prioritised n).
  - now apply (layout_sequence n).
Qed.



Lemma importance_order_perm gates :
  Permutation (importance_order gates) (seq 0 (length gates)).
Proof.
  unfold importance_order.
  replace (length gates) with (length (map (Qmult (-1)) (max_dim1 gates)))
    by (unfold max_dim1; now rewrite !length_map).
  apply argsort_perm.
Qed.

Lemma keep_rows_length m b :
  length b = length m -> length (keep_rows m b) = length m.
Proof. intros H. unfold keep_rows. rewrite zip_with_length. lia. Qed.

(** What the frame of a well-shaped call looks like. *)
Lemma top2_frame_shape softmax draws logits input_mask use_fp32 policy
  normalize eval_mode fraction bpr f :
  well_shaped draws logits input_mask policy ->
  top2gating softmax false draws logits input_mask use_fp32 policy normalize
             eval_mode fraction bpr = Ok (Top2Dense f) ->
  let E := shape1 logits in
  let order := importance_order (t2_gates f) in
  selection E (t2_mask1_hot f) /\ selection E (t2_mask2_hot f) /\
  selection E (t2_mask1_sel f) /\ selection E (t2_mask2_sel f) /\
  length (t2_gates f) = shape0 logits /\
  length (t2_mask1_hot f) = shape0 logits /\
  length (t2_mask2_hot f) = shape0 logits /\
  length (t2_mask1_sel f) = shape0 logits /\
  length (t2_mask2_sel f) = shape0 logits /\
  t2_locations1 f = base_locations bpr (t2_mask1_sel f) order /\
  t2_locations2 f =
    add_row (base_locations bpr (t2_mask2_sel f) order)
            (sum_dim0_z E (t2_mask1_sel f)).
Proof.
  intros (Hwf & Him & Hsamp & Hrand) H.
  apply top2gating_dense_inv in H. cbv zeta in H.
  destruct H as (sampled & _ & _ & _ & _ & Hg & Hi1 & Hh1 & Hi2 & Hh2 & Hs1 & Hs2
                 & Hsl & Hl1 & Hl2 & _).
  cbv zeta.
  assert (Hlg : length (t2_gates f) = shape0 logits)
    by (rewrite Hg; apply length_map).
  assert (Hlh1 : length (t2_mask1_hot f) = shape0 logits)
    by (now rewrite Hh1, Hi1, !length_map).
  assert (Hln : length (noisy_logits draws logits policy) = shape0 logits).
  { unfold noisy_logits. destruct (String.eqb_spec policy "sampling") as [Hp|Hp];
      auto. unfold add_qq. rewrite zip_with_length.
    destruct (Hsamp Hp) as [-> _]. apply Nat.min_id. }
  assert (Hlh2 : length (t2_mask2_hot f) = shape0 logits).
  { rewrite Hh2, Hi2, !length_map. unfold masked_fill_neginf.
    rewrite zip_with_length, Hln, Hlh1. apply Nat.min_id. }
  assert (S1 : selection (shape1 logits) (t2_mask1_hot f))
    by (rewrite Hh1; apply selection_hot).
  assert (S2 : selection (shape1 logits) (t2_mask2_hot f))
    by (rewrite Hh2; apply selection_hot).
  assert (Hpl1 : length (t2_mask1_sel f) = shape0 logits).
  { rewrite Hs1, padded_length; auto. intros v ->. rewrite Hlh1. now apply Him. }
  assert (Hpl2 : length (t2_mask2_sel f) = shape0 logits).
  { rewrite Hs2.
    assert (Hk : length (if String.eqb policy "random"
                         then keep_rows (t2_mask2_hot f) sampled
                         else t2_mask2_hot f) = shape0 logits).
    { destruct (String.eqb_spec policy "random") as [Hp|Hp]; auto.
      rewrite keep_rows_length; auto.
      rewrite Hsl, Hlg, Hlh2, (Hrand Hp). now rewrite !Nat.min_id. }
    rewrite padded_length; auto. intros v ->. rewrite Hk. now apply Him. }
  assert (S3 : selection (shape1 logits) (t2_mask1_sel f))
    by (rewrite Hs1; apply selection_padded, S1).
  assert (S4 : selection (shape1 logits) (t2_mask2_sel f)).
  { rewrite Hs2. apply selection_padded.
    destruct (String.eqb policy "random"); [apply selection_keep_rows|];
      apply S2. }
  repeat split; try apply S1; try apply S2; try apply S3; try apply S4; auto.
Qed.

(** ** top2gating: capacity, admission order and slots *)



Lemma top2_admission_order softmax draws logits input_mask use_fp32 policy
  normalize eval_mode fraction f i j e :
  top2gating softmax false draws logits input_mask use_fp32 policy normalize
             eval_mode fraction false = Ok (Top2Dense f) ->
  (i < j)%nat ->
  entry (t2_mask1 f) i e = 1%Z -> entry (t2_mask1 f) j e = 1%Z ->
  nth i (t2_locations1_s f) 0%Z = sumZ (firstn i (col 0%Z e (t2_mask1_sel f))) /\
  nth j (t2_locations1_s f) 0%Z = sumZ (firstn j (col 0%Z e (t2_mask1_sel f))) /\
  (nth i (t2_locations1_s f) 0 < nth j (t2_locations1_s f) 0)%Z.
Proof.
  intros H Hij Hi Hj.
  apply top2gating_dense_inv in H. cbv zeta in H.
  destruct H as (_ & _ & _ & _ & _ & _ & _ & Hh1 & _ & _ & Hs1 & _ & _ & Hloc
                 & _ & Hm1 & _ & _ & Hls & _).
  assert (Hsel : selection (shape1 logits) (t2_mask1_sel f))
    by (rewrite Hs1, Hh1; apply selection_padded, selection_hot).
  assert (Hlr : rect (shape1 logits) (t2_locations1 f))
    by (rewrite Hloc; apply fused_cumsum_rect, Hsel).
  assert (Hlen : length (t2_locations1 f) = length (t2_mask1_sel f))
    by (rewrite Hloc; apply fused_cumsum_length).
  rewrite Hm1 in Hi, Hj.
  destruct (admitted_facts _ _ _ _ _ _ Hsel Hlr Hlen Hi)
    as (Hi1 & _ & Hil & He & Hsi).
  destruct (admitted_facts _ _ _ _ _ _ Hsel Hlr Hlen Hj)
    as (Hj1 & _ & Hjl & _ & Hsj).
  rewrite Hls, Hm1, Hsi, Hsj, Hloc.
  rewrite !(entry_fused (shape1 logits)); auto; try apply Hsel.
  repeat split.
  apply firstn_sum_strict; auto.
  - apply col_bits, Hsel.
  - now rewrite col_nth.
Qed.

Lemma top2_slots softmax draws logits input_mask use_fp32 policy
  normalize eval_mode fraction bpr f e :
  well_shaped draws logits input_mask policy ->
  top2gating softmax false draws logits input_mask use_fp32 policy normalize
             eval_mode fraction bpr = Ok (Top2Dense f) ->
  let n1 := sumZ (col 0%Z e (t2_mask1_sel f)) in
  (forall s, admitted f First s e -> (0 <= slot f First s < n1)%Z) /\
  (forall s, admitted f Second s e -> (n1 <= slot f Second s)%Z) /\
  (forall r s, admitted f r s e -> (0 <= slot f r s < t2_capacity f)%Z) /\
  (forall r s s', s <> s' -> admitted f r s e -> admitted f r s' e ->
                  slot f r s <> slot f r s').
Proof.
  intros Hws H.
  pose proof (top2_frame_shape _ _ _ _ _ _ _ _ _ _ _ Hws H) as Hsh.
  cbv zeta in Hsh.
  destruct Hsh as (_ & _ & S1 & S2 & Hlg & _ & _ & Hl1 & Hl2 & Hloc1 & Hloc2).
  apply top2gating_dense_inv in H. cbv zeta in H.
  destruct H as (_ & _ & HC & _ & _ & _ & _ & _ & _ & _ & _ & _ & _ & _ & _
                 & Hm1 & Hm2 & _ & Hls1 & Hls2 & _).
  pose proof (importance_order_perm (t2_gates f)) as HP. rewrite Hlg in HP.
  set (order := importance_order (t2_gates f)) in *.
  assert (HP1 : Permutation order (seq 0 (length (t2_mask1_sel f))))
    by now rewrite Hl1.
  assert (HP2 : Permutation order (seq 0 (length (t2_mask2_sel f))))
    by now rewrite Hl2.
  set (E := shape1 logits) in *.
  set (L2 := base_locations bpr (t2_mask2_sel f) order) in *.
  assert (Rl1 : rect E (t2_locations1 f))
    by (rewrite Hloc1; apply base_locations_rect; auto; apply S1).
  assert (RL2 : rect E L2)
    by (apply base_locations_rect; auto; apply S2).
  assert (Hn1 : length (sum_dim0_z E (t2_mask1_sel f)) = E)
    by (apply sum_dim0_z_length, S1).
  assert (Rl2 : rect E (t2_locations2 f))
    by (rewrite Hloc2; now apply add_row_rect).
  assert (Ll1 : length (t2_locations1 f) = length (t2_mask1_sel f))
    by (rewrite Hloc1; now apply base_locations_length).
  assert (LL2 : length L2 = length (t2_mask2_sel f))
    by now apply base_locations_length.
  assert (Ll2 : length (t2_locations2 f) = length (t2_mask2_sel f))
    by (rewrite Hloc2; unfold add_row; now rewrite length_map).
  assert (Lay1 : slot_layout e (t2_mask1_sel f) (t2_locations1 f))
    by (rewrite Hloc1; apply (base_locations_layout E); auto; apply S1).
  assert (Lay2 : slot_layout e (t2_mask2_sel f) L2)
    by (apply (base_locations_layout E); auto; apply S2).
  assert (F1 : forall s, admitted f First s e ->
             entry (t2_mask1_sel f) s e = 1%Z /\
             (entry (t2_locations1 f) s e < t2_capacity f)%Z /\
             slot f First s = entry (t2_locations1 f) s e).
  { intros s Hs. unfold admitted in Hs. unfold slot.
    rewrite Hm1 in Hs. rewrite Hls1, Hm1.
    destruct (admitted_facts _ _ _ _ _ _ S1 Rl1 Ll1 Hs) as (? & ? & _ & _ & ?).
    auto. }
  assert (F2 : forall s, admitted f Second s e ->
             entry (t2_mask2_sel f) s e = 1%Z /\
             (entry (t2_locations2 f) s e < t2_capacity f)%Z /\
             slot f Second s = entry (t2_locations2 f) s e /\
             entry (t2_locations2 f) s e
             = (entry L2 s e + sumZ (col 0 e (t2_mask1_sel f)))%Z).
  { intros s Hs. unfold admitted in Hs. unfold slot.
    rewrite Hm2 in Hs. rewrite Hls2, Hm2.
    destruct (admitted_facts _ _ _ _ _ _ S2 Rl2 Ll2 Hs)
      as (? & ? & Hlen & He & ?).
    repeat split; auto.
    rewrite Hloc2, (entry_add_row E); auto; try lia.
    rewrite (sum_dim0_z_nth E); auto. apply S1. }
  cbv zeta. repeat split.
  - destruct (F1 s H) as (Hs & _ & ->).
    pose proof (layout_range _ _ _ _ Lay1 Hs). lia.
  - destruct (F1 s H) as (Hs & _ & ->).
    pose proof (layout_range _ _ _ _ Lay1 Hs). lia.
  - intros s Hs. destruct (F2 s Hs) as (Hsel & _ & -> & ->).
    pose proof (layout_range _ _ _ _ Lay2 Hsel). lia.
  - destruct r.
    + destruct (F1 s H) as (Hs & _ & ->).
      pose proof (layout_range _ _ _ _ Lay1 Hs). lia.
    + destruct (F2 s H) as (Hsel & _ & -> & ->).
      pose proof (layout_range _ _ _ _ Lay2 Hsel).
      pose proof (sumZ_bits_nonneg _ (col_bits e _ (proj1 (proj2 S1)))). lia.
  - destruct r.
    + destruct (F1 s H) as (_ & ? & ->). lia.
    + destruct (F2 s H) as (_ & ? & -> & _). lia.
  - intros r s s' Hne Hs Hs'. destruct r.
    + destruct (F1 s Hs) as (Hsel & _ & ->).
      destruct (F1 s' Hs') as (Hsel' & _ & ->).
      now apply (layout_distinct e (t2_mask1_sel f)).
    + destruct (F2 s Hs) as (Hsel & _ & -> & ->).
      destruct (F2 s' Hs') as (Hsel' & _ & -> & ->).
      pose proof (layout_distinct e _ _ s s' Lay2 Hne Hsel Hsel'). lia.
Qed.

(** * Properties of the routing specification *)


Lemma well_shaped_3x3 : well_shaped no_draws logits_3x3 None "none".
Proof.
  repeat split; try discriminate. repeat constructor.
Defined.


(** C5 (admission order, sequence mode).  With batch-prioritised routing
    off, in either router: when token [i] precedes token [j] and both are
    admitted to the same expert [e] as their first choice, the slot stored
    for each is the exclusive prefix sum of column [e] of the selection mask
    in token order, and the slot of [i] is strictly below the slot of [j]. *)
Theorem sequence_admission_order (softmax : list Q -> list Q) :
  (forall logits input_mask use_fp32 capacity_factor eval_mode fraction
          use_xmoe f i j e,
     top1gating softmax false logits input_mask use_fp32 capacity_factor
                eval_mode fraction use_xmoe = Ok (Top1Dense f) ->
     (i < j)%nat ->
     entry (t1_mask1 f) i e = 1%Z -> entry (t1_mask1 f) j e = 1%Z ->
     nth i (t1_locations1_s f) 0%Z
       = sumZ (firstn i (col 0%Z e (t1_mask1_sel f))) /\
     nth j (t1_locations1_s f) 0%Z
       = sumZ (firstn j (col 0%Z e (t1_mask1_sel f))) /\
     (nth i (t1_locations1_s f) 0 < nth j (t1_locations1_s f) 0)%Z) /\
  (forall draws logits input_mask use_fp32 policy normalize eval_mode fraction
          f i j e,
     top2gating softmax false draws logits input_mask use_fp32 policy normalize
                eval_mode fraction false = Ok (Top2Dense f) ->
     (i < j)%nat ->
     entry (t2_mask1 f) i e = 1%Z -> entry (t2_mask1 f) j e = 1%Z ->
     nth i (t2_locations1_s f) 0%Z
       = sumZ (firstn i (col 0%Z e (t2_mask1_sel f))) /\
     nth j (t2_locations1_s f) 0%Z
       = sumZ (firstn j (col 0%Z e (t2_mask1_sel f))) /\
     (nth i (t2_locations1_s f) 0 < nth j (t2_locations1_s f) 0)%Z).
Proof.
  split; intros.
  - eapply top1_admission_order; eauto.
  - eapply top2_admission_order; eauto.
Qed.

Lemma sequence_admission_order_witness :
  (exists f,
     top1gating linear_gate false logits_4x2 None false 1 false (1 # 4) false
     = Ok (Top1Dense f) /\
     nth 0 (t1_locations1_s f) 0%Z = 0%Z /\
     nth 1 (t1_locations1_s f) 0%Z = 1%Z /\
     (nth 0 (t1_locations1_s f) 0 < nth 1 (t1_locations1_s f) 0)%Z) /\
  (exists f,
     top2gating linear_gate false no_draws logits_3x3 None false "none" false
                false (1 # 4) false
     = Ok (Top2Dense f) /\
     nth 1 (t2_locations1_s f) 0%Z = 0%Z /\
     nth 2 (t2_locations1_s f) 0%Z = 1%Z /\
     (nth 1 (t2_locations1_s f) 0 < nth 2 (t2_locations1_s f) 0)%Z).
Proof.
  split.
  - eexists. split; [vm_compute; reflexivity|].
    match goal with
    | |- context [t1_locations1_s ?F] =>
        exact (proj1 (sequence_admission_order linear_gate) logits_4x2 None
                 false 1 false (1 # 4) false F 0%nat 1%nat 0%nat
                 eq_refl (le_n 1) eq_refl eq_refl)
    end.
  - eexists. split; [vm_compute; reflexivity|].
    match goal with
    | |- context [t2_locations1_s ?F] =>
        exact (proj2 (sequence_admission_order linear_gate) no_draws logits_3x3
                 None false "none"%string false false (1 # 4) F 1%nat 2%nat
                 0%nat eq_refl (le_n 2) eq_refl eq_refl)
    end.
Defined.

Lemma zero_row_entry r e : Forall (fun x => x = 0%Z) r -> nth e r 0%Z = 0%Z.
Proof.
  intros Hr. destruct (Nat.lt_ge_cases e (length r)) as [He|He].
  - apply (proj1 (Forall_forall _ _) Hr). now apply nth_In.
  - now apply nth_overflow.
Qed.

(** C8 (first-choice mask of top-1 routing).  Every row of the first-choice
    selection mask, before and after the capacity cut, has at most one
    nonzero entry, and the row of a token flagged in the padding mask is
    zero throughout. *)
Theorem top1_mask_rows softmax logits input_mask use_fp32 capacity_factor
  eval_mode fraction use_xmoe f :
  top1gating softmax false logits input_mask use_fp32 capacity_factor
             eval_mode fraction use_xmoe = Ok (Top1Dense f) ->
  (forall s, (nonzero_count (nth s (t1_mask1_sel f) []) <= 1)%nat /\
             (nonzero_count (nth s (t1_mask1 f) []) <= 1)%nat) /\
  (forall im s e, input_mask = Some im -> nth s im false = true ->
                  entry (t1_mask1_sel f) s e = 0%Z /\
                  entry (t1_mask1 f) s e = 0%Z).
Proof.
  intros H.
  pose proof (top1_frame_selection _ _ _ _ _ _ _ _ _ H) as (S1 & S2 & _).
  apply top1gating_dense_inv in H. cbv zeta in H.
  destruct H as (_ & _ & _ & _ & _ & _ & Hsel & _ & _ & Hm1 & _).
  split.
  - intros s. split; eapply selection_row; eauto.
  - intros im s e -> Hs.
    assert (H0 : entry (t1_mask1_sel f) s e = 0%Z).
    { rewrite Hsel. unfold padded. rewrite (any_nth im s Hs).
      apply zero_row_entry. now apply padded_row_zero. }
    split; auto.
    destruct (Z.eq_dec (entry (t1_mask1 f) s e) 0) as [|Hne]; auto.
    rewrite Hm1 in Hne. apply entry_cut in Hne as [Heq _].
    rewrite Hm1, Heq. exact H0.
Qed.

Lemma top1_mask_rows_witness :
  exists f,
    top1gating linear_gate false logits_4x2 (Some [false; true; false; false])
               false 1 false (1 # 4) false = Ok (Top1Dense f) /\
    (nonzero_count (nth 0 (t1_mask1_sel f) []) <= 1)%nat /\
    entry (t1_mask1_sel f) 1 0 = 0%Z /\ entry (t1_mask1_sel f) 1 1 = 0%Z.
Proof.
  eexists. split; [vm_compute; reflexivity|].
  match goal with
  | |- context [t1_mask1_sel ?F] =>
      pose proof (top1_mask_rows linear_gate logits_4x2
                    (Some [false; true; false; false]) false 1 false (1 # 4)
                    false F eq_refl) as [H1 H2]
  end.
  split; [apply (H1 0%nat)|].
  split; apply (H2 [false; true; false; false] 1%nat); reflexivity.
Defined.

(** C10 (slots of top-2 routing).  In a dense [top2gating] return, two
    distinct admitted (token, choice) assignments to the same expert never
    share a slot: within a choice rank the slots are pairwise distinct, every
    admitted first-choice slot lies below the expert's total first-choice
    count and every admitted second-choice slot at or above it; all admitted
    slots lie in [0, C). *)
Theorem top2_slots_distinct softmax draws logits input_mask use_fp32 policy
  normalize eval_mode fraction bpr f e :
  well_shaped draws logits input_mask policy ->
  top2gating softmax false draws logits input_mask use_fp32 policy normalize
             eval_mode fraction bpr = Ok (Top2Dense f) ->
  (forall r s r' s', (r, s) <> (r', s') ->
     admitted f r s e -> admitted f r' s' e -> slot f r s <> slot f r' s') /\
  (forall s s', admitted f First s e -> admitted f Second s' e ->
     (slot f First s < sumZ (col 0%Z e (t2_mask1_sel f)) <= slot f Second s')%Z) /\
  (forall r s, admitted f r s e -> (0 <= slot f r s < t2_capacity f)%Z).
Proof.
  intros Hws H.
  pose proof (top2_slots _ _ _ _ _ _ _ _ _ _ _ e Hws H) as Hs.
  cbv zeta in Hs. destruct Hs as (H1 & H2 & H3 & H4).
  assert (Hx : forall s s', admitted f First s e -> admitted f Second s' e ->
     (slot f First s < sumZ (col 0%Z e (t2_mask1_sel f)) <= slot f Second s')%Z).
  { intros s s' Ha Hb. specialize (H1 s Ha). specialize (H2 s' Hb). lia. }
  split; [|split; assumption].
  intros r s r' s' Hne Ha Hb.
  destruct r, r'.
  - apply H4; auto; congruence.
  - specialize (Hx s s' Ha Hb). lia.
  - specialize (Hx s' s Hb Ha). lia.
  - apply H4; auto; congruence.
Qed.

Lemma top2_slots_distinct_witness :
  exists f,
    top2gating linear_gate false no_draws logits_3x3 None false "none" false
               false (1 # 4) true = Ok (Top2Dense f) /\
    slot f First 1 <> slot f First 2 /\
    slot f First 0 <> slot f Second 2 /\
    (slot f First 0 < 1 <= slot f Second 2)%Z.
Proof.
  eexists. split; [vm_compute; reflexivity|].
  match goal with
  | |- context [slot ?F] =>
      pose proof (top2_slots_distinct linear_gate no_draws logits_3x3 None
                    false "none"%string false false (1 # 4) true F 0%nat
                    well_shaped_3x3 eq_refl) as (H0 & _);
      pose proof (top2_slots_distinct linear_gate no_draws logits_3x3 None
                    false "none"%string false false (1 # 4) true F 1%nat
                    well_shaped_3x3 eq_refl) as (H1 & H2 & _)
  end.
  split; [|split].
  - apply (H0 First 1%nat First 2%nat); [discriminate|reflexivity|reflexivity].
  - apply (H1 First 0%nat Second 2%nat); [discriminate|reflexivity|reflexivity].
  - apply (H2 0%nat 2%nat); reflexivity.
Defined.

(** ** Determinism *)




(** With the "sampling" policy the draws do decide the second choice. *)
Example sampling_reads_draws :
  top2gating linear_gate false
             (mkDraws [[0; 0; 9]; [0; 0; 0]; [0; 0; 0]] []) logits_3x3 None
             false "sampling" false false (1 # 4) false
  <> top2gating linear_gate false
                (mkDraws [[0; 0; 0]; [0; 0; 0]; [0; 0; 0]] []) logits_3x3 None
                false "sampling" false false (1 # 4) false.
Proof. vm_compute. discriminate. Qed.

(** ** Capacity *)

Lemma Qceiling_nat_div a b :
  (0 < b)%nat -> Qceiling (Qnat a / Qnat b) = ceil_div a b.
Proof.
  intros Hb. unfold Qceiling, ceil_div, Qnat.
  assert (Heq : - (inject_Z (Z.of_nat a) / inject_Z (Z.of_nat b))
                == inject_Z (- Z.of_nat a) / inject_Z (Z.of_nat b)).
  { rewrite inject_Z_opp. field. unfold Qeq; cbn. lia. }
  rewrite Heq, <- Zdiv_Qdiv.
  apply Z.div_unique with (r := (Z.of_nat b - 1 - (- Z.of_nat a) mod Z.of_nat b)%Z).
  - left. pose proof (Z.mod_pos_bound (- Z.of_nat a) (Z.of_nat b) ltac:(lia)). lia.
  - pose proof (Z.div_mod (- Z.of_nat a) (Z.of_nat b) ltac:(lia)). lia.
Qed.

Lemma py_int_floor x : 0 <= x -> py_int x = Qfloor x.
Proof.
  intros Hx. unfold py_int, Qfloor. destruct x as [n d].
  apply Z.quot_div_nonneg; [|lia].
  unfold Qle in Hx; cbn in *. lia.
Qed.


Lemma top1_capacity_value S E capacity_factor eval_mode fraction :
  (0 < E)%nat ->
  top1_capacity S E capacity_factor eval_mode fraction
  = Ok (truncated_top1_capacity S E capacity_factor eval_mode fraction).
Proof.
  intros HE. unfold top1_capacity, truncated_top1_capacity.
  rewrite andb_comm. destruct (eval_mode && Qltb 0 fraction); auto.
  destruct E as [|E]; [lia|]. cbn [py_truediv bind].
  fold (Qnat S) (Qnat (Datatypes.S E)). now rewrite Qceiling_nat_div by lia.
Qed.

Lemma top2_capacity_value S E eval_mode fraction :
  (0 < E)%nat ->
  top2_capacity S E eval_mode fraction
  = Ok (claimed_top2_capacity S E eval_mode fraction).
Proof.
  intros HE. unfold top2_capacity, claimed_top2_capacity.
  rewrite andb_comm. destruct (eval_mode && Qltb 0 fraction); auto.
  destruct E as [|E]; [lia|]. cbn [py_truediv bind].
  fold (Qnat S) (Qnat (Datatypes.S E)). now rewrite Qceiling_nat_div by lia.
Qed.






(** ** Zero capacity *)


Lemma one_hot_zero_classes idx :
  idx <> [] -> one_hot idx 0 = Raise RuntimeError.
Proof.
  destruct idx as [|i idx]; [congruence|]. intros _. unfold one_hot.
  cbn [Z.ltb Z.compare forallb]. unfold in_range at 1.
  destruct (0 <=? i)%Z eqn:H1, (i <? 0)%Z eqn:H2; cbn; auto.
  apply Z.leb_le in H1. apply Z.ltb_lt in H2. lia.
Qed.




(** ** Second choice *)

Lemma xltb_fin best x : xltb best x = true -> exists q, x = Fin q.
Proof. destruct best, x; cbn; try discriminate; eauto. Qed.

Lemma argmax_from_spec r : forall best bi i,
  let k := argmax_from xltb best bi i r in
  (k = bi /\ Forall (fun x => xltb best x = false) r) \/
  ((i <= k < i + length r)%nat /\ exists q, nth (k - i) r NegInf = Fin q).
Proof.
  induction r as [|x r IH]; intros best bi i; cbn zeta; cbn [argmax_from].
  - left. split; auto.
  - destruct (xltb best x) eqn:Hx.
    + right. destruct (xltb_fin _ _ Hx) as [q ->].
      destruct (IH (Fin q) i (S i)) as [[Hk _]|[Hk [q' Hq']]].
      * rewrite Hk. split; [cbn [length]; lia|].
        rewrite Nat.sub_diag. cbn. eauto.
      * split; [cbn [length]; lia|].
        replace (argmax_from xltb (Fin q) i (S i) r - i)%nat
          with (S (argmax_from xltb (Fin q) i (S i) r - S i)) by lia.
        cbn [nth]. eauto.
    + destruct (IH best bi (S i)) as [[Hk Hall]|[Hk [q' Hq']]].
      * left. split; auto.
      * right. split; [cbn [length]; lia|].
        replace (argmax_from xltb best bi (S i) r - i)%nat
          with (S (argmax_from xltb best bi (S i) r - S i)) by lia.
        cbn [nth]. eauto.
Qed.

(** The arg-max of a row that holds a finite entry is a finite entry. *)
Lemma argmax_row_fin r j q :
  nth j r NegInf = Fin q ->
  exists q', nth (argmax_row xltb r) r NegInf = Fin q'.
Proof.
  destruct r as [|x r]; [destruct j; discriminate|]. intros Hj.
  unfold argmax_row.
  destruct (argmax_from_spec r x 0%nat 1%nat) as [[Hk Hall]|[Hk [q' Hq']]].
  - rewrite Hk. cbn [nth]. destruct x as [|qx]; eauto.
    exfalso. destruct j as [|j]; [discriminate|]. cbn [nth] in Hj.
    destruct (Nat.lt_ge_cases j (length r)) as [Hlt|Hge].
    + rewrite Forall_forall in Hall. specialize (Hall _ (nth_In r NegInf Hlt)).
      rewrite Hj in Hall. discriminate.
    + rewrite nth_overflow in Hj by lia. discriminate.
  - replace (argmax_from xltb x 0 1 r) with (S (argmax_from xltb x 0 1 r - 1))
      by lia.
    cbn [nth]. eauto.
Qed.

Lemma one_hot_row_nth n i e :
  (e < Z.to_nat n)%nat ->
  nth e (one_hot_row n i) 0%Z = if (Z.of_nat e =? i)%Z then 1%Z else 0%Z.
Proof.
  intros He. unfold one_hot_row.
  rewrite (nth_map_in _ _ _ O) by now rewrite length_seq.
  now rewrite seq_nth.
Qed.

Lemma one_hot_row_nonzero n i e :
  nth e (one_hot_row n i) 0%Z <> 0%Z -> Z.of_nat e = i.
Proof.
  intros H. destruct (Nat.lt_ge_cases e (Z.to_nat n)) as [He|He].
  - rewrite one_hot_row_nth in H by assumption.
    destruct (Z.of_nat e =? i)%Z eqn:E; [now apply Z.eqb_eq|congruence].
  - rewrite nth_overflow in H by (rewrite one_hot_row_length; lia). congruence.
Qed.

(** After the first choice is filled with -inf, the arg-max of a row of at
    least two logits is another expert. *)
Lemma second_choice_differs E lw i1 :
  (2 <= E)%nat -> length lw = E -> (0 <= i1 < Z.of_nat E)%Z ->
  Z.of_nat (argmax_row xltb
    (zip_with (fun v m => if (m =? 0)%Z then Fin v else NegInf) lw
              (one_hot_row (Z.of_nat E) i1))) <> i1.
Proof.
  intros HE Hlw Hi1.
  set (row := zip_with _ lw _).
  assert (Hlen : length row = E).
  { unfold row. rewrite zip_with_length, one_hot_row_length, Nat2Z.id. lia. }
  assert (Hnth : forall e, (e < E)%nat ->
            nth e row NegInf
            = if (Z.of_nat e =? i1)%Z then NegInf else Fin (nth e lw 0)).
  { intros e He. unfold row.
    rewrite (zip_with_nth _ _ _ _ 0 0%Z)
      by (rewrite ?one_hot_row_length, ?Nat2Z.id; lia).
    rewrite one_hot_row_nth by (rewrite Nat2Z.id; lia).
    destruct (Z.of_nat e =? i1)%Z; reflexivity. }
  set (j := if (i1 =? 0)%Z then 1%nat else 0%nat).
  assert (Hj : nth j row NegInf = Fin (nth j lw 0)).
  { assert (Hjr : (j < E)%nat) by (unfold j; destruct (i1 =? 0)%Z; lia).
    rewrite Hnth by assumption.
    destruct (Z.of_nat j =? i1)%Z eqn:Ej; auto.
    apply Z.eqb_eq in Ej. unfold j in Ej.
    destruct (i1 =? 0)%Z eqn:E0; [apply Z.eqb_eq in E0|apply Z.eqb_neq in E0];
      cbn in Ej; lia. }
  destruct (argmax_row_fin row j _ Hj) as [q' Hq'].
  intros Heq.
  destruct (Nat.lt_ge_cases (argmax_row xltb row) E) as [Hk|Hk].
  - rewrite Hnth in Hq' by assumption.
    apply Z.eqb_eq in Heq. rewrite Heq in Hq'. discriminate.
  - rewrite nth_overflow in Hq' by lia. discriminate.
Qed.

Lemma entry_scale_nonzero {B : Type} (c : B -> Z) m : forall v s e,
  entry (zip_with (fun r x => map (fun y => (y * c x)%Z) r) m v) s e <> 0%Z ->
  entry m s e <> 0%Z.
Proof.
  unfold entry.
  induction m as [|r m IH]; intros [|x v] [|s] e; cbn [zip_with nth];
    try (destruct e; cbn; congruence).
  - intros H Hz. apply H.
    destruct (Nat.lt_ge_cases e (length r)) as [He|He].
    + rewrite (nth_map_in _ _ _ 0%Z) by assumption. rewrite Hz. reflexivity.
    + apply nth_overflow. now rewrite length_map.
  - apply IH.
Qed.

Lemma entry_padded_nonzero im m s e :
  entry (padded im m) s e <> 0%Z -> entry m s e <> 0%Z.
Proof.
  unfold padded. destruct im as [v|]; auto. destruct (any v); auto.
  rewrite scale_rows_z_nonpadding. apply entry_scale_nonzero.
Qed.

Lemma entry_cut_nonzero m b s e :
  entry (mul_zb m b) s e <> 0%Z -> entry m s e <> 0%Z.
Proof. intros H. destruct (entry_cut m b s e H) as [<- _]. exact H. Qed.

Lemma entry_hot n idx s e :
  entry (map (one_hot_row n) idx) s e <> 0%Z ->
  (s < length idx)%nat /\ Z.of_nat e = nth s idx 0%Z.
Proof.
  intros H. destruct (entry_range _ _ _ H) as [Hs _].
  rewrite length_map in Hs. split; auto.
  unfold entry in H. rewrite (nth_map_in _ _ _ 0%Z) in H by assumption.
  now apply one_hot_row_nonzero in H.
Qed.

Lemma top2_first_choice_range softmax draws logits input_mask use_fp32 policy
  normalize eval_mode fraction bpr f :
  top2gating softmax false draws logits input_mask use_fp32 policy normalize
             eval_mode fraction bpr = Ok (Top2Dense f) ->
  Forall (fun i => (0 <= i < Z.of_nat (shape1 logits))%Z) (t2_indices1_s f).
Proof.
  intros H. pose proof (top2gating_dense_inv _ _ _ _ _ _ _ _ _ _ _ H) as Hinv.
  cbv zeta in Hinv. destruct Hinv as (_ & _ & _ & _ & _ & Hg & Hi1 & _).
  unfold top2gating in H.
  apply bind_ok in H as (C & _ & H).
  apply bind_ok in H as (idx1 & Hidx1 & H).
  apply bind_ok in H as (m1 & Hm1 & _).
  assert (Hrows : rows (if use_fp32 then to_float logits else logits) = rows logits)
    by now destruct use_fp32.
  assert (Hsh : shape1 (if use_fp32 then to_float logits else logits) = shape1 logits)
    by now destruct use_fp32.
  rewrite Hrows, Hsh in *.
  apply argmax_inv in Hidx1 as [_ ->].
  apply one_hot_inv in Hm1 as (_ & _ & Hr).
  now rewrite Hi1, Hg.
Qed.

Lemma noisy_logits_rect draws logits input_mask policy :
  well_shaped draws logits input_mask policy ->
  rect (shape1 logits) (noisy_logits draws logits policy).
Proof.
  intros (Hwf & _ & Hsamp & _). unfold noisy_logits.
  destruct (String.eqb_spec policy "sampling") as [Hp|Hp]; auto.
  apply rect_zip_with; auto. now apply Hsamp.
Qed.

(** C2 (disjoint choices, amended).  For a well-shaped [top2gating] call
    over at least two experts, the first-choice and the second-choice mask
    never both select the same expert for the same token: as one-hot masks,
    after the random and padding steps, and after the capacity cut. *)
Theorem top2_masks_disjoint softmax draws logits input_mask use_fp32 policy
  normalize eval_mode fraction bpr f s e :
  (2 <= shape1 logits)%nat ->
  well_shaped draws logits input_mask policy ->
  top2gating softmax false draws logits input_mask use_fp32 policy normalize
             eval_mode fraction bpr = Ok (Top2Dense f) ->
  ~ (entry (t2_mask1_hot f) s e <> 0%Z /\ entry (t2_mask2_hot f) s e <> 0%Z) /\
  ~ (entry (t2_mask1_sel f) s e <> 0%Z /\ entry (t2_mask2_sel f) s e <> 0%Z) /\
  ~ (entry (t2_mask1 f) s e <> 0%Z /\ entry (t2_mask2 f) s e <> 0%Z).
Proof.
  intros HE Hws H.
  pose proof (top2_first_choice_range _ _ _ _ _ _ _ _ _ _ _ H) as Hr1.
  pose proof (noisy_logits_rect _ _ _ _ Hws) as Hnr.
  apply top2gating_dense_inv in H. cbv zeta in H.
  destruct H as (sampled & _ & _ & _ & _ & Hg & Hi1 & Hh1 & Hi2 & Hh2 & Hs1
                 & Hs2 & _ & _ & _ & Hm1 & Hm2 & _).
  assert (Hhot : ~ (entry (t2_mask1_hot f) s e <> 0%Z
                    /\ entry (t2_mask2_hot f) s e <> 0%Z)).
  { intros [H1 H2]. rewrite Hh1 in H1. rewrite Hh2 in H2.
    apply entry_hot in H1 as [Hs1' He1]. apply entry_hot in H2 as [Hs2' He2].
    rewrite Hi2 in He2, Hs2'. rewrite length_map in Hs2'.
    unfold masked_fill_neginf in He2, Hs2'.
    rewrite zip_with_length in Hs2'.
    rewrite (nth_map_in _ _ _ []) in He2 by (rewrite zip_with_length; lia).
    rewrite (zip_with_nth _ _ _ _ [] [] []) in He2 by lia.
    rewrite Hh1 in He2.
    rewrite (nth_map_in _ _ _ 0%Z) in He2 by assumption.
    rewrite Forall_forall in Hr1.
    pose proof (Hr1 _ (nth_In _ 0%Z Hs1')) as Hrange. cbv beta in Hrange.
    revert He2. rewrite <- He1 in *.
    apply not_eq_sym. apply second_choice_differs; auto.
    apply (rect_in _ _ _ Hnr). apply nth_In. lia. }
  assert (Hsel : ~ (entry (t2_mask1_sel f) s e <> 0%Z
                    /\ entry (t2_mask2_sel f) s e <> 0%Z)).
  { intros [H1 H2]. apply Hhot. rewrite Hs1 in H1. rewrite Hs2 in H2.
    apply entry_padded_nonzero in H1, H2. split; auto.
    destruct (String.eqb policy "random"); auto.
    revert H2. apply (entry_scale_nonzero b2z). }
  repeat split; auto.
  intros [H1 H2]. apply Hsel. rewrite Hm1 in H1. rewrite Hm2 in H2.
  apply entry_cut_nonzero in H1, H2. auto.
Qed.

Lemma top2_masks_disjoint_witness :
  exists f,
    top2gating linear_gate false no_draws logits_3x3 None false "none" false
               false (1 # 4) true = Ok (Top2Dense f) /\
    ~ (entry (t2_mask1_hot f) 0 1 <> 0%Z /\ entry (t2_mask2_hot f) 0 1 <> 0%Z).
Proof.
  eexists. split; [vm_compute; reflexivity|].
  match goal with
  | |- context [t2_mask1_hot ?F] =>
      exact (proj1 (top2_masks_disjoint linear_gate no_draws logits_3x3 None
                      false "none"%string false false (1 # 4) true F 0%nat
                      1%nat (le_S 2 2 (le_n 2)) well_shaped_3x3 eq_refl))
  end.
Defined.

(** With a single expert both masks select expert 0 for the token. *)
Lemma one_expert_counterexample :
  exists f,
    top2gating linear_gate false no_draws (mkTensor float32 1 [[1]]) None false
               "none" false false (1 # 4) false = Ok (Top2Dense f) /\
    entry (t2_mask1_hot f) 0 0 = 1%Z /\ entry (t2_mask2_hot f) 0 0 = 1%Z /\
    entry (t2_mask1 f) 0 0 = 1%Z /\ entry (t2_mask2 f) 0 0 = 1%Z.
Proof. eexists. split; [vm_compute; reflexivity|]. repeat split. Qed.

(** ** Combine weights *)

Lemma sumQ_cons x l : sumQ (x :: l) = x + sumQ l.
Proof. reflexivity. Qed.

Lemma sumQ_scale x l :
  sumQ (map (fun y => x * inject_Z y) l) == x * inject_Z (sumZ l).
Proof.
  induction l as [|y l IH]; cbn [map].
  - cbn. ring.
  - rewrite sumQ_cons, sumZ_cons, IH, inject_Z_plus. ring.
Qed.

Lemma sumQ_plus a : forall b, length a = length b ->
  sumQ (zip_with Qplus a b) == sumQ a + sumQ b.
Proof.
  induction a as [|x a IH]; intros [|y b] Hl; cbn [zip_with]; try discriminate.
  - cbn. ring.
  - rewrite !sumQ_cons, IH by (cbn in Hl; lia). ring.
Qed.

Lemma hot_seq_one i k : forall a,
  (Z.of_nat a <= i < Z.of_nat a + Z.of_nat k)%Z ->
  sumZ (map (fun c => if (Z.of_nat c =? i)%Z then 1%Z else 0%Z) (seq a k)) = 1%Z.
Proof.
  induction k as [|k IH]; intros a Ha; [lia|].
  cbn [seq map]. rewrite sumZ_cons.
  destruct (Z.of_nat a =? i)%Z eqn:E.
  - apply Z.eqb_eq in E. rewrite hot_seq_zero by lia. lia.
  - apply Z.eqb_neq in E. rewrite IH by lia. lia.
Qed.

Lemma one_hot_row_sum_one C i : (0 <= i < C)%Z -> sumZ (one_hot_row C i) = 1%Z.
Proof. intros H. apply hot_seq_one. cbn. lia. Qed.

Lemma zero_row_sum_q mr : (forall e, nth e mr 0%Z = 0%Z) ->
  forall gr, sumQ (zip_with (fun g m => g * inject_Z m) gr mr) == 0.
Proof.
  induction mr as [|x mr IH]; intros H [|y gr]; cbn [zip_with];
    try (cbn; reflexivity).
  rewrite sumQ_cons, IH by (intros e; apply (H (S e))).
  rewrite (H O : x = 0%Z). cbn. ring.
Qed.

Lemma single_bit_row mr e e' :
  Forall bit mr -> (sumZ mr <= 1)%Z -> nth e mr 0%Z = 1%Z -> e' <> e ->
  nth e' mr 0%Z = 0%Z.
Proof.
  intros Hb. revert e e'.
  induction Hb as [|x mr Hx Hm IH]; intros e e' Hs He Hne.
  - destruct e; discriminate.
  - rewrite sumZ_cons in Hs. pose proof (sumZ_bits_nonneg _ Hm).
    destruct e as [|e], e' as [|e']; cbn [nth] in *; try congruence.
    + subst. pose proof (bits_nth_le_sum _ Hm e').
      pose proof (nth_bit mr e' Hm) as [?|?]; lia.
    + pose proof (bits_nth_le_sum _ Hm e). destruct Hx; lia.
    + apply (IH e e'); auto. pose proof (bits_nth_le_sum _ Hm e).
      destruct Hx; lia.
Qed.

(** In a row with a single selection, the masked sum of a gate row reads
    the gate of the selected expert. *)
Lemma masked_row_sum_q mr e :
  Forall bit mr -> (sumZ mr <= 1)%Z -> nth e mr 0%Z = 1%Z ->
  forall gr, sumQ (zip_with (fun g m => g * inject_Z m) gr mr) == nth e gr 0.
Proof.
  intros Hb. revert e. induction Hb as [|x mr Hx Hm IH]; intros e Hs He gr.
  - destruct e; discriminate.
  - rewrite sumZ_cons in Hs. pose proof (sumZ_bits_nonneg _ Hm).
    destruct gr as [|y gr]; [destruct e; reflexivity|].
    cbn [zip_with]. rewrite sumQ_cons. destruct e as [|e]; cbn [nth] in *.
    + subst. rewrite zero_row_sum_q; [cbn; ring|].
      intros e'. pose proof (bits_nth_le_sum _ Hm e').
      pose proof (nth_bit mr e' Hm) as [?|?]; lia.
    + pose proof (bits_nth_le_sum _ Hm e).
      assert (x = 0%Z) by (destruct Hx; lia). subst.
      rewrite (IH e ltac:(lia) He gr). cbn. ring.
Qed.

Lemma sum_dim1_q_nth g m s :
  (s < length g)%nat -> (s < length m)%nat ->
  nth s (sum_dim1_q (mul_qz g m)) 0
  = sumQ (zip_with (fun x y => x * inject_Z y) (nth s g []) (nth s m [])).
Proof.
  intros Hg Hm. unfold sum_dim1_q, mul_qz.
  rewrite (nth_map_in _ _ _ []) by (rewrite zip_with_length; lia).
  f_equal. apply zip_with_nth; auto.
Qed.

(** The weight one routing term gives token [s] at expert [e]. *)
Lemma term_weight g m C loc s e :
  (s < length g)%nat -> (s < length m)%nat -> (s < length loc)%nat ->
  (e < length (nth s m []))%nat -> (0 <= nth s loc 0 < C)%Z ->
  sumQ (nth e (nth s (bmm_outer (scale_rows_q g m) (map (one_hot_row C) loc))
                    []) [])
  == nth s g 0 * inject_Z (entry m s e).
Proof.
  intros Hg Hm Hl He Hr. unfold bmm_outer, scale_rows_q.
  rewrite (zip_with_nth _ _ _ _ [] [] []);
    [|rewrite zip_with_length; lia|rewrite length_map; lia].
  rewrite (zip_with_nth _ _ _ _ 0 [] []) by lia.
  rewrite (nth_map_in _ _ _ 0%Z) by lia.
  rewrite map_map.
  rewrite (nth_map_in _ _ _ 0%Z) by lia.
  rewrite sumQ_scale, one_hot_row_sum_one by assumption.
  unfold entry. cbn. ring.
Qed.

Lemma add3_nth a b s e :
  (s < length a)%nat -> (s < length b)%nat ->
  (e < length (nth s a []))%nat -> (e < length (nth s b []))%nat ->
  nth e (nth s (add3 a b) []) []
  = zip_with Qplus (nth e (nth s a []) []) (nth e (nth s b []) []).
Proof.
  intros Ha Hb Hea Heb. unfold add3.
  rewrite (zip_with_nth _ _ _ _ [] [] []) by lia.
  now rewrite (zip_with_nth _ _ _ _ [] [] []) by lia.
Qed.

Lemma finfo_eps_small d : finfo_eps d <= 1 # 128.
Proof. destruct d; unfold Qle; cbn; lia. Qed.

Lemma clamp_above eps x : eps <= x -> (if Qltb x eps then eps else x) = x.
Proof.
  intros H. unfold Qltb. apply Qle_bool_iff in H. now rewrite H.
Qed.

Lemma normalized_nth eps a b s :
  (s < length a)%nat -> (s < length b)%nat -> eps <= nth s a 0 + nth s b 0 ->
  nth s (fst (normalized eps a b)) 0 = nth s a 0 / (nth s a 0 + nth s b 0) /\
  nth s (snd (normalized eps a b)) 0 = nth s b 0 / (nth s a 0 + nth s b 0).
Proof.
  intros Ha Hb He. unfold normalized. cbn [fst snd].
  assert (Hc : nth s (clamp_min eps (zip_with Qplus a b)) 0
               = nth s a 0 + nth s b 0).
  { unfold clamp_min.
    rewrite (nth_map_in _ _ _ 0) by (rewrite zip_with_length; lia).
    rewrite (zip_with_nth _ _ _ _ 0 0) by lia. now apply clamp_above. }
  split; rewrite (zip_with_nth _ _ _ _ 0 0), Hc;
    unfold clamp_min; rewrite ?length_map, ?zip_with_length; auto; lia.
Qed.

Lemma normalized_length eps a b :
  length a = length b ->
  length (fst (normalized eps a b)) = length a /\
  length (snd (normalized eps a b)) = length a.
Proof.
  intros H. unfold normalized, clamp_min. cbn [fst snd].
  rewrite !zip_with_length, !length_map, !zip_with_length. lia.
Qed.

Lemma top2_frame_lengths softmax draws logits input_mask use_fp32 policy
  normalize eval_mode fraction bpr f :
  well_shaped draws logits input_mask policy ->
  top2gating softmax false draws logits input_mask use_fp32 policy normalize
             eval_mode fraction bpr = Ok (Top2Dense f) ->
  let S := shape0 logits in
  length (t2_mask1 f) = S /\ length (t2_mask2 f) = S /\
  length (t2_gates1_s f) = S /\ length (t2_gates2_s f) = S /\
  length (t2_locations1_s f) = S /\ length (t2_locations2_s f) = S /\
  selection (shape1 logits) (t2_mask1 f) /\
  selection (shape1 logits) (t2_mask2 f).
Proof.
  intros Hws H.
  pose proof (top2_frame_shape _ _ _ _ _ _ _ _ _ _ _ Hws H) as Hsh.
  cbv zeta in Hsh.
  destruct Hsh as (_ & _ & S1 & S2 & Hlg & Hlh1 & Hlh2 & Hl1 & Hl2 & Hloc1
                   & Hloc2).
  apply top2gating_dense_inv in H. cbv zeta in H.
  destruct H as (_ & _ & _ & _ & _ & _ & _ & _ & _ & _ & _ & _ & _ & _ & _
                 & Hm1 & Hm2 & Hgp & Hls1 & Hls2 & _).
  pose proof (importance_order_perm (t2_gates f)) as HP. rewrite Hlg in HP.
  set (order := importance_order (t2_gates f)) in *.
  assert (HP1 : Permutation order (seq 0 (length (t2_mask1_sel f))))
    by now rewrite Hl1.
  assert (HP2 : Permutation order (seq 0 (length (t2_mask2_sel f))))
    by now rewrite Hl2.
  assert (Ll1 : length (t2_locations1 f) = shape0 logits)
    by (rewrite Hloc1, base_locations_length; auto).
  assert (Ll2 : length (t2_locations2 f) = shape0 logits).
  { rewrite Hloc2. unfold add_row.
    rewrite length_map, base_locations_length; auto. }
  assert (Rl1 : rect (shape1 logits) (t2_locations1 f))
    by (rewrite Hloc1; apply base_locations_rect; auto; apply S1).
  assert (Rl2 : rect (shape1 logits) (t2_locations2 f)).
  { rewrite Hloc2. apply add_row_rect.
    - apply base_locations_rect; auto; apply S2.
    - apply sum_dim0_z_length, S1. }
  assert (Lm1 : length (t2_mask1 f) = shape0 logits)
    by (rewrite Hm1, mul_zb_length; rewrite ?lt_scalar_length; lia).
  assert (Lm2 : length (t2_mask2 f) = shape0 logits)
    by (rewrite Hm2, mul_zb_length; rewrite ?lt_scalar_length; lia).
  assert (Lg : length (t2_gates1_s f) = shape0 logits
               /\ length (t2_gates2_s f) = shape0 logits).
  { change (t2_gates1_s f) with (fst (t2_gates1_s f, t2_gates2_s f)).
    change (t2_gates2_s f) with (snd (t2_gates1_s f, t2_gates2_s f)) at 2.
    rewrite Hgp. unfold sum_dim1_q, mul_qz.
    destruct normalize;
      match goal with
      | |- context [normalized ?eps ?a ?b] =>
          destruct (normalized_length eps a b) as [-> ->];
            rewrite ?length_map, ?zip_with_length; lia
      end. }
  cbv zeta. repeat split; try apply Lg; auto.
  - rewrite Hls1. unfold sum_dim1_z, mul_zz.
    rewrite length_map, zip_with_length. lia.
  - rewrite Hls2. unfold sum_dim1_z, mul_zz.
    rewrite length_map, zip_with_length. lia.
  - rewrite Hm1. apply mul_zb_rect; auto using lt_scalar_rect. apply S1.
  - rewrite Hm1. apply mul_zb_binary, S1.
  - rewrite Hm1. apply mul_zb_one_per_row; apply S1.
  - rewrite Hm2. apply mul_zb_rect; auto using lt_scalar_rect. apply S2.
  - rewrite Hm2. apply mul_zb_binary, S2.
  - rewrite Hm2. apply mul_zb_one_per_row; apply S2.
Qed.

(** The combine weight of a token at an expert is the sum of its two
    routing contributions. *)
Lemma top2_weight softmax draws logits input_mask use_fp32 policy
  normalize eval_mode fraction bpr f s e :
  well_shaped draws logits input_mask policy ->
  top2gating softmax false draws logits input_mask use_fp32 policy normalize
             eval_mode fraction bpr = Ok (Top2Dense f) ->
  (s < shape0 logits)%nat -> (e < shape1 logits)%nat ->
  weight f s e
  == nth s (t2_gates1_s f) 0 * inject_Z (entry (t2_mask1 f) s e)
     + nth s (t2_gates2_s f) 0 * inject_Z (entry (t2_mask2 f) s e).
Proof.
  intros Hws H Hs He.
  pose proof (top2_frame_lengths _ _ _ _ _ _ _ _ _ _ _ Hws H) as Hl.
  cbv zeta in Hl.
  destruct Hl as (Lm1 & Lm2 & Lg1 & Lg2 & Ll1 & Ll2 & (R1 & _) & (R2 & _)).
  apply top2gating_dense_inv in H. cbv zeta in H.
  destruct H as (_ & _ & _ & _ & _ & _ & _ & _ & _ & _ & _ & _ & _ & _ & _
                 & _ & _ & _ & _ & _ & Hr1 & Hr2 & Hcomb & _).
  assert (Hrow1 : length (nth s (t2_mask1 f) []) = shape1 logits)
    by (apply (rect_in _ _ _ R1), nth_In; lia).
  assert (Hrow2 : length (nth s (t2_mask2 f) []) = shape1 logits)
    by (apply (rect_in _ _ _ R2), nth_In; lia).
  assert (Hin1 : (0 <= nth s (t2_locations1_s f) 0 < t2_capacity f)%Z)
    by (apply (proj1 (Forall_forall _ _) Hr1), nth_In; lia).
  assert (Hin2 : (0 <= nth s (t2_locations2_s f) 0 < t2_capacity f)%Z)
    by (apply (proj1 (Forall_forall _ _) Hr2), nth_In; lia).
  assert (Hterm : forall g m loc,
            length g = shape0 logits -> length m = shape0 logits ->
            length loc = shape0 logits ->
            length (nth s m []) = shape1 logits ->
            length (bmm_outer (scale_rows_q g m)
                              (map (one_hot_row (t2_capacity f)) loc))
            = shape0 logits /\
            length (nth s (bmm_outer (scale_rows_q g m)
                             (map (one_hot_row (t2_capacity f)) loc)) [])
            = shape1 logits /\
            length (nth e (nth s (bmm_outer (scale_rows_q g m)
                             (map (one_hot_row (t2_capacity f)) loc)) []) [])
            = Z.to_nat (t2_capacity f)).
  { intros g m loc Hg Hm Hloc Hrow. unfold bmm_outer, scale_rows_q.
    split; [rewrite !zip_with_length, length_map; lia|].
    rewrite (zip_with_nth _ _ _ _ [] [] []);
      [|rewrite zip_with_length; lia|rewrite length_map; lia].
    rewrite (zip_with_nth _ _ _ _ 0 [] []) by lia.
    rewrite !length_map. split; auto.
    rewrite map_map. rewrite (nth_map_in _ _ _ 0%Z) by lia.
    now rewrite length_map, (nth_map_in _ _ _ 0%Z), one_hot_row_length by lia. }
  destruct (Hterm _ _ _ Lg1 Lm1 Ll1 Hrow1) as (A1 & A2 & A3).
  destruct (Hterm _ _ _ Lg2 Lm2 Ll2 Hrow2) as (B1 & B2 & B3).
  unfold weight. rewrite Hcomb, add3_nth by lia.
  rewrite sumQ_plus by lia.
  rewrite !term_weight by lia. reflexivity.
Qed.

Lemma selection_nth_row n m s :
  selection n m -> (s < length m)%nat ->
  Forall bit (nth s m []) /\ (sumZ (nth s m []) <= 1)%Z.
Proof.
  intros (_ & Hb & Ho) Hs. split.
  - apply (proj1 (Forall_forall _ _) Hb). now apply nth_In.
  - apply (proj1 (Forall_forall _ _) Ho (nth s m [])). now apply nth_In.
Qed.

(** C4 (normalisation order).  Take a token whose raw gate probabilities are
    0.6 at its first choice [e1] and 0.3 at its second choice [e2], whose
    first choice is admitted and whose second choice is dropped.  Then the
    combine weights of the token at ([e1], [e2]) are (2/3, 0), that is
    (0.667, 0) to three decimals, when [normalize_gate_prob_before_dropping]
    is set, and (1, 0) when it is not. *)
Theorem normalization_order softmax draws logits input_mask use_fp32 policy
  normalize eval_mode fraction bpr f s e1 e2 :
  well_shaped draws logits input_mask policy ->
  top2gating softmax false draws logits input_mask use_fp32 policy normalize
             eval_mode fraction bpr = Ok (Top2Dense f) ->
  entry (t2_mask1_hot f) s e1 = 1%Z -> entry (t2_mask2_hot f) s e2 = 1%Z ->
  gate (t2_gates f) s e1 == 6 # 10 -> gate (t2_gates f) s e2 == 3 # 10 ->
  entry (t2_mask1 f) s e1 = 1%Z -> entry (t2_mask2 f) s e2 = 0%Z ->
  weight f s e1 == (if normalize then 2 # 3 else 1) /\
  weight f s e2 == 0 /\
  (normalize = true -> Qabs (weight f s e1 - (667 # 1000)) < 1 # 1000).
Proof.
  intros Hws H Hh1 Hh2 Hg1 Hg2 Hm1 Hm2.
  pose proof (top2_frame_shape _ _ _ _ _ _ _ _ _ _ _ Hws H) as Hsh.
  cbv zeta in Hsh.
  destruct Hsh as (SH1 & SH2 & _ & _ & Hlg & Hlh1 & Hlh2 & _).
  pose proof (top2_frame_lengths _ _ _ _ _ _ _ _ _ _ _ Hws H) as Hl.
  cbv zeta in Hl.
  destruct Hl as (Lm1 & Lm2 & Lg1 & Lg2 & _ & _ & SM1 & SM2).
  destruct (rect_entry_range _ _ s e1 (proj1 SH1) ltac:(lia)) as [Hs He1].
  destruct (rect_entry_range _ _ s e2 (proj1 SH2) ltac:(lia)) as [_ He2].
  rewrite Hlh1 in Hs.
  pose proof (top2_weight _ _ _ _ _ _ _ _ _ _ _ s e1 Hws H Hs He1) as Hw1.
  pose proof (top2_weight _ _ _ _ _ _ _ _ _ _ _ s e2 Hws H Hs He2) as Hw2.
  apply top2gating_dense_inv in H. cbv zeta in H.
  destruct H as (sampled & _ & _ & _ & _ & _ & _ & _ & _ & _ & Hs1 & Hs2 & _
                 & _ & _ & Hc1 & Hc2 & Hgp & _).
  assert (Hne : e1 <> e2).
  { intros ->. rewrite Hg1 in Hg2. discriminate. }
  destruct (selection_nth_row _ _ s SH1 ltac:(lia)) as [Bh1 Oh1].
  destruct (selection_nth_row _ _ s SH2 ltac:(lia)) as [Bh2 Oh2].
  destruct (selection_nth_row _ _ s SM1 ltac:(lia)) as [Bm1 Om1].
  assert (Hzero2 : forall e, entry (t2_mask2 f) s e = 0%Z).
  { intros e. destruct (Z.eq_dec (entry (t2_mask2 f) s e) 0) as [|Hnz]; auto.
    exfalso. assert (Hnz' := Hnz). rewrite Hc2 in Hnz.
    apply entry_cut_nonzero in Hnz. rewrite Hs2 in Hnz.
    apply entry_padded_nonzero in Hnz.
    assert (Hhot : entry (t2_mask2_hot f) s e <> 0%Z).
    { destruct (String.eqb policy "random"); auto.
      revert Hnz. apply (entry_scale_nonzero b2z). }
    destruct (Nat.eq_dec e e2) as [->|Hd]; [congruence|].
    apply Hhot. apply (single_bit_row _ e2 e Bh2 Oh2 Hh2 Hd). }
  assert (Hm1e2 : entry (t2_mask1 f) s e2 = 0%Z)
    by (apply (single_bit_row _ e1 e2 Bm1 Om1 Hm1); auto).
  rewrite Hm1, (Hzero2 e1) in Hw1. rewrite Hm1e2, Hm2 in Hw2.
  assert (Hraw1 : nth s (sum_dim1_q (mul_qz (t2_gates f) (t2_mask1_hot f))) 0
                  == 6 # 10).
  { rewrite sum_dim1_q_nth by lia.
    rewrite (masked_row_sum_q _ e1 Bh1 Oh1 Hh1). exact Hg1. }
  assert (Hraw2 : nth s (sum_dim1_q (mul_qz (t2_gates f) (t2_mask2_hot f))) 0
                  == 3 # 10).
  { rewrite sum_dim1_q_nth by lia.
    rewrite (masked_row_sum_q _ e2 Bh2 Oh2 Hh2). exact Hg2. }
  assert (Hcut1 : nth s (sum_dim1_q (mul_qz (t2_gates f) (t2_mask1 f))) 0
                  == 6 # 10).
  { rewrite sum_dim1_q_nth by lia.
    rewrite (masked_row_sum_q _ e1 Bm1 Om1 Hm1). exact Hg1. }
  assert (Hcut2 : nth s (sum_dim1_q (mul_qz (t2_gates f) (t2_mask2 f))) 0 == 0).
  { rewrite sum_dim1_q_nth by lia. apply zero_row_sum_q. exact Hzero2. }
  assert (Hgate : nth s (t2_gates1_s f) 0 == (if normalize then 2 # 3 else 1)).
  { change (t2_gates1_s f) with (fst (t2_gates1_s f, t2_gates2_s f)).
    rewrite Hgp. pose proof (finfo_eps_small (if use_fp32 then float32
                                              else t_dtype logits)) as Heps.
    fold (eps_of logits use_fp32) in Heps.
    destruct normalize.
    - destruct (normalized_nth (eps_of logits use_fp32)
                  (sum_dim1_q (mul_qz (t2_gates f) (t2_mask1_hot f)))
                  (sum_dim1_q (mul_qz (t2_gates f) (t2_mask2_hot f))) s)
        as [-> _].
      + unfold sum_dim1_q, mul_qz. rewrite length_map, zip_with_length. lia.
      + unfold sum_dim1_q, mul_qz. rewrite length_map, zip_with_length. lia.
      + rewrite Hraw1, Hraw2. eapply Qle_trans; [exact Heps|]. discriminate.
      + rewrite Hraw1, Hraw2. reflexivity.
    - destruct (normalized_nth (eps_of logits use_fp32)
                  (sum_dim1_q (mul_qz (t2_gates f) (t2_mask1 f)))
                  (sum_dim1_q (mul_qz (t2_gates f) (t2_mask2 f))) s)
        as [-> _].
      + unfold sum_dim1_q, mul_qz. rewrite length_map, zip_with_length. lia.
      + unfold sum_dim1_q, mul_qz. rewrite length_map, zip_with_length. lia.
      + rewrite Hcut1, Hcut2. eapply Qle_trans; [exact Heps|]. discriminate.
      + rewrite Hcut1, Hcut2. reflexivity. }
  assert (Hwe1 : weight f s e1 == (if normalize then 2 # 3 else 1)).
  { rewrite Hw1, Hgate. destruct normalize; cbn; ring. }
  repeat split; auto.
  - rewrite Hw2. cbn. ring.
  - intros ->. rewrite Hwe1. reflexivity.
Qed.

Lemma well_shaped_2x3 : well_shaped no_draws logits_2x3 None "none".
Proof.
  repeat split; try discriminate. repeat constructor.
Defined.

Lemma normalization_order_witness :
  exists fb fa,
    top2gating linear_gate false no_draws logits_2x3 None false "none" true
               true (1 # 4) false = Ok (Top2Dense fb) /\
    top2gating linear_gate false no_draws logits_2x3 None false "none" false
               true (1 # 4) false = Ok (Top2Dense fa) /\
    (weight fb 0 1 == 2 # 3 /\ weight fb 0 0 == 0) /\
    (weight fa 0 1 == 1 /\ weight fa 0 0 == 0).
Proof.
  eexists. eexists.
  split; [vm_compute; reflexivity|]. split; [vm_compute; reflexivity|].
  split.
  - match goal with
    | |- context [weight ?F] =>
        pose proof (normalization_order linear_gate no_draws logits_2x3 None
                      false "none"%string true true (1 # 4) false F 0%nat
                      1%nat 0%nat well_shaped_2x3 eq_refl eq_refl eq_refl
                      eq_refl eq_refl eq_refl eq_refl) as (H1 & H2 & _)
    end.
    split; assumption.
  - match goal with
    | |- context [weight ?F] =>
        pose proof (normalization_order linear_gate no_draws logits_2x3 None
                      false "none"%string false true (1 # 4) false F 0%nat
                      1%nat 0%nat well_shaped_2x3 eq_refl eq_refl eq_refl
                      eq_refl eq_refl eq_refl eq_refl) as (H1 & H2 & _)
    end.
    split; assumption.
Defined.

(** ** Balance loss *)

Lemma argmax_from_lt {A : Type} (ltb : A -> A -> bool) r : forall best bi i,
  (bi < i)%nat -> (argmax_from ltb best bi i r < i + length r)%nat.
Proof.
  induction r as [|x r IH]; intros best bi i Hb; cbn [argmax_from length].
  - lia.
  - destruct (ltb best x).
    + specialize (IH x i (S i) ltac:(lia)). lia.
    + specialize (IH best bi (S i) ltac:(lia)). lia.
Qed.

Lemma argmax_row_lt {A : Type} (ltb : A -> A -> bool) r :
  (0 < length r)%nat -> (argmax_row ltb r < length r)%nat.
Proof.
  destruct r as [|x r]; cbn [length]; [lia|]. intros _.
  unfold argmax_row. pose proof (argmax_from_lt ltb r x 0%nat 1%nat). lia.
Qed.

Lemma sum_dim0_q_length n m : rect n m -> length (sum_dim0_q n m) = n.
Proof.
  unfold sum_dim0_q. induction 1 as [|r m Hr Hm IH]; cbn [fold_right].
  - apply repeat_length.
  - rewrite zip_with_length, IH, Hr. apply Nat.min_id.
Qed.

Lemma sum_dim0_q_nth n e m :
  rect n m -> (e < n)%nat ->
  nth e (sum_dim0_q n m) 0 = sumQ (col 0 e m).
Proof.
  intros Hm He. induction Hm as [|r m Hr Hm IH].
  - unfold sum_dim0_q; cbn [fold_right]. now rewrite nth_repeat.
  - pose proof (sum_dim0_q_length _ _ Hm) as Hl.
    unfold sum_dim0_q in *; cbn [fold_right].
    rewrite (zip_with_nth _ _ _ _ 0 0) by lia.
    rewrite IH. reflexivity.
Qed.

Lemma col_as_seq {A : Type} (d : A) e (m : list (list A)) :
  col d e m = map (fun s => nth e (nth s m []) d) (seq 0 (length m)).
Proof.
  unfold col. rewrite <- (map_nth_seq m []) at 1. now rewrite map_map.
Qed.

Lemma l_aux_matches_spec E gates mask :
  rect E gates -> rect E mask ->
  l_aux_of E gates mask == balance_loss_spec E gates mask.
Proof.
  intros Hg Hm. unfold l_aux_of, balance_loss_spec, mean_q.
  assert (Hlist : zip_with Qmult (mean_dim0_q E gates) (mean_dim0_z E mask)
    = map (fun e =>
             sumQ (map (fun s => gate gates s e) (seq 0 (length gates)))
             / Qnat (length gates)
             * (inject_Z (sumZ (map (fun s => entry mask s e)
                                    (seq 0 (length mask))))
                / Qnat (length mask)))
          (seq 0 E)).
  { apply (nth_ext _ _ 0 0).
    - unfold mean_dim0_q, mean_dim0_z.
      rewrite zip_with_length, !length_map, length_seq,
        sum_dim0_q_length, sum_dim0_z_length by assumption.
      apply Nat.min_id.
    - intros e He. unfold mean_dim0_q, mean_dim0_z in *.
      rewrite zip_with_length, !length_map, sum_dim0_q_length,
        sum_dim0_z_length, Nat.min_id in He by assumption.
      rewrite (zip_with_nth _ _ _ _ 0 0)
        by (rewrite length_map, ?sum_dim0_q_length, ?sum_dim0_z_length; auto).
      rewrite (nth_map_in _ _ _ 0) by now rewrite sum_dim0_q_length.
      rewrite (nth_map_in _ _ _ 0%Z) by now rewrite sum_dim0_z_length.
      rewrite (nth_map_in _ _ _ O) by now rewrite length_seq.
      rewrite seq_nth by assumption. cbn [Nat.add].
      rewrite sum_dim0_q_nth, sum_dim0_z_nth by assumption.
      now rewrite !col_as_seq. }
  rewrite Hlist, length_map, length_seq. ring.
Qed.

Lemma Qnat_succ n : Qnat (S n) == 1 + Qnat n.
Proof.
  unfold Qnat. rewrite Nat2Z.inj_succ, <- Z.add_1_l, inject_Z_plus.
  reflexivity.
Qed.

Lemma Qnat_pos n : (0 < n)%nat -> ~ Qnat n == 0.
Proof.
  intros Hn H. unfold Qnat, Qeq in H. cbn in H. lia.
Qed.

Lemma uniform_column_sums c n m :
  rect n m -> Forall (Forall (fun x => x == c)) m ->
  Forall (fun x => x == Qnat (length m) * c) (sum_dim0_q n m).
Proof.
  intros Hm Hu. unfold sum_dim0_q.
  induction Hm as [|r m Hr Hm IH]; cbn [fold_right length].
  - apply Forall_forall. intros x Hx%repeat_spec. subst.
    change (Qnat 0) with 0. ring.
  - inversion Hu as [|? ? Hur Hum]; subst. specialize (IH Hum).
    pose proof (sum_dim0_q_length _ _ Hm) as Hl. unfold sum_dim0_q in Hl.
    revert IH Hl. generalize (fold_right (zip_with Qplus) (repeat 0 (length r)) m).
    clear -Hur. induction Hur as [|x r Hx Hr IHr]; intros acc Hacc Hl.
    + constructor.
    + destruct acc as [|y acc]; [discriminate|]. cbn [zip_with].
      inversion Hacc; subst. constructor.
      * rewrite Qnat_succ, Hx. rewrite H1. ring.
      * apply IHr; auto.
Qed.

Lemma sumQ_uniform_l c a : forall b,
  Forall (fun x => x == c) a ->
  length a = length b ->
  sumQ (zip_with Qmult a b) == c * sumQ b.
Proof.
  induction a as [|x a IH]; intros [|y b] Ha Hl; cbn [zip_with];
    try discriminate.
  - cbn. ring.
  - inversion Ha as [|? ? Hx Ha']; subst.
    rewrite !sumQ_cons, IH, Hx by (auto; cbn in Hl; lia). ring.
Qed.

Lemma sumQ_div_inject (d : Q) v :
  sumQ (map (fun x => inject_Z x / d) v) == inject_Z (sumZ v) / d.
Proof.
  induction v as [|x v IH]; cbn [map].
  - cbn. unfold Qdiv. ring.
  - rewrite sumQ_cons, sumZ_cons, IH, inject_Z_plus. unfold Qdiv. ring.
Qed.

Lemma sumZ_zip_add a : forall b, length a = length b ->
  sumZ (zip_with Z.add a b) = (sumZ a + sumZ b)%Z.
Proof.
  induction a as [|x a IH]; intros [|y b] Hl; cbn [zip_with]; try discriminate.
  - reflexivity.
  - rewrite !sumZ_cons, IH by (cbn in Hl; lia). lia.
Qed.

Lemma sumZ_repeat_zero n : sumZ (repeat 0%Z n) = 0%Z.
Proof. induction n; cbn [repeat]; rewrite ?sumZ_nil, ?sumZ_cons; lia. Qed.

(** Summed over the experts, the column totals of a one-hot mask count the
    tokens. *)
Lemma hot_total E idx :
  Forall (fun i => (0 <= i < Z.of_nat E)%Z) idx ->
  sumZ (sum_dim0_z E (map (one_hot_row (Z.of_nat E)) idx))
  = Z.of_nat (length idx).
Proof.
  intros Hr. unfold sum_dim0_z.
  induction Hr as [|i idx Hi Hidx IH]; cbn [map fold_right length].
  - apply sumZ_repeat_zero.
  - rewrite sumZ_zip_add.
    + rewrite IH, one_hot_row_sum_one by assumption. lia.
    + rewrite one_hot_row_length, Nat2Z.id.
      symmetry. apply (sum_dim0_z_length E), (proj1 (selection_hot E idx)).
Qed.

(** With uniform gates and every token assigned, the loss is 1. *)
Lemma l_aux_uniform E gates idx :
  (0 < E)%nat -> (1 <= length gates)%nat -> length idx = length gates ->
  Forall (fun i => (0 <= i < Z.of_nat E)%Z) idx ->
  rect E gates -> Forall (Forall (fun x => x == 1 / Qnat E)) gates ->
  l_aux_of E gates (map (one_hot_row (Z.of_nat E)) idx) == 1.
Proof.
  intros HE HS Hlen Hr Hg Hu. unfold l_aux_of, mean_q.
  pose proof (Qnat_pos E HE) as HE0.
  pose proof (Qnat_pos (length gates) ltac:(lia)) as HS0.
  pose proof (proj1 (selection_hot E idx)) as Hrect.
  assert (Hme : Forall (fun x => x == 1 / Qnat E) (mean_dim0_q E gates)).
  { unfold mean_dim0_q. pose proof (uniform_column_sums _ _ _ Hg Hu) as Hs.
    apply Forall_forall. intros y [x [<- Hx]]%in_map_iff.
    rewrite Forall_forall in Hs. rewrite (Hs x Hx). field. split; assumption. }
  assert (Hl : length (mean_dim0_q E gates)
               = length (mean_dim0_z E (map (one_hot_row (Z.of_nat E)) idx))).
  { unfold mean_dim0_q, mean_dim0_z.
    now rewrite !length_map, sum_dim0_q_length, sum_dim0_z_length. }
  rewrite zip_with_length, <- Hl, Nat.min_id.
  rewrite (sumQ_uniform_l _ _ _ Hme Hl).
  unfold mean_dim0_q at 1. rewrite length_map, sum_dim0_q_length by assumption.
  unfold mean_dim0_z. rewrite sumQ_div_inject, hot_total by assumption.
  rewrite length_map, Hlen. fold (Qnat (length gates)).
  field. split; assumption.
Qed.

Lemma first_choice_in_range E (gates : list (list Q)) :
  (0 < E)%nat -> rect E gates ->
  Forall (fun i => (0 <= i < Z.of_nat E)%Z)
         (map (fun r => Z.of_nat (argmax_row Qltb r)) gates).
Proof.
  intros HE Hg. apply Forall_forall. intros i [r [<- Hr]]%in_map_iff.
  pose proof (rect_in _ _ _ Hg Hr) as Hl.
  pose proof (argmax_row_lt Qltb r ltac:(lia)). lia.
Qed.

Lemma softmax_rect (softmax : list Q -> list Q) logits :
  (forall r, length (softmax r) = length r) -> wf_tensor logits ->
  rect (shape1 logits) (map softmax (rows logits)).
Proof.
  intros Hs Hwf. apply Forall_forall. intros r [x [<- Hx]]%in_map_iff.
  rewrite Hs. apply (rect_in _ _ _ Hwf Hx).
Qed.

Lemma padded_unflagged im m :
  (forall v, im = Some v -> any v = false) -> padded im m = m.
Proof.
  intros H. destruct im as [v|]; cbn; auto. now rewrite (H v eq_refl).
Qed.

Lemma bits_zero_or_one r : Forall bit r ->
  (forall e, nth e r 0%Z = 0%Z) \/ (exists e, nth e r 0%Z = 1%Z).
Proof.
  induction 1 as [|x r Hx Hr IH].
  - left. intros e. now destruct e.
  - destruct Hx as [->| ->]; [|right; now exists O].
    destruct IH as [Hz|[e He]].
    + left. intros [|e]; cbn [nth]; auto.
    + right. now exists (S e).
Qed.

Lemma zero_row_sum_z mr : (forall e, nth e mr 0%Z = 0%Z) ->
  forall lr, sumZ (zip_with Z.mul lr mr) = 0%Z.
Proof.
  induction mr as [|x mr IH]; intros H [|y lr]; cbn [zip_with];
    rewrite ?sumZ_nil, ?sumZ_cons; auto.
  rewrite IH by (intros e; apply (H (S e))). rewrite (H O : x = 0%Z). lia.
Qed.

(** With at least one slot per expert, every stored slot is a valid class of
    the one-hot slot tensor. *)
Lemma stored_slots_in_range n m C :
  selection n m -> (1 <= C)%Z ->
  Forall (fun i => (0 <= i < C)%Z)
    (sum_dim1_z (mul_zz (fused_cumsum_sub_one m)
       (mul_zb m (lt_scalar (fused_cumsum_sub_one m) C)))).
Proof.
  intros Hsel HC.
  pose proof (fused_cumsum_rect n m (proj1 Hsel)) as Hlr.
  pose proof (fused_cumsum_length m) as Hll.
  pose proof (selection_cut n m _ C Hsel Hlr) as Hcut.
  set (loc := fused_cumsum_sub_one m) in *.
  set (mf := mul_zb m (lt_scalar loc C)) in *.
  assert (Hlen : length mf = length m)
    by (unfold mf; rewrite mul_zb_length; rewrite ?lt_scalar_length; lia).
  apply Forall_forall. intros x Hx.
  apply (In_nth _ _ 0%Z) in Hx as (s & Hs & <-).
  unfold sum_dim1_z, mul_zz in Hs.
  rewrite length_map, zip_with_length in Hs.
  destruct (selection_nth_row n mf s Hcut ltac:(lia)) as [Hb _].
  destruct (bits_zero_or_one _ Hb) as [Hz|[e He]].
  - rewrite sum_dim1_mul_nth by lia. rewrite zero_row_sum_z by assumption. lia.
  - destruct (admitted_facts n m loc C s e Hsel Hlr Hll He)
      as (Hm & Hlt & _ & _ & Heq).
    fold mf in Heq. rewrite Heq.
    pose proof (layout_range e m loc s
                  (layout_sequence n e m (proj1 Hsel) (proj1 (proj2 Hsel))) Hm).
    lia.
Qed.

(** With at least one expert and a capacity of at least one slot, the dense
    path of [top1gating] returns. *)
Lemma top1gating_returns softmax logits input_mask use_fp32 capacity_factor
  eval_mode fraction use_xmoe C :
  (forall r, length (softmax r) = length r) -> wf_tensor logits ->
  (0 < shape1 logits)%nat ->
  top1_capacity (shape0 logits) (shape1 logits) capacity_factor eval_mode
                fraction = Ok C ->
  (1 <= C)%Z ->
  exists f,
    top1gating softmax false logits input_mask use_fp32 capacity_factor
               eval_mode fraction use_xmoe = Ok (Top1Dense f) /\
    t1_capacity f = C.
Proof.
  intros Hsm Hwf HE HCap HC. unfold top1gating.
  assert (Hrows : rows (if use_fp32 then to_float logits else logits) = rows logits)
    by now destruct use_fp32.
  assert (Hsh : shape1 (if use_fp32 then to_float logits else logits) = shape1 logits)
    by now destruct use_fp32.
  rewrite Hrows, Hsh, length_map. fold (shape0 logits). rewrite HCap.
  cbn [bind].
  destruct (shape1 logits) as [|E] eqn:HEq; [lia|]. cbn [argmax bind].
  pose proof (softmax_rect softmax logits Hsm Hwf) as Hrect. rewrite HEq in Hrect.
  rewrite one_hot_ok;
    [|lia|apply first_choice_in_range; [lia|assumption]].
  cbn [bind].
  rewrite one_hot_ok; [cbn [bind]; eexists; split; reflexivity|lia|].
  apply (stored_slots_in_range (S E)); auto.
  apply (selection_padded (S E) input_mask), selection_hot.
Qed.

(** C6 (balance loss).  In both routers the auxiliary loss is E squared
    times the mean over experts of the mean gate probability of the expert
    times its mean first-choice assignment fraction, the fraction being taken
    from the first-choice mask before the capacity cut; and when every gate
    probability is 1/E and no token is flagged as padding, the loss is 1. *)
Theorem balance_loss (softmax : list Q -> list Q) :
  (forall r, length (softmax r) = length r) ->
  (forall logits input_mask use_fp32 capacity_factor eval_mode fraction
          use_xmoe f,
     wf_tensor logits ->
     top1gating softmax false logits input_mask use_fp32 capacity_factor
                eval_mode fraction use_xmoe = Ok (Top1Dense f) ->
     t1_l_aux f
       == balance_loss_spec (shape1 logits) (t1_gates f) (t1_mask1_sel f) /\
     ((1 <= shape0 logits)%nat ->
      (forall v, input_mask = Some v -> any v = false) ->
      Forall (Forall (fun x => x == 1 / Qnat (shape1 logits))) (t1_gates f) ->
      t1_l_aux f == 1)) /\
  (forall draws logits input_mask use_fp32 policy normalize eval_mode fraction
          bpr f,
     wf_tensor logits ->
     top2gating softmax false draws logits input_mask use_fp32 policy normalize
                eval_mode fraction bpr = Ok (Top2Dense f) ->
     t2_l_aux f
       == balance_loss_spec (shape1 logits) (t2_gates f) (t2_mask1_sel f) /\
     ((1 <= shape0 logits)%nat ->
      (forall v, input_mask = Some v -> any v = false) ->
      Forall (Forall (fun x => x == 1 / Qnat (shape1 logits))) (t2_gates f) ->
      t2_l_aux f == 1)).
Proof.
  intros Hsm. split.
  - intros logits input_mask use_fp32 capacity_factor eval_mode fraction
           use_xmoe f Hwf H.
    apply top1gating_dense_inv in H. cbv zeta in H.
    destruct H as (HE & _ & _ & Hl & Hg & Hi & Hsel & _).
    pose proof (softmax_rect softmax logits Hsm Hwf) as Hrect.
    rewrite <- Hg in Hrect.
    change (t1_l_aux f = l_aux_of (shape1 logits) (t1_gates f) (t1_mask1_sel f))
      in Hl.
    rewrite Hl. split.
    + apply l_aux_matches_spec; auto.
      rewrite Hsel. apply padded_rect, selection_hot.
    + intros HS Hpad Hu. rewrite Hsel, padded_unflagged by assumption.
      apply l_aux_uniform; auto.
      * rewrite Hg, length_map. exact HS.
      * now rewrite Hi, length_map.
      * rewrite Hi. now apply first_choice_in_range.
  - intros draws logits input_mask use_fp32 policy normalize eval_mode
           fraction bpr f Hwf H.
    pose proof (top2_first_choice_range _ _ _ _ _ _ _ _ _ _ _ H) as Hr.
    apply top2gating_dense_inv in H. cbv zeta in H.
    destruct H as (_ & HE & _ & _ & Hl & Hg & Hi & Hh & _ & _ & Hsel & _).
    pose proof (softmax_rect softmax logits Hsm Hwf) as Hrect.
    rewrite <- Hg in Hrect.
    change (t2_l_aux f = l_aux_of (shape1 logits) (t2_gates f) (t2_mask1_sel f))
      in Hl.
    rewrite Hl. split.
    + apply l_aux_matches_spec; auto.
      rewrite Hsel, Hh. apply padded_rect, selection_hot.
    + intros HS Hpad Hu. rewrite Hsel, padded_unflagged, Hh by assumption.
      apply l_aux_uniform; auto.
      * rewrite Hg, length_map. exact HS.
      * now rewrite Hi, length_map.
Qed.

Lemma linear_gate_length r : length (linear_gate r) = length r.
Proof. apply length_map. Defined.

Lemma balance_loss_witness :
  (exists f,
     top1gating linear_gate false logits_uniform None false 1 false (1 # 4)
                false = Ok (Top1Dense f) /\ t1_l_aux f == 1) /\
  (exists f,
     top2gating linear_gate false no_draws logits_uniform None false "none"
                false false (1 # 4) false = Ok (Top2Dense f) /\ t2_l_aux f == 1).
Proof.
  assert (Hwf : wf_tensor logits_uniform) by (repeat constructor).
  split.
  - eexists. split; [vm_compute; reflexivity|].
    match goal with
    | |- t1_l_aux ?F == 1 =>
        apply (proj1 (balance_loss linear_gate linear_gate_length)
                 logits_uniform None false 1 false (1 # 4) false F Hwf eq_refl)
    end.
    + cbn. lia.
    + discriminate.
    + repeat constructor.
  - eexists. split; [vm_compute; reflexivity|].
    match goal with
    | |- t2_l_aux ?F == 1 =>
        apply (proj2 (balance_loss linear_gate linear_gate_length) no_draws
                 logits_uniform None false "none"%string false false (1 # 4)
                 false F Hwf eq_refl)
    end.
    + cbn. lia.
    + discriminate.
    + repeat constructor.
Defined.

(** Three tokens that all prefer expert 0, capacity 1: only token 0 is
    dispatched, and the loss (9/5) is the one of the mask before the cut,
    not of the mask after it (3/5). *)
Example overflow_loss_unfiltered :
  exists f,
    top1gating linear_gate false
               (mkTensor float32 3 [[6; 3; 1]; [6; 3; 1]; [6; 3; 1]]) None
               false 1 false (1 # 4) false = Ok (Top1Dense f) /\
    t1_capacity f = 1%Z /\
    t1_mask1 f = [[1; 0; 0]; [0; 0; 0]; [0; 0; 0]]%Z /\
    t1_dispatch_mask f
      = [[[true]; [false]; [false]]; [[false]; [false]; [false]];
         [[false]; [false]; [false]]] /\
    t1_l_aux f == 9 # 5 /\
    balance_loss_spec 3 (t1_gates f) (t1_mask1_sel f) == 9 # 5 /\
    balance_loss_spec 3 (t1_gates f) (t1_mask1 f) == 3 # 5.
Proof. eexists. split; [vm_compute; reflexivity|]. repeat split. Qed.

(** * Further properties of the routing code *)

(** ** Returning calls *)

(** The slots stored for a capacity-cut mask are classes of the one-hot slot
    tensor as soon as the capacity holds one slot, or the batch is empty. *)
Lemma stored_slots_bounded n m loc C :
  selection n m -> rect n loc -> length loc = length m ->
  (forall s e, entry m s e = 1%Z -> (0 <= entry loc s e)%Z) ->
  m = [] \/ (1 <= C)%Z ->
  Forall (fun i => (0 <= i < C)%Z)
    (sum_dim1_z (mul_zz loc (mul_zb m (lt_scalar loc C)))).
Proof.
  intros Hsel Hlr Hll Hpos [->|HC].
  { destruct loc; [constructor|discriminate]. }
  pose proof (selection_cut n m _ C Hsel Hlr) as Hcut.
  set (mf := mul_zb m (lt_scalar loc C)) in *.
  assert (Hlen : length mf = length m)
    by (unfold mf; rewrite mul_zb_length; rewrite ?lt_scalar_length; lia).
  apply Forall_forall. intros x Hx.
  apply (In_nth _ _ 0%Z) in Hx as (s & Hs & <-).
  unfold sum_dim1_z, mul_zz in Hs.
  rewrite length_map, zip_with_length in Hs.
  destruct (selection_nth_row n mf s Hcut ltac:(lia)) as [Hb _].
  destruct (bits_zero_or_one _ Hb) as [Hz|[e He]].
  - rewrite sum_dim1_mul_nth by lia. rewrite zero_row_sum_z by assumption. lia.
  - destruct (admitted_facts n m loc C s e Hsel Hlr Hll He)
      as (Hm & Hlt & _ & _ & Heq).
    fold mf in Heq. rewrite Heq. specialize (Hpos s e Hm). lia.
Qed.

Lemma layout_nonneg e m loc s :
  slot_layout e m loc -> entry m s e = 1%Z -> (0 <= entry loc s e)%Z.
Proof. intros HL Hs. pose proof (layout_range _ _ _ _ HL Hs). lia. Qed.

Lemma one_hot_empty n : (0 <= n)%Z -> one_hot [] n = Ok [].
Proof. intros Hn. now rewrite one_hot_ok by (auto; constructor). Qed.

Lemma top1_capacity_empty E capacity_factor eval_mode fraction C :
  (0 < E)%nat ->
  top1_capacity 0 E capacity_factor eval_mode fraction = Ok C -> C = 0%Z.
Proof.
  intros HE. unfold top1_capacity.
  destruct (Qltb 0 fraction && eval_mode).
  - intros [= <-]. unfold Qnat. cbn [Z.of_nat].
    assert (H : fraction * inject_Z 0 == inject_Z 0) by (unfold inject_Z; ring).
    rewrite H. apply Qceiling_Z.
  - destruct E as [|E]; [lia|]. cbn [py_truediv bind]. intros [= <-].
    assert (H : forall d, inject_Z 0 / d == inject_Z 0)
      by (intros d; unfold Qdiv, inject_Z; ring).
    rewrite (Qceiling_comp _ _ (H _)), Qceiling_Z. unfold py_int.
    destruct capacity_factor as [a b]. cbn. rewrite Z.mul_0_r. reflexivity.
Qed.

Lemma top2_capacity_empty E eval_mode fraction C :
  (0 < E)%nat ->
  top2_capacity 0 E eval_mode fraction = Ok C -> C = 0%Z.
Proof.
  intros HE. unfold top2_capacity.
  destruct (Qltb 0 fraction && eval_mode).
  - intros [= <-]. unfold Qnat. cbn [Z.of_nat].
    assert (H : fraction * inject_Z 0 == inject_Z 0) by (unfold inject_Z; ring).
    rewrite H. apply Qceiling_Z.
  - destruct E as [|E]; [lia|]. cbn [py_truediv bind]. now intros [= <-].
Qed.

Ltac fp32_shape logits use_fp32 :=
  let Hrows := fresh "Hrows" in
  let Hsh := fresh "Hsh" in
  assert (Hrows : rows (if use_fp32 then to_float logits else logits) = rows logits)
    by (now destruct use_fp32);
  assert (Hsh : shape1 (if use_fp32 then to_float logits else logits) = shape1 logits)
    by (now destruct use_fp32);
  rewrite ?Hrows, ?Hsh.

Lemma top1gating_dense_ok softmax logits input_mask use_fp32 capacity_factor
  eval_mode fraction use_xmoe C :
  (forall r, length (softmax r) = length r) -> wf_tensor logits ->
  (0 < shape1 logits)%nat ->
  top1_capacity (shape0 logits) (shape1 logits) capacity_factor eval_mode
                fraction = Ok C ->
  shape0 logits = 0%nat \/ (1 <= C)%Z ->
  exists f,
    top1gating softmax false logits input_mask use_fp32 capacity_factor
               eval_mode fraction use_xmoe = Ok (Top1Dense f) /\
    t1_capacity f = C.
Proof.
  intros Hsm Hwf HE HCap HC. unfold top1gating.
  fp32_shape logits use_fp32. rewrite length_map. fold (shape0 logits).
  rewrite HCap. cbn [bind].
  destruct (shape1 logits) as [|E] eqn:HEq; [lia|]. cbn [argmax bind].
  pose proof (softmax_rect softmax logits Hsm Hwf) as Hrect. rewrite HEq in Hrect.
  rewrite one_hot_ok;
    [|lia|apply first_choice_in_range; [lia|assumption]].
  cbn [bind].
  set (m := match input_mask with | Some im => _ | None => _ end).
  assert (Hsel : selection (S E) m)
    by (apply (selection_padded (S E) input_mask), selection_hot).
  assert (H0C : (0 <= C)%Z).
  { destruct HC as [H0|]; [|lia]. rewrite H0 in HCap.
    apply top1_capacity_empty in HCap; lia. }
  rewrite one_hot_ok; [cbn [bind]; eexists; split; reflexivity|lia|].
  apply (stored_slots_bounded (S E)); auto.
  - apply fused_cumsum_rect, Hsel.
  - apply fused_cumsum_length.
  - intros s e Hs. apply (layout_nonneg e m); auto.
    apply (layout_sequence (S E)); apply Hsel.
  - destruct HC as [H0|]; [left|now right].
    assert (Hl : (length m <= 0)%nat).
    { unfold shape0 in H0. subst m.
      destruct input_mask as [im|]; [destruct (any im)|];
        unfold scale_rows_z; rewrite ?zip_with_length, !length_map; lia. }
    destruct m; [reflexivity|cbn in Hl; lia].
Qed.

Lemma top1gating_dense_raise softmax logits input_mask use_fp32 capacity_factor
  eval_mode fraction use_xmoe C :
  (forall r, length (softmax r) = length r) -> wf_tensor logits ->
  (forall im, input_mask = Some im -> length im = shape0 logits) ->
  (0 < shape1 logits)%nat ->
  top1_capacity (shape0 logits) (shape1 logits) capacity_factor eval_mode
                fraction = Ok C ->
  (0 < shape0 logits)%nat -> (C <= 0)%Z ->
  top1gating softmax false logits input_mask use_fp32 capacity_factor
             eval_mode fraction use_xmoe = Raise RuntimeError.
Proof.
  intros Hsm Hwf Him HE HCap HS HC. unfold top1gating.
  fp32_shape logits use_fp32. rewrite length_map. fold (shape0 logits).
  rewrite HCap. cbn [bind].
  destruct (shape1 logits) as [|E] eqn:HEq; [lia|]. cbn [argmax bind].
  pose proof (softmax_rect softmax logits Hsm Hwf) as Hrect. rewrite HEq in Hrect.
  rewrite one_hot_ok;
    [|lia|apply first_choice_in_range; [lia|assumption]].
  cbn [bind].
  set (m := match input_mask with | Some im => _ | None => _ end).
  assert (Hlm : length m = shape0 logits).
  { subst m. unfold shape0 in *.
    destruct input_mask as [im|]; [destruct (any im)|];
      unfold scale_rows_z, nonpadding_of;
      rewrite ?zip_with_length, !length_map; auto.
    rewrite (Him im eq_refl). lia. }
  set (idx := sum_dim1_z _).
  assert (Hidx : idx <> []).
  { intros Hnil. apply (f_equal (@length Z)) in Hnil. subst idx.
    unfold sum_dim1_z, mul_zz in Hnil.
    rewrite length_map, zip_with_length, mul_zb_length, fused_cumsum_length in Hnil
      by (rewrite lt_scalar_length, fused_cumsum_length; reflexivity).
    cbn in Hnil. lia. }
  destruct (Z.eq_dec C 0) as [->|Hne].
  - now rewrite one_hot_zero_classes.
  - unfold one_hot. destruct (C <? 0)%Z eqn:Hlt; [reflexivity|].
    apply Z.ltb_ge in Hlt. lia.
Qed.

Lemma Qltb_lt x y : Qltb x y = true <-> x < y.
Proof.
  unfold Qltb. rewrite negb_true_iff. split.
  - intros H. apply Qnot_le_lt. intros Hle. apply Qle_bool_iff in Hle. congruence.
  - intros H. destruct (Qle_bool y x) eqn:E; auto.
    apply Qle_bool_iff in E. apply Qlt_not_le in H. contradiction.
Qed.

Lemma Qceiling_pos x : 0 < x -> (1 <= Qceiling x)%Z.
Proof.
  intros Hx. pose proof (Qle_ceiling x) as H.
  assert (H0 : 0 < inject_Z (Qceiling x)) by (eapply Qlt_le_trans; eauto).
  change 0 with (inject_Z 0) in H0. rewrite <- Zlt_Qlt in H0. lia.
Qed.

Lemma Qnat_lt_0 n : (0 < n)%nat -> 0 < Qnat n.
Proof.
  intros H. unfold Qnat. change 0 with (inject_Z 0). rewrite <- Zlt_Qlt. lia.
Qed.

Lemma ceil_div_pos a b : (0 < a)%nat -> (0 < b)%nat -> (1 <= ceil_div a b)%Z.
Proof.
  intros Ha Hb. unfold ceil_div.
  apply Z.div_le_lower_bound; lia.
Qed.

Lemma top2_capacity_pos S E eval_mode fraction :
  (0 < S)%nat -> (0 < E)%nat ->
  (1 <= claimed_top2_capacity S E eval_mode fraction)%Z.
Proof.
  intros HS HE. unfold claimed_top2_capacity.
  destruct eval_mode; cbn [andb].
  - destruct (Qltb 0 fraction) eqn:Hf.
    + apply Qceiling_pos. apply Qltb_lt in Hf.
      apply Qmult_lt_0_compat; auto using Qnat_lt_0.
    + pose proof (ceil_div_pos S E HS HE). lia.
  - pose proof (ceil_div_pos S E HS HE). lia.
Qed.

Lemma argmax_in_range {A : Type} (ltb : A -> A -> bool) E (m : list (list A)) :
  (0 < E)%nat -> rect E m ->
  Forall (fun i => (0 <= i < Z.of_nat E)%Z)
         (map (fun r => Z.of_nat (argmax_row ltb r)) m).
Proof.
  intros HE Hg. apply Forall_forall. intros i [r [<- Hr]]%in_map_iff.
  pose proof (rect_in _ _ _ Hg Hr) as Hl.
  pose proof (argmax_row_lt ltb r ltac:(lia)). lia.
Qed.

Lemma if_pair {A B : Type} (b : bool) (x y : A * B) :
  (if b then x else y) = (if b then fst x else fst y, if b then snd x else snd y).
Proof. now destruct b, x, y. Qed.

Lemma padded_pair (input_mask : option (list bool)) (a b : list (list Z)) :
  match input_mask with
  | Some im =>
      if any im
      then (scale_rows_z a (nonpadding_of im), scale_rows_z b (nonpadding_of im))
      else (a, b)
  | None => (a, b)
  end = (padded input_mask a, padded input_mask b).
Proof. destruct input_mask as [im|]; cbn; [destruct (any im)|]; reflexivity. Qed.

Lemma sum_dim0_bits_nonneg n m e :
  rect n m -> binary m -> (0 <= nth e (sum_dim0_z n m) 0)%Z.
Proof.
  intros Hr Hb. destruct (Nat.lt_ge_cases e n) as [He|He].
  - rewrite (sum_dim0_z_nth n); auto. apply sumZ_bits_nonneg, col_bits, Hb.
  - rewrite nth_overflow; [lia|]. rewrite (sum_dim0_z_length n); auto.
Qed.

(** The two slot tensors of a [top2gating] call can be built. *)
Lemma top2_slots_bounded n bpr m1 m2 order C :
  selection n m1 -> selection n m2 -> length m1 = length m2 ->
  Permutation order (seq 0 (length m1)) ->
  m1 = [] \/ (1 <= C)%Z ->
  let loc1 := base_locations bpr m1 order in
  let loc2 := add_row (base_locations bpr m2 order) (sum_dim0_z n m1) in
  Forall (fun i => (0 <= i < C)%Z)
    (sum_dim1_z (mul_zz loc1 (mul_zb m1 (lt_scalar loc1 C)))) /\
  Forall (fun i => (0 <= i < C)%Z)
    (sum_dim1_z (mul_zz loc2 (mul_zb m2 (lt_scalar loc2 C)))).
Proof.
  intros S1 S2 Hlen HP HC. cbv zeta.
  assert (HP2 : Permutation order (seq 0 (length m2))) by now rewrite <- Hlen.
  assert (Hn1 : length (sum_dim0_z n m1) = n) by apply sum_dim0_z_length, S1.
  assert (R2 : rect n (base_locations bpr m2 order))
    by (apply base_locations_rect; auto; apply S2).
  split.
  - apply (stored_slots_bounded n); auto.
    + apply base_locations_rect; auto; apply S1.
    + now apply base_locations_length.
    + intros s e Hs. apply (layout_nonneg e m1); auto.
      apply (base_locations_layout n); auto; apply S1.
  - apply (stored_slots_bounded n); auto.
    + now apply add_row_rect.
    + unfold add_row. rewrite length_map. now apply base_locations_length.
    + intros s e Hs.
      destruct (rect_entry_range n m2 s e (proj1 S2) ltac:(lia)) as [Hs2 He].
      rewrite (entry_add_row n); auto;
        [|rewrite base_locations_length; auto].
      pose proof (layout_nonneg e m2 _ s
                    (base_locations_layout n e bpr m2 order (proj1 S2)
                       (proj1 (proj2 S2)) HP2) Hs).
      pose proof (sum_dim0_bits_nonneg n m1 e (proj1 S1) (proj1 (proj2 S1))).
      lia.
    + destruct HC as [->|]; [left|now right].
      destruct m2; [reflexivity|discriminate].
Qed.

Lemma top2gating_dense_ok softmax draws logits input_mask use_fp32 policy
  normalize eval_mode fraction bpr :
  (forall r, length (softmax r) = length r) ->
  well_shaped draws logits input_mask policy ->
  (0 < shape1 logits)%nat ->
  exists f,
    top2gating softmax false draws logits input_mask use_fp32 policy normalize
               eval_mode fraction bpr = Ok (Top2Dense f).
Proof.
  intros Hsm (Hwf & Him & Hsamp & Hrand) HE. unfold top2gating.
  fp32_shape logits use_fp32. rewrite length_map. fold (shape0 logits).
  rewrite top2_capacity_value by assumption. cbn [bind].
  set (C := claimed_top2_capacity _ _ _ _).
  destruct (shape1 logits) as [|E] eqn:HEq; [lia|]. cbn [argmax bind].
  pose proof (softmax_rect softmax logits Hsm Hwf) as Hrect. rewrite HEq in Hrect.
  rewrite one_hot_ok;
    [|lia|apply first_choice_in_range; [lia|assumption]].
  cbn [bind].
  set (g := map softmax (rows logits)) in *.
  set (hot1 := map (one_hot_row (Z.of_nat (S E))) (map _ g)).
  set (lw := if (policy =? "sampling")%string then _ else _).
  assert (Hlg : length g = shape0 logits) by apply length_map.
  assert (Hl1 : length hot1 = shape0 logits)
    by (unfold hot1; now rewrite !length_map).
  assert (Hlw : rect (S E) lw /\ length lw = shape0 logits).
  { unfold lw. destruct (String.eqb_spec policy "sampling") as [Hp|Hp].
    - destruct (Hsamp Hp) as [Hgl Hgr]. split.
      + apply rect_zip_with; auto. now rewrite <- HEq.
      + unfold add_qq. rewrite zip_with_length, Hgl. apply Nat.min_id.
    - split; auto. now rewrite <- HEq. }
  destruct Hlw as [Rlw Llw].
  assert (Rhot1 : rect (S E) hot1).
  { unfold hot1. rewrite <- (Nat2Z.id (S E)) at 1. apply hot_rect. }
  rewrite one_hot_ok;
    [|lia|apply argmax_in_range; [lia|];
          unfold masked_fill_neginf; now apply rect_zip_with].
  cbn [bind].
  set (hot2 := map (one_hot_row (Z.of_nat (S E))) (map _ (masked_fill_neginf lw hot1))).
  assert (Hl2 : length hot2 = shape0 logits).
  { unfold hot2, masked_fill_neginf.
    rewrite !length_map, zip_with_length, Llw, Hl1. apply Nat.min_id. }
  rewrite (if_pair normalize). cbn [fst snd].
  rewrite padded_pair.
  rewrite (if_pair bpr). cbn [fst snd].
  rewrite (if_pair (negb normalize)). cbn [fst snd].
  set (m1 := padded input_mask hot1).
  set (m2 := padded input_mask _).
  fold (importance_order g).
  assert (S1 : selection (S E) m1)
    by (apply selection_padded, selection_hot).
  assert (S2 : selection (S E) m2).
  { apply selection_padded. destruct (String.eqb policy "random");
      [apply selection_keep_rows|]; apply selection_hot. }
  assert (Lm1 : length m1 = shape0 logits).
  { unfold m1. rewrite padded_length; auto. intros v ->. rewrite Hl1. now apply Him. }
  assert (Lm2 : length m2 = shape0 logits).
  { unfold m2.
    match goal with
    | |- length (padded _ ?x) = _ =>
        assert (Hk : length x = shape0 logits)
    end.
    { destruct (String.eqb_spec policy "random") as [Hp|Hp]; auto.
      rewrite keep_rows_length; auto.
      rewrite zip_with_length, (Hrand Hp).
      destruct normalize; unfold sum_dim1_q, mul_qz, clamp_min;
        repeat rewrite ?zip_with_length, ?length_map; lia. }
    rewrite padded_length; auto. intros v ->. rewrite Hk. now apply Him. }
  assert (HP : Permutation (importance_order g) (seq 0 (length m1))).
  { rewrite Lm1, <- Hlg. apply importance_order_perm. }
  assert (HC : m1 = [] \/ (1 <= C)%Z).
  { destruct (shape0 logits) as [|n] eqn:HS.
    - left. destruct m1; [reflexivity|discriminate].
    - right. apply top2_capacity_pos; lia. }
  assert (H0C : (0 <= C)%Z).
  { destruct HC as [Hn|]; [|lia]. unfold C.
    rewrite <- Lm1, Hn. cbn [length].
    pose proof (top2_capacity_value 0 (S E) eval_mode fraction HE) as Hv.
    apply top2_capacity_empty in Hv; auto. unfold C in *. lia. }
  destruct (top2_slots_bounded (S E) bpr m1 m2 (importance_order g) C
              S1 S2 ltac:(lia) HP HC) as [B1 B2].
  destruct bpr; cbn [base_locations] in B1, B2;
    (rewrite one_hot_ok; [cbn [bind]|lia|exact B1]);
    (rewrite one_hot_ok; [cbn [bind]; eexists; reflexivity|lia|exact B2]).
Qed.

Lemma top1_capacity_pos S E capacity_factor eval_mode fraction :
  (0 < S)%nat -> (0 < E)%nat ->
  1 <= capacity_factor \/ (eval_mode = true /\ 0 < fraction) ->
  (1 <= truncated_top1_capacity S E capacity_factor eval_mode fraction)%Z.
Proof.
  intros HS HE Hc. unfold truncated_top1_capacity.
  destruct (eval_mode && Qltb 0 fraction) eqn:Hb.
  - apply andb_prop in Hb as [_ Hf]. apply Qltb_lt in Hf.
    apply Qceiling_pos, Qmult_lt_0_compat; auto using Qnat_lt_0.
  - destruct Hc as [Hc|[-> Hf]];
      [|apply Qltb_lt in Hf; rewrite Hf in Hb; discriminate].
    pose proof (ceil_div_pos S E HS HE) as Hd.
    assert (H1 : inject_Z 1 <= capacity_factor * inject_Z (ceil_div S E)).
    { rewrite Zle_Qle in Hd.
      setoid_replace (inject_Z 1) with (1 * inject_Z 1) by (cbn; ring).
      apply Qmult_le_compat_nonneg; split; auto; unfold Qle; cbn; lia. }
    rewrite py_int_floor
      by (eapply Qle_trans; [|exact H1]; unfold Qle; cbn; lia).
    apply Qfloor_resp_le in H1. now rewrite Qfloor_Z in H1.
Qed.

Lemma wf_4x2 : wf_tensor logits_4x2.
Proof. repeat constructor. Qed.

Lemma wf_3x3 : wf_tensor logits_3x3.
Proof. repeat constructor. Qed.

(** X1 (when dense top-1 routing returns).  For a rectangular logits tensor
    over at least one expert and a padding mask of one flag per token, the
    dense path of [top1gating] returns exactly when the batch is empty or
    the capacity holds at least one slot; with a token to route and a
    capacity of zero or less it raises a [RuntimeError]. *)
Theorem top1gating_returns_iff softmax logits input_mask use_fp32
  capacity_factor eval_mode fraction use_xmoe C :
  (forall r, length (softmax r) = length r) -> wf_tensor logits ->
  (forall im, input_mask = Some im -> length im = shape0 logits) ->
  (0 < shape1 logits)%nat ->
  top1_capacity (shape0 logits) (shape1 logits) capacity_factor eval_mode
                fraction = Ok C ->
  (shape0 logits = 0%nat \/ (1 <= C)%Z ->
   exists f,
     top1gating softmax false logits input_mask use_fp32 capacity_factor
                eval_mode fraction use_xmoe = Ok (Top1Dense f) /\
     t1_capacity f = C) /\
  ((0 < shape0 logits)%nat /\ (C <= 0)%Z ->
   top1gating softmax false logits input_mask use_fp32 capacity_factor
              eval_mode fraction use_xmoe = Raise RuntimeError).
Proof.
  intros Hsm Hwf Him HE HCap. split.
  - intros HC. now apply top1gating_dense_ok.
  - intros [HS HC]. now apply (top1gating_dense_raise _ _ _ _ _ _ _ _ C).
Qed.

Lemma top1gating_returns_iff_witness :
  (exists f,
     top1gating linear_gate false logits_4x2 None false 1 false (1 # 4) false
     = Ok (Top1Dense f) /\ t1_capacity f = 2%Z) /\
  top1gating linear_gate false logits_4x2 None false (1 # 4) false (1 # 4) false
  = Raise RuntimeError.
Proof.
  split.
  - apply (proj1 (top1gating_returns_iff linear_gate logits_4x2 None false 1
                    false (1 # 4) false 2 linear_gate_length wf_4x2
                    ltac:(discriminate) ltac:(cbn; lia) eq_refl)).
    right. lia.
  - apply (proj2 (top1gating_returns_iff linear_gate logits_4x2 None false
                    (1 # 4) false (1 # 4) false 0 linear_gate_length wf_4x2
                    ltac:(discriminate) ltac:(cbn; lia) eq_refl)).
    split; cbn; lia.
Defined.

(** X2 (top-1 routing under the usual settings).  With a capacity factor of
    at least 1, or in evaluation mode with a positive capacity fraction, the
    dense path of [top1gating] returns for every rectangular logits tensor
    over at least one expert: the capacity then holds a slot as soon as
    there is a token. *)
Theorem top1gating_default_returns softmax logits input_mask use_fp32
  capacity_factor eval_mode fraction use_xmoe :
  (forall r, length (softmax r) = length r) -> wf_tensor logits ->
  (forall im, input_mask = Some im -> length im = shape0 logits) ->
  (0 < shape1 logits)%nat ->
  1 <= capacity_factor \/ (eval_mode = true /\ 0 < fraction) ->
  exists f,
    top1gating softmax false logits input_mask use_fp32 capacity_factor
               eval_mode fraction use_xmoe = Ok (Top1Dense f) /\
    ((0 < shape0 logits)%nat -> (1 <= t1_capacity f)%Z).
Proof.
  intros Hsm Hwf Him HE Hc.
  pose proof (top1_capacity_value (shape0 logits) (shape1 logits)
                capacity_factor eval_mode fraction HE) as HCap.
  destruct (top1gating_dense_ok softmax logits input_mask use_fp32
              capacity_factor eval_mode fraction use_xmoe _ Hsm Hwf HE HCap)
    as (f & Hf & HC).
  - destruct (shape0 logits) as [|n] eqn:HS; [now left|right].
    apply top1_capacity_pos; auto; lia.
  - exists f. split; auto. intros HS. rewrite HC.
    now apply top1_capacity_pos.
Qed.

Lemma top1gating_default_returns_witness :
  exists f,
    top1gating linear_gate false logits_4x2 None false 1 true (1 # 4) false
    = Ok (Top1Dense f) /\
    ((0 < shape0 logits_4x2)%nat -> (1 <= t1_capacity f)%Z).
Proof.
  apply (top1gating_default_returns linear_gate logits_4x2 None false 1 true
           (1 # 4) false linear_gate_length wf_4x2 ltac:(discriminate)
           ltac:(cbn; lia)).
  left. unfold Qle; cbn; lia.
Defined.

(** X3 (dense top-2 routing always returns).  For well-shaped arguments over
    at least one expert the dense path of [top2gating] returns, whatever the
    policy and the flags: its capacity, 2 * ceil(S / E) or ceil(fraction * S)
    with a positive fraction, holds a slot as soon as there is a token, so
    both one-hot slot tensors can be built. *)
Theorem top2gating_always_returns softmax draws logits input_mask use_fp32
  policy normalize eval_mode fraction bpr :
  (forall r, length (softmax r) = length r) ->
  well_shaped draws logits input_mask policy ->
  (0 < shape1 logits)%nat ->
  exists f,
    top2gating softmax false draws logits input_mask use_fp32 policy normalize
               eval_mode fraction bpr = Ok (Top2Dense f) /\
    ((0 < shape0 logits)%nat -> (1 <= t2_capacity f)%Z).
Proof.
  intros Hsm Hws HE.
  destruct (top2gating_dense_ok softmax draws logits input_mask use_fp32
              policy normalize eval_mode fraction bpr Hsm Hws HE) as [f Hf].
  exists f. split; auto. intros HS.
  pose proof (top2gating_dense_inv _ _ _ _ _ _ _ _ _ _ _ Hf) as Hinv.
  cbv zeta in Hinv. destruct Hinv as (_ & _ & _ & HCap & _).
  rewrite top2_capacity_value in HCap by assumption.
  injection HCap as <-. now apply top2_capacity_pos.
Qed.

Lemma top2gating_always_returns_witness :
  exists f,
    top2gating linear_gate false no_draws logits_3x3 None false "none" false
               false (1 # 4) true = Ok (Top2Dense f) /\
    ((0 < shape0 logits_3x3)%nat -> (1 <= t2_capacity f)%Z).
Proof.
  apply (top2gating_always_returns linear_gate no_draws logits_3x3 None false
           "none" false false (1 # 4) true linear_gate_length well_shaped_3x3).
  cbn; lia.
Defined.

(** ** The accelerated return *)

Lemma top1gating_tutel_inv softmax logits input_mask use_fp32 capacity_factor
  eval_mode fraction use_xmoe r :
  top1gating softmax true logits input_mask use_fp32 capacity_factor
             eval_mode fraction use_xmoe = Ok r ->
  let E := shape1 logits in
  let gates := map softmax (rows logits) in
  let idx := map (fun r => Z.of_nat (argmax_row Qltb r)) gates in
  let m := padded input_mask (map (one_hot_row (Z.of_nat E)) idx) in
  exists C,
    (0 < E)%nat /\
    top1_capacity (shape0 logits) E capacity_factor eval_mode fraction = Ok C /\
    r = Top1Tutel
          (mean_q (zip_with Qmult (mean_dim0_q E gates) (mean_dim0_z E m))
           * Qnat E * Qnat E)
          C E [idx] [sum_dim1_z (mul_zz (fused_cumsum_sub_one m) m)]
          [sum_dim1_q (mul_qz gates m)].
Proof.
  unfold top1gating. intros H.
  apply bind_ok in H as (C & HCap & H).
  apply bind_ok in H as (idx & Hidx & H).
  apply bind_ok in H as (m1 & Hm1 & H).
  injection H as <-.
  assert (Hrows : rows (if use_fp32 then to_float logits else logits) = rows logits)
    by now destruct use_fp32.
  assert (Hsh : shape1 (if use_fp32 then to_float logits else logits) = shape1 logits)
    by now destruct use_fp32.
  rewrite Hrows, Hsh in *.
  apply argmax_inv in Hidx as [HE ->].
  apply one_hot_inv in Hm1 as (-> & _ & _).
  rewrite length_map in HCap. cbv zeta. exists C. repeat split; auto.
Qed.

(** A token whose selection was cut is one whose location reaches the
    capacity. *)
Lemma entry_cut_value n m loc C s e :
  rect n m -> rect n loc -> length loc = length m ->
  (s < length m)%nat -> (e < n)%nat ->
  entry (mul_zb m (lt_scalar loc C)) s e
  = if (entry loc s e <? C)%Z then entry m s e else 0%Z.
Proof.
  intros Hm Hl Hlen Hs He.
  rewrite <- !col_nth, (col_cut n); auto.
  rewrite (zip_with_nth _ _ _ _ 0%Z false)
    by (rewrite ?length_map, !col_length; lia).
  rewrite (nth_map_in _ _ _ 0%Z) by (rewrite col_length; lia).
  reflexivity.
Qed.

Lemma dropped_row_zero n m loc C s e :
  selection n m -> rect n loc -> length loc = length m ->
  entry m s e = 1%Z -> entry (mul_zb m (lt_scalar loc C)) s e = 0%Z ->
  (C <= entry loc s e)%Z /\
  nth s (sum_dim1_z (mul_zz loc (mul_zb m (lt_scalar loc C)))) 0%Z = 0%Z.
Proof.
  intros Hsel Hl Hlen Hm Hcut.
  destruct (rect_entry_range n m s e (proj1 Hsel) ltac:(lia)) as [Hs He].
  rewrite (entry_cut_value n) in Hcut by (auto; apply Hsel).
  destruct (entry loc s e <? C)%Z eqn:Hlt; [lia|].
  split; [now apply Z.ltb_ge|].
  assert (Hl' : length (mul_zb m (lt_scalar loc C)) = length m)
    by (rewrite mul_zb_length; rewrite ?lt_scalar_length; lia).
  rewrite sum_dim1_mul_nth by lia.
  apply zero_row_sum_z. intros e'.
  destruct (Nat.lt_ge_cases e' n) as [He'|He'].
  - change (nth e' (nth s (mul_zb m (lt_scalar loc C)) []) 0%Z)
      with (entry (mul_zb m (lt_scalar loc C)) s e').
    rewrite (entry_cut_value n) by (auto; apply Hsel).
    destruct (Nat.eq_dec e' e) as [->|Hne]; [now rewrite Hlt|].
    destruct (selection_nth_row n m s Hsel Hs) as [Hb Ho].
    unfold entry at 2.
    rewrite (single_bit_row (nth s m []) e e' Hb Ho Hm Hne).
    now destruct (entry loc s e' <? C)%Z.
  - apply nth_overflow.
    pose proof (selection_cut n m loc C Hsel Hl) as (Hr & _).
    rewrite (rect_in n (mul_zb m (lt_scalar loc C))
               (nth s (mul_zb m (lt_scalar loc C)) [])); auto.
    apply nth_In. lia.
Qed.

(** X4 (the two return paths of top-1 routing agree).  When the accelerated
    and the dense path of [top1gating] both return on the same arguments,
    they report the same loss, capacity, first choices and gate values; the
    location the accelerated path reports for a token is the slot the dense
    path stores when the token is admitted, and reaches the capacity when
    the dense path drops the token (and stores 0). *)
Theorem top1_paths_agree softmax logits input_mask use_fp32 capacity_factor
  eval_mode fraction use_xmoe l C n idx loc g f :
  top1gating softmax true logits input_mask use_fp32 capacity_factor
             eval_mode fraction use_xmoe = Ok (Top1Tutel l C n idx loc g) ->
  top1gating softmax false logits input_mask use_fp32 capacity_factor
             eval_mode fraction use_xmoe = Ok (Top1Dense f) ->
  l = t1_l_aux f /\ C = t1_capacity f /\ n = shape1 logits /\
  idx = [t1_indices1_s f] /\ g = [t1_gates1_s f] /\
  exists loc1,
    loc = [loc1] /\
    forall s e,
      entry (t1_mask1_sel f) s e = 1%Z ->
      (entry (t1_mask1 f) s e = 1%Z ->
       nth s loc1 0%Z = nth s (t1_locations1_s f) 0%Z) /\
      (entry (t1_mask1 f) s e = 0%Z ->
       (t1_capacity f <= nth s loc1 0)%Z /\
       nth s (t1_locations1_s f) 0%Z = 0%Z).
Proof.
  intros HT HD.
  pose proof (top1_frame_selection _ _ _ _ _ _ _ _ _ HD)
    as (Hsel & Hsel' & Hlr & Hll).
  apply top1gating_tutel_inv in HT. cbv zeta in HT.
  destruct HT as (C' & HE & HCap & HT). injection HT as -> -> -> -> -> ->.
  apply top1gating_dense_inv in HD. cbv zeta in HD.
  destruct HD as (_ & HC & HCap' & Hl & Hg & Hi & Hm & Hg1 & Hloc & Hm1 & Hls & _).
  rewrite HCap in HCap'. injection HCap' as ->.
  rewrite <- Hg, <- Hi, <- Hm, <- Hloc, <- Hg1, <- Hl.
  repeat split. eexists. split; [reflexivity|].
  assert (Hlen : length (t1_locations1 f) = length (t1_mask1_sel f))
    by (rewrite Hloc; apply fused_cumsum_length).
  intros s e Hs.
  assert (Hslot : nth s (sum_dim1_z (mul_zz (t1_locations1 f) (t1_mask1_sel f))) 0%Z
                  = entry (t1_locations1 f) s e).
  { apply admitted_slot; auto; apply Hsel. }
  rewrite Hslot, Hls, Hm1. split; intros Hc.
  - destruct (admitted_facts _ _ _ _ _ _ Hsel Hlr Hlen Hc) as (_ & _ & _ & _ & ->).
    reflexivity.
  - now apply (dropped_row_zero (shape1 logits)).
Qed.

Lemma top1_paths_agree_witness :
  exists l C n idx loc g f,
    top1gating linear_gate true logits_3x3 None false 1 false (1 # 4) false
    = Ok (Top1Tutel l C n idx loc g) /\
    top1gating linear_gate false logits_3x3 None false 1 false (1 # 4) false
    = Ok (Top1Dense f) /\
    l = t1_l_aux f /\ C = t1_capacity f /\ n = shape1 logits_3x3 /\
    idx = [t1_indices1_s f] /\ g = [t1_gates1_s f] /\
    exists loc1,
      loc = [loc1] /\
      forall s e,
        entry (t1_mask1_sel f) s e = 1%Z ->
        (entry (t1_mask1 f) s e = 1%Z ->
         nth s loc1 0%Z = nth s (t1_locations1_s f) 0%Z) /\
        (entry (t1_mask1 f) s e = 0%Z ->
         (t1_capacity f <= nth s loc1 0)%Z /\
         nth s (t1_locations1_s f) 0%Z = 0%Z).
Proof.
  do 7 eexists. split; [vm_compute; reflexivity|].
  split; [vm_compute; reflexivity|].
  exact (top1_paths_agree linear_gate logits_3x3 None false 1 false (1 # 4)
           false _ _ _ _ _ _ _ eq_refl eq_refl).
Defined.

(** ** No experts *)

(** X5 (no experts).  On a logits tensor with no expert column neither
    router returns, on either path: outside evaluation mode with a positive
    capacity fraction the capacity rule divides the number of tokens by
    zero and the call raises a [ZeroDivisionError]; in that mode the
    capacity is computed and the reduction over the empty expert dimension
    raises. *)
Theorem no_experts_raise softmax has_tutel draws logits input_mask use_fp32
  capacity_factor policy normalize eval_mode fraction use_xmoe bpr :
  shape1 logits = 0%nat ->
  (exists e,
     top1gating softmax has_tutel logits input_mask use_fp32 capacity_factor
                eval_mode fraction use_xmoe = Raise e /\
     top2gating softmax has_tutel draws logits input_mask use_fp32 policy
                normalize eval_mode fraction bpr = Raise e /\
     (Qltb 0 fraction && eval_mode = false -> e = ZeroDivisionError)).
Proof.
  intros HE. unfold top1gating, top2gating.
  assert (Hsh : shape1 (if use_fp32 then to_float logits else logits) = 0%nat)
    by now destruct use_fp32.
  rewrite Hsh. unfold top1_capacity, top2_capacity.
  destruct (Qltb 0 fraction && eval_mode); cbn [py_truediv bind argmax].
  - exists RuntimeError. repeat split. discriminate.
  - exists ZeroDivisionError. repeat split.
Qed.

Lemma no_experts_raise_witness :
  exists e,
    top1gating linear_gate false (mkTensor float32 0 [[]; []]) None false 1
               false (1 # 4) false = Raise e /\
    top2gating linear_gate false no_draws (mkTensor float32 0 [[]; []]) None
               false "none" false false (1 # 4) false = Raise e /\
    (Qltb 0 (1 # 4) && false = false -> e = ZeroDivisionError).
Proof.
  exact (no_experts_raise linear_gate false no_draws
           (mkTensor float32 0 [[]; []]) None false 1 "none" false false
           (1 # 4) false false eq_refl).
Defined.

(** ** Cells of the combine weights *)



Lemma top1_frame_lengths softmax logits input_mask use_fp32 capacity_factor
  eval_mode fraction use_xmoe f :
  (forall r, length (softmax r) = length r) -> wf_tensor logits ->
  (forall im, input_mask = Some im -> length im = shape0 logits) ->
  top1gating softmax false logits input_mask use_fp32 capacity_factor
             eval_mode fraction use_xmoe = Ok (Top1Dense f) ->
  let S := shape0 logits in
  rect (shape1 logits) (t1_gates f) /\
  length (t1_gates f) = S /\ length (t1_mask1_sel f) = S /\
  length (t1_mask1 f) = S /\ length (t1_gates1_s f) = S /\
  length (t1_locations1_s f) = S /\ length (t1_locations1 f) = S.
Proof.
  intros Hsm Hwf Him H.
  pose proof (top1_frame_selection _ _ _ _ _ _ _ _ _ H)
    as (Hsel & Hsel' & Hlr & Hll).
  apply top1gating_dense_inv in H. cbv zeta in H.
  destruct H as (_ & _ & _ & _ & Hg & Hi & Hm & Hg1 & Hloc & Hm1 & Hls & _).
  assert (Lg : length (t1_gates f) = shape0 logits)
    by (rewrite Hg; apply length_map).
  assert (Lm : length (t1_mask1_sel f) = shape0 logits).
  { assert (Lh : length (map (one_hot_row (Z.of_nat (shape1 logits)))
                               (t1_indices1_s f)) = shape0 logits)
      by (rewrite Hi, !length_map; exact Lg).
    rewrite Hm, padded_length; auto. intros v ->. rewrite Lh. now apply Him. }
  assert (Ll : length (t1_locations1 f) = shape0 logits)
    by (rewrite Hloc, fused_cumsum_length; auto).
  assert (Lm1 : length (t1_mask1 f) = shape0 logits) by lia.
  cbv zeta. repeat split; auto.
  - rewrite Hg. now apply softmax_rect.
  - rewrite Hg1. unfold sum_dim1_q, mul_qz.
    rewrite length_map, zip_with_length. lia.
  - rewrite Hls. unfold sum_dim1_z, mul_zz.
    rewrite length_map, zip_with_length. lia.
Qed.


Lemma row_length_of n (m : list (list Z)) s :
  rect n m -> (s < length m)%nat -> length (nth s m []) = n.
Proof. intros Hr Hs. apply (rect_in n m). auto. now apply nth_In. Qed.







(** ** How many tokens an expert takes *)

(** Of the selected tokens of a column, those whose running count, started
    at [a] and shifted by [off], stays below [C] are the first
    [C - off - a], as far as there are that many. *)
Lemma admitted_count C off l : Forall bit l -> forall a,
  sumZ (zip_with sel l (map (fun x => (x + off <? C)%Z) (excl_from a l)))
  = Z.max 0 (Z.min (C - off - a) (sumZ l)).
Proof.
  induction 1 as [|x l Hx Hl IH]; intros a; sumz; [lia|].
  specialize (IH (a + x)%Z). pose proof (sumZ_bits_nonneg _ Hl).
  destruct Hx; subst; unfold sel at 1.
  - destruct (a + off <? C)%Z; lia.
  - destruct (a + off <? C)%Z eqn:Hc;
      [apply Z.ltb_lt in Hc|apply Z.ltb_ge in Hc]; lia.
Qed.

Lemma cut_count_off n e m v C :
  rect n m -> binary m -> length v = n -> (e < n)%nat ->
  sumZ (col 0%Z e (mul_zb m (lt_scalar
         (add_row (fused_cumsum_sub_one m) v) C)))
  = Z.max 0 (Z.min (C - nth e v 0%Z) (sumZ (col 0%Z e m))).
Proof.
  intros Hm Hb Hv He.
  rewrite (col_cut n); auto using add_row_rect, fused_cumsum_rect.
  rewrite (col_add_row n), map_map; auto using fused_cumsum_rect.
  rewrite (col_fused_cumsum n); auto.
  rewrite (admitted_count C (nth e v 0%Z) _ (col_bits e m Hb) 0%Z). lia.
Qed.

Lemma base_cut_count n e bpr m order v C :
  rect n m -> binary m -> Permutation order (seq 0 (length m)) ->
  length v = n -> (e < n)%nat ->
  sumZ (col 0%Z e (mul_zb m (lt_scalar
         (add_row (base_locations bpr m order) v) C)))
  = Z.max 0 (Z.min (C - nth e v 0%Z) (sumZ (col 0%Z e m))).
Proof.
  intros Hm Hb HP Hv He.
  destruct bpr; unfold base_locations; [|now apply (cut_count_off n)].
  rewrite (col_cut n); auto using add_row_rect, bpr_locations_rect.
  rewrite (col_add_row n), map_map; auto using bpr_locations_rect.
  rewrite (bpr_admitted n e m order Hm Hb He HP
             (fun x => (x + nth e v 0 <? C)%Z)).
  rewrite (admitted_count C (nth e v 0%Z) _ (SM_bits e m order Hb) 0%Z).
  rewrite (SM_sum e m order HP). lia.
Qed.

Lemma add_row_zero n m : rect n m -> add_row m (repeat 0%Z n) = m.
Proof.
  intros Hm. unfold add_row. rewrite <- (map_id m) at 2.
  apply map_ext_in. intros r Hr. pose proof (rect_in n m r Hm Hr) as Hl.
  clear Hr Hm m. revert n Hl.
  induction r as [|x r IH]; intros [|n] Hl; cbn in *; try lia; auto.
  rewrite Z.add_0_r, IH by lia. reflexivity.
Qed.

Lemma cut_count_first n e m C :
  rect n m -> binary m -> (0 <= C)%Z ->
  sumZ (col 0%Z e (mul_zb m (lt_scalar (fused_cumsum_sub_one m) C)))
  = Z.min C (sumZ (col 0%Z e m)).
Proof.
  intros Hm Hb HC.
  pose proof (sumZ_bits_nonneg _ (col_bits e m Hb)) as Hnn.
  destruct (Nat.lt_ge_cases e n) as [He|He].
  - rewrite <- (add_row_zero n (fused_cumsum_sub_one m))
      by now apply fused_cumsum_rect.
    rewrite (cut_count_off n); auto using repeat_length.
    rewrite nth_repeat. lia.
  - rewrite !(col_overflow n); auto; try lia.
    apply mul_zb_rect; auto using lt_scalar_rect, fused_cumsum_rect.
Qed.

Lemma base_cut_count_first n e bpr m order C :
  rect n m -> binary m -> Permutation order (seq 0 (length m)) ->
  (0 <= C)%Z ->
  sumZ (col 0%Z e (mul_zb m (lt_scalar (base_locations bpr m order) C)))
  = Z.min C (sumZ (col 0%Z e m)).
Proof.
  intros Hm Hb HP HC.
  pose proof (sumZ_bits_nonneg _ (col_bits e m Hb)) as Hnn.
  destruct (Nat.lt_ge_cases e n) as [He|He].
  - rewrite <- (add_row_zero n (base_locations bpr m order))
      by now apply base_locations_rect.
    rewrite (base_cut_count n); auto using repeat_length.
    rewrite nth_repeat. lia.
  - rewrite !(col_overflow n); auto; try lia.
    apply mul_zb_rect; auto using lt_scalar_rect, base_locations_rect.
Qed.

(** X8 (capacity is used up before a token is dropped).  In a dense
    [top1gating] return the number of tokens admitted to an expert is the
    smaller of the capacity and the number of tokens that selected it. *)
Theorem top1_admitted_count softmax logits input_mask use_fp32
  capacity_factor eval_mode fraction use_xmoe f e :
  top1gating softmax false logits input_mask use_fp32 capacity_factor
             eval_mode fraction use_xmoe = Ok (Top1Dense f) ->
  sumZ (col 0%Z e (t1_mask1 f))
  = Z.min (t1_capacity f) (sumZ (col 0%Z e (t1_mask1_sel f))).
Proof.
  intros H.
  pose proof (top1_frame_selection _ _ _ _ _ _ _ _ _ H)
    as ((Hr & Hb & _) & _ & _ & _).
  apply top1gating_dense_inv in H. cbv zeta in H.
  destruct H as (_ & HC & _ & _ & _ & _ & _ & _ & Hloc & Hm1 & _).
  rewrite Hm1, Hloc.
  now apply (cut_count_first (shape1 logits)).
Qed.

Lemma top1_admitted_count_witness :
  exists f,
    top1gating linear_gate false logits_3x3 None false 1 false (1 # 4) false
    = Ok (Top1Dense f) /\
    sumZ (col 0%Z 0 (t1_mask1 f))
    = Z.min (t1_capacity f) (sumZ (col 0%Z 0 (t1_mask1_sel f))).
Proof.
  eexists. split; [vm_compute; reflexivity|].
  match goal with
  | |- context [t1_mask1 ?F] =>
      exact (top1_admitted_count linear_gate logits_3x3 None false 1 false
               (1 # 4) false F 0%nat eq_refl)
  end.
Defined.

(** X9 (how top-2 routing fills an expert).  In a dense [top2gating] return
    on well-shaped arguments, in either admission order, an expert admits
    as many first choices as the capacity allows, and second choices only
    into the slots that all its first choices, admitted or not, leave
    free: min(C, n1) first choices and max(0, min(C - n1, n2)) second
    choices, for n1 and n2 tokens selecting the expert first and second. *)
Theorem top2_admitted_count softmax draws logits input_mask use_fp32 policy
  normalize eval_mode fraction bpr f e :
  well_shaped draws logits input_mask policy ->
  top2gating softmax false draws logits input_mask use_fp32 policy normalize
             eval_mode fraction bpr = Ok (Top2Dense f) ->
  (e < shape1 logits)%nat ->
  let n1 := sumZ (col 0%Z e (t2_mask1_sel f)) in
  let n2 := sumZ (col 0%Z e (t2_mask2_sel f)) in
  sumZ (col 0%Z e (t2_mask1 f)) = Z.min (t2_capacity f) n1 /\
  sumZ (col 0%Z e (t2_mask2 f)) = Z.max 0 (Z.min (t2_capacity f - n1) n2).
Proof.
  intros Hws H He.
  pose proof (top2_frame_shape _ _ _ _ _ _ _ _ _ _ _ Hws H) as Hsh.
  cbv zeta in Hsh.
  destruct Hsh as (_ & _ & (R1 & B1 & O1) & (R2 & B2 & O2) & Hlg & _ & _
                   & Hl1 & Hl2 & Hloc1 & Hloc2).
  apply top2gating_dense_inv in H. cbv zeta in H.
  destruct H as (_ & _ & HC & _ & _ & _ & _ & _ & _ & _ & _ & _ & _ & _ & _
                 & Hm1 & Hm2 & _).
  pose proof (importance_order_perm (t2_gates f)) as HP. rewrite Hlg in HP.
  assert (HP1 : Permutation (importance_order (t2_gates f))
                            (seq 0 (length (t2_mask1_sel f))))
    by now rewrite Hl1.
  assert (HP2 : Permutation (importance_order (t2_gates f))
                            (seq 0 (length (t2_mask2_sel f))))
    by now rewrite Hl2.
  cbv zeta. split.
  - rewrite Hm1, Hloc1. now apply (base_cut_count_first (shape1 logits)).
  - rewrite Hm2, Hloc2, (base_cut_count (shape1 logits));
      auto using sum_dim0_z_length.
    now rewrite (sum_dim0_z_nth (shape1 logits)).
Qed.

Lemma top2_admitted_count_witness :
  exists f,
    top2gating linear_gate false no_draws logits_3x3 None false "none" false
               false (1 # 4) true = Ok (Top2Dense f) /\
    sumZ (col 0%Z 0 (t2_mask1 f))
    = Z.min (t2_capacity f) (sumZ (col 0%Z 0 (t2_mask1_sel f))) /\
    sumZ (col 0%Z 0 (t2_mask2 f))
    = Z.max 0 (Z.min (t2_capacity f - sumZ (col 0%Z 0 (t2_mask1_sel f)))
                     (sumZ (col 0%Z 0 (t2_mask2_sel f)))).
Proof.
  eexists. split; [vm_compute; reflexivity|].
  match goal with
  | |- context [t2_mask1 ?F] =>
      exact (top2_admitted_count linear_gate no_draws logits_3x3 None false
               "none" false false (1 # 4) true F 0%nat well_shaped_3x3 eq_refl
               ltac:(cbn; lia))
  end.
Defined.

(** ** Cells of top-2 routing *)






(** ** Padding *)





(** ** Total weight of a token *)

Lemma sumQ_map_ext {A : Type} (f g : A -> Q) l :
  (forall x, In x l -> f x == g x) -> sumQ (map f l) == sumQ (map g l).
Proof.
  induction l as [|x l IH]; intros H; cbn [map]; [reflexivity|].
  rewrite !sumQ_cons. rewrite (H x) by (cbn; auto).
  rewrite IH by (intros y Hy; apply H; cbn; auto). reflexivity.
Qed.

Lemma sumQ_map_plus {A : Type} (f g : A -> Q) l :
  sumQ (map (fun x => f x + g x) l) == sumQ (map f l) + sumQ (map g l).
Proof.
  induction l as [|x l IH]; cbn [map]; [cbn; ring|].
  rewrite !sumQ_cons, IH. ring.
Qed.

Lemma row_sum_as_seq n m s :
  rect n m -> (s < length m)%nat ->
  sumZ (map (fun e => entry m s e) (seq 0 n)) = sumZ (nth s m []).
Proof.
  intros Hr Hs. unfold entry.
  rewrite <- (row_length_of n m s Hr Hs). now rewrite map_nth_seq.
Qed.

(** A gate value times the number of experts its mask row selects is the
    gate value itself when the value was read through that row. *)
Lemma masked_gate_total n gates m s :
  selection n m -> (s < length gates)%nat -> (s < length m)%nat ->
  nth s (sum_dim1_q (mul_qz gates m)) 0 * inject_Z (sumZ (nth s m []))
  == nth s (sum_dim1_q (mul_qz gates m)) 0.
Proof.
  intros Hsel Hg Hs.
  destruct (selection_nth_row n m s Hsel Hs) as [Hb Ho].
  destruct (bits_zero_or_one _ Hb) as [Hz|[e He]].
  - rewrite sum_dim1_q_nth by assumption.
    rewrite zero_row_sum_q by assumption. ring.
  - assert (H1 : sumZ (nth s m []) = 1%Z).
    { pose proof (bits_nth_le_sum _ Hb e). lia. }
    rewrite H1. cbn. ring.
Qed.

Lemma eps_of_pos logits use_fp32 : 0 < eps_of logits use_fp32.
Proof.
  unfold eps_of. destruct use_fp32; [reflexivity|].
  destruct (t_dtype logits); reflexivity.
Qed.

Lemma total_weight_value softmax draws logits input_mask use_fp32 policy
  normalize eval_mode fraction bpr f s :
  well_shaped draws logits input_mask policy ->
  top2gating softmax false draws logits input_mask use_fp32 policy normalize
             eval_mode fraction bpr = Ok (Top2Dense f) ->
  (s < shape0 logits)%nat ->
  total_weight (shape1 logits) f s
  == nth s (t2_gates1_s f) 0 * inject_Z (sumZ (nth s (t2_mask1 f) []))
     + nth s (t2_gates2_s f) 0 * inject_Z (sumZ (nth s (t2_mask2 f) [])).
Proof.
  intros Hws H Hs.
  pose proof (top2_frame_lengths _ _ _ _ _ _ _ _ _ _ _ Hws H) as Hl.
  cbv zeta in Hl.
  destruct Hl as (Lm1 & Lm2 & _ & _ & _ & _ & (R1 & _) & (R2 & _)).
  unfold total_weight.
  rewrite (sumQ_map_ext _
             (fun e => nth s (t2_gates1_s f) 0 * inject_Z (entry (t2_mask1 f) s e)
                       + nth s (t2_gates2_s f) 0
                         * inject_Z (entry (t2_mask2 f) s e))).
  - rewrite sumQ_map_plus.
    rewrite <- (row_sum_as_seq (shape1 logits) (t2_mask1 f) s) by (auto; lia).
    rewrite <- (row_sum_as_seq (shape1 logits) (t2_mask2 f) s) by (auto; lia).
    rewrite <- !sumQ_scale, !map_map. reflexivity.
  - intros e He%in_seq.
    apply (top2_weight _ _ _ _ _ _ _ _ _ _ _ _ _ Hws H); lia.
Qed.

(** X12 (weights of a token sum to one).  Under the default normalisation
    (after dropping), in a dense [top2gating] return on well-shaped
    arguments, the combine weights of a token over all experts and slots sum
    to 1 as soon as the gate probability at its admitted choices reaches
    the machine epsilon of the gate dtype. *)
Theorem combine_weights_sum_to_one softmax draws logits input_mask use_fp32
  policy eval_mode fraction bpr f s :
  well_shaped draws logits input_mask policy ->
  top2gating softmax false draws logits input_mask use_fp32 policy false
             eval_mode fraction bpr = Ok (Top2Dense f) ->
  (s < shape0 logits)%nat ->
  eps_of logits use_fp32 <= admitted_mass f s ->
  total_weight (shape1 logits) f s == 1.
Proof.
  intros Hws H Hs Hmass.
  rewrite (total_weight_value _ _ _ _ _ _ _ _ _ _ _ _ Hws H Hs).
  pose proof (top2_frame_lengths _ _ _ _ _ _ _ _ _ _ _ Hws H) as Hl.
  cbv zeta in Hl.
  destruct Hl as (Lm1 & Lm2 & _ & _ & _ & _ & S1 & S2).
  pose proof (top2_frame_shape _ _ _ _ _ _ _ _ _ _ _ Hws H) as Hsh.
  cbv zeta in Hsh. destruct Hsh as (_ & _ & _ & _ & Lg & _).
  apply top2gating_dense_inv in H. cbv zeta in H.
  destruct H as (_ & _ & _ & _ & _ & _ & _ & _ & _ & _ & _ & _ & _ & _ & _
                 & _ & _ & Hgp & _).
  cbn [negb] in Hgp. unfold admitted_mass in Hmass.
  set (a := sum_dim1_q (mul_qz (t2_gates f) (t2_mask1 f))) in *.
  set (b := sum_dim1_q (mul_qz (t2_gates f) (t2_mask2 f))) in *.
  assert (La : length a = shape0 logits)
    by (unfold a, sum_dim1_q, mul_qz; rewrite length_map, zip_with_length; lia).
  assert (Lb : length b = shape0 logits)
    by (unfold b, sum_dim1_q, mul_qz; rewrite length_map, zip_with_length; lia).
  destruct (normalized_nth (eps_of logits use_fp32) a b s
              ltac:(lia) ltac:(lia) Hmass) as [H1 H2].
  rewrite <- Hgp in H1, H2. cbn [fst snd] in H1, H2. rewrite H1, H2.
  pose proof (masked_gate_total (shape1 logits) (t2_gates f) (t2_mask1 f) s
                S1 ltac:(lia) ltac:(lia)) as Ha.
  pose proof (masked_gate_total (shape1 logits) (t2_gates f) (t2_mask2 f) s
                S2 ltac:(lia) ltac:(lia)) as Hb.
  fold a in Ha. fold b in Hb.
  pose proof (eps_of_pos logits use_fp32) as Heps.
  assert (Hd : ~ nth s a 0 + nth s b 0 == 0).
  { intros Hz. rewrite Hz in Hmass. apply (Qlt_not_le _ _ Heps Hmass). }
  set (x := nth s a 0) in *. set (y := nth s b 0) in *.
  set (r1 := inject_Z (sumZ (nth s (t2_mask1 f) []))) in *.
  set (r2 := inject_Z (sumZ (nth s (t2_mask2 f) []))) in *.
  setoid_replace (x / (x + y) * r1 + y / (x + y) * r2)
    with ((x * r1 + y * r2) / (x + y)) by (field; exact Hd).
  rewrite Ha, Hb. field. exact Hd.
Qed.

Lemma combine_weights_sum_to_one_witness :
  exists f,
    top2gating linear_gate false no_draws logits_3x3 None false "none" false
               false (1 # 4) false = Ok (Top2Dense f) /\
    total_weight 3 f 0 == 1.
Proof.
  eexists. split; [vm_compute; reflexivity|].
  match goal with
  | |- total_weight _ ?F _ == 1 =>
      exact (combine_weights_sum_to_one linear_gate no_draws logits_3x3 None
               false "none" false (1 # 4) false F 0%nat well_shaped_3x3
               eq_refl ltac:(cbn; lia) ltac:(vm_compute; discriminate))
  end.
Defined.

(** ** Range of the balance loss *)

Lemma sumQ_nonneg l : Forall (fun x => 0 <= x) l -> 0 <= sumQ l.
Proof.
  induction 1 as [|x l Hx Hl IH]; [cbn; apply Qle_refl|].
  rewrite sumQ_cons. replace 0 with (0 + 0) by reflexivity.
  now apply Qplus_le_compat.
Qed.

Lemma sumQ_zip_mult_bounds a : forall b,
  Forall (fun x => 0 <= x) a -> Forall (fun y => 0 <= y <= 1) b ->
  0 <= sumQ (zip_with Qmult a b) <= sumQ a.
Proof.
  induction a as [|x a IH]; intros [|y b] Ha Hb; cbn [zip_with].
  - split; apply Qle_refl.
  - split; apply Qle_refl.
  - split; [apply Qle_refl|]. now apply sumQ_nonneg.
  - inversion Ha as [|? ? Hx Ha']; inversion Hb as [|? ? Hy Hb']; subst.
    destruct (IH b Ha' Hb') as [H0 H1]. rewrite !sumQ_cons.
    assert (Hxy : 0 <= x * y) by (apply Qmult_le_0_compat; tauto).
    assert (Hxy1 : x * y <= x) by nra.
    split; lra.
Qed.

(** Summed over the columns, the column sums of a matrix are the row sums
    summed over the rows. *)
Lemma sum_dim0_q_total n m :
  rect n m -> sumQ (sum_dim0_q n m) == sumQ (map sumQ m).
Proof.
  intros Hm. induction Hm as [|r m Hr Hm IH].
  - unfold sum_dim0_q. cbn [fold_right map].
    induction n as [|n IHn]; cbn [repeat]; [reflexivity|].
    rewrite sumQ_cons, IHn. reflexivity.
  - pose proof (sum_dim0_q_length _ _ Hm) as Hl.
    unfold sum_dim0_q in *. cbn [fold_right map].
    rewrite sumQ_plus by lia. rewrite sumQ_cons, IH. reflexivity.
Qed.

Lemma sum_dim0_q_nonneg n m :
  Forall (Forall (fun x => 0 <= x)) m ->
  Forall (fun x => 0 <= x) (sum_dim0_q n m).
Proof.
  unfold sum_dim0_q. induction 1 as [|r m Hr Hm IH]; cbn [fold_right].
  - apply Forall_forall. intros x Hx%repeat_spec. subst. apply Qle_refl.
  - revert IH. generalize (fold_right (zip_with Qplus) (repeat 0 n) m).
    induction Hr as [|x r Hx Hr IHr]; intros [|y acc] Hacc; cbn [zip_with];
      constructor.
    + inversion Hacc; subst. lra.
    + apply IHr. now inversion Hacc.
Qed.

Lemma column_count_le m e :
  binary m -> (0 <= sumZ (col 0%Z e m) <= Z.of_nat (length m))%Z.
Proof.
  intros Hb. pose proof (col_bits e m Hb) as Hc.
  rewrite <- (col_length 0%Z e m).
  induction Hc as [|x l Hx Hl IH]; cbn [length]; rewrite ?sumZ_nil, ?sumZ_cons.
  - cbn. lia.
  - destruct Hx; subst; lia.
Qed.

Lemma Qnat_div_bounds x S :
  (0 < S)%nat -> (0 <= x <= Z.of_nat S)%Z -> 0 <= inject_Z x / Qnat S <= 1.
Proof.
  intros HS [H0 H1]. pose proof (Qnat_lt_0 S HS) as Hp.
  rewrite Zle_Qle in H0, H1. fold (Qnat S) in H1. change (inject_Z 0) with 0 in H0.
  split.
  - apply Qle_shift_div_l; [exact Hp|lra].
  - apply Qle_shift_div_r; [exact Hp|lra].
Qed.

Lemma sumQ_map_div d l : sumQ (map (fun x => x / d) l) == sumQ l / d.
Proof.
  induction l as [|x l IH]; cbn [map].
  - cbn. unfold Qdiv. ring.
  - rewrite !sumQ_cons, IH. unfold Qdiv. ring.
Qed.

(** The loss both routers compute lies between 0 and the number of experts
    when every gate row is a probability distribution. *)
Lemma l_aux_bounds E gates mask :
  (0 < E)%nat -> (1 <= length gates)%nat -> length mask = length gates ->
  rect E gates -> rect E mask -> binary mask ->
  Forall (fun r => Forall (fun x => 0 <= x) r /\ sumQ r == 1) gates ->
  0 <= l_aux_of E gates mask <= Qnat E.
Proof.
  intros HE HS Hlen Hg Hm Hb Hp. unfold l_aux_of, mean_q.
  pose proof (Qnat_lt_0 E HE) as HEp.
  pose proof (Qnat_lt_0 (length gates) ltac:(lia)) as HSp.
  set (me := mean_dim0_q E gates). set (ce := mean_dim0_z E mask).
  assert (Lme : length me = E)
    by (unfold me, mean_dim0_q; now rewrite length_map, sum_dim0_q_length).
  assert (Lce : length ce = E)
    by (unfold ce, mean_dim0_z; now rewrite length_map, sum_dim0_z_length).
  assert (Hme : Forall (fun x => 0 <= x) me).
  { unfold me, mean_dim0_q. apply Forall_forall.
    intros y [x [<- Hx]]%in_map_iff.
    assert (H0 : 0 <= x).
    { apply (proj1 (Forall_forall _ _)
                (sum_dim0_q_nonneg E gates
                   (Forall_impl _ (fun r Hr => proj1 Hr) Hp)) x Hx). }
    apply Qle_shift_div_l; [exact HSp|lra]. }
  assert (Hce : Forall (fun y => 0 <= y <= 1) ce).
  { unfold ce, mean_dim0_z. apply Forall_forall.
    intros y [x [<- Hx]]%in_map_iff.
    apply (In_nth _ _ 0%Z) in Hx as (e & He & <-).
    rewrite sum_dim0_z_length in He by assumption.
    rewrite sum_dim0_z_nth by assumption. rewrite Hlen.
    apply Qnat_div_bounds; [lia|]. rewrite <- Hlen. now apply column_count_le. }
  assert (Hsum : sumQ me == 1).
  { unfold me, mean_dim0_q. rewrite sumQ_map_div, sum_dim0_q_total by assumption.
    assert (Hrows : sumQ (map sumQ gates) == Qnat (length gates)).
    { clear -Hp. induction Hp as [|r m [_ Hr] Hm IH]; [reflexivity|].
      cbn [map length]. rewrite sumQ_cons, Hr, IH, Qnat_succ. reflexivity. }
    rewrite Hrows. field. lra. }
  destruct (sumQ_zip_mult_bounds me ce Hme Hce) as [H0 H1].
  rewrite Hsum in H1.
  rewrite zip_with_length, Lme, Lce, Nat.min_id.
  set (t := sumQ (zip_with Qmult me ce)) in *.
  setoid_replace (t / Qnat E * Qnat E * Qnat E) with (t * Qnat E)
    by (field; lra).
  split; nra.
Qed.

(** X13 (range of the balance loss).  When the gate rows of a non-empty
    batch are probability distributions, the auxiliary loss of the dense
    return of either router lies between 0 and the number of experts. *)
Theorem balance_loss_range (softmax : list Q -> list Q) logits :
  (forall r, length (softmax r) = length r) -> wf_tensor logits ->
  (forall r, In r (rows logits) ->
     Forall (fun x => 0 <= x) (softmax r) /\ sumQ (softmax r) == 1) ->
  (1 <= shape0 logits)%nat ->
  (forall input_mask use_fp32 capacity_factor eval_mode fraction use_xmoe f,
     (forall im, input_mask = Some im -> length im = shape0 logits) ->
     top1gating softmax false logits input_mask use_fp32 capacity_factor
                eval_mode fraction use_xmoe = Ok (Top1Dense f) ->
     0 <= t1_l_aux f <= Qnat (shape1 logits)) /\
  (forall draws input_mask use_fp32 policy normalize eval_mode fraction bpr f,
     well_shaped draws logits input_mask policy ->
     top2gating softmax false draws logits input_mask use_fp32 policy normalize
                eval_mode fraction bpr = Ok (Top2Dense f) ->
     0 <= t2_l_aux f <= Qnat (shape1 logits)).
Proof.
  intros Hsm Hwf Hp HS.
  assert (Hdist : Forall (fun r => Forall (fun x => 0 <= x) r /\ sumQ r == 1)
                         (map softmax (rows logits))).
  { apply Forall_forall. intros y [r [<- Hr]]%in_map_iff. now apply Hp. }
  pose proof (softmax_rect softmax logits Hsm Hwf) as Hrect.
  split.
  - intros input_mask use_fp32 capacity_factor eval_mode fraction use_xmoe f
      Him H.
    pose proof (top1_frame_lengths _ _ _ _ _ _ _ _ _ Hsm Hwf Him H) as HL.
    cbv zeta in HL. destruct HL as (_ & Lg & Lm & _).
    pose proof (top1_frame_selection _ _ _ _ _ _ _ _ _ H)
      as ((Rm & Bm & _) & _).
    apply top1gating_dense_inv in H. cbv zeta in H.
    destruct H as (HE & _ & _ & Hl & Hg & _).
    rewrite Hl. apply l_aux_bounds; auto; try lia; now rewrite Hg.
  - intros draws input_mask use_fp32 policy normalize eval_mode fraction bpr f
      Hws H.
    pose proof (top2_frame_shape _ _ _ _ _ _ _ _ _ _ _ Hws H) as Hsh.
    cbv zeta in Hsh.
    destruct Hsh as (_ & _ & (Rm & Bm & _) & _ & Lg & _ & _ & Lm & _).
    apply top2gating_dense_inv in H. cbv zeta in H.
    destruct H as (_ & HE & _ & _ & Hl & Hg & _).
    rewrite Hl. apply l_aux_bounds; auto; try lia; now rewrite Hg.
Qed.

Lemma linear_gate_4x2 r :
  In r (rows logits_4x2) ->
  Forall (fun x => 0 <= x) (linear_gate r) /\ sumQ (linear_gate r) == 1.
Proof.
  cbn [rows logits_4x2 In].
  intros [<-|[<-|[<-|[<-|[]]]]]; split;
    try (repeat constructor; unfold Qle; cbn; lia); reflexivity.
Qed.

Lemma balance_loss_range_witness :
  exists f1 f2,
    top1gating linear_gate false logits_4x2 None false 1 false (1 # 4) false
    = Ok (Top1Dense f1) /\
    top2gating linear_gate false no_draws logits_4x2 None false "none" false
               false (1 # 4) false = Ok (Top2Dense f2) /\
    0 <= t1_l_aux f1 <= Qnat (shape1 logits_4x2) /\
    0 <= t2_l_aux f2 <= Qnat (shape1 logits_4x2).
Proof.
  do 2 eexists. split; [vm_compute; reflexivity|].
  split; [vm_compute; reflexivity|].
  destruct (balance_loss_range linear_gate logits_4x2 linear_gate_length wf_4x2
              linear_gate_4x2 ltac:(cbn; lia)) as [H1 H2].
  split.
  - apply (H1 None false 1 false (1 # 4) false); [discriminate|reflexivity].
  - apply (H2 no_draws None false "none"%string false false (1 # 4) false);
      [|reflexivity].
    repeat split; try discriminate. apply wf_4x2.
Defined.

(** ** Who is admitted first *)

(** Sequence order: of two tokens selecting the same expert, the earlier
    one has the smaller location, whatever is added to the column. *)
Lemma sequence_locations_increase n m v i j e :
  rect n m -> binary m -> length v = n ->
  (i < j)%nat -> entry m i e = 1%Z -> entry m j e = 1%Z ->
  (entry (add_row (fused_cumsum_sub_one m) v) i e
   < entry (add_row (fused_cumsum_sub_one m) v) j e)%Z.
Proof.
  intros Hm Hb Hv Hij Hi Hj.
  destruct (rect_entry_range n m i e Hm ltac:(lia)) as [Hil He].
  destruct (rect_entry_range n m j e Hm ltac:(lia)) as [Hjl _].
  rewrite !(entry_add_row n);
    auto using fused_cumsum_rect; try (rewrite fused_cumsum_length; lia).
  rewrite !(entry_fused n) by auto.
  pose proof (firstn_sum_strict _ (col_bits e m Hb) i j Hij
                ltac:(now rewrite col_nth)). lia.
Qed.

(** A selected token whose location stays below the location of an
    admitted one is admitted. *)
Lemma admitted_below n m loc C i j e :
  rect n m -> rect n loc -> length loc = length m ->
  entry m i e = 1%Z -> (entry loc i e < entry loc j e)%Z ->
  entry (mul_zb m (lt_scalar loc C)) j e = 1%Z ->
  entry (mul_zb m (lt_scalar loc C)) i e = 1%Z.
Proof.
  intros Hm Hl Hlen Hi Hlt Hj.
  destruct (rect_entry_range n m i e Hm ltac:(lia)) as [Hil He].
  destruct (entry_cut m (lt_scalar loc C) j e ltac:(lia)) as [_ Hc].
  apply lt_scalar_nth in Hc.
  rewrite (entry_cut_value n) by auto.
  destruct (entry loc i e <? C)%Z eqn:E; auto.
  apply Z.ltb_ge in E. lia.
Qed.

Lemma cut_entry_one m b s e :
  entry (mul_zb m b) s e = 1%Z -> entry m s e = 1%Z.
Proof.
  intros H. destruct (entry_cut m b s e ltac:(lia)) as [Heq _]. lia.
Qed.

Lemma sequence_locations_increase0 n m i j e :
  rect n m -> binary m ->
  (i < j)%nat -> entry m i e = 1%Z -> entry m j e = 1%Z ->
  (entry (fused_cumsum_sub_one m) i e < entry (fused_cumsum_sub_one m) j e)%Z.
Proof.
  intros Hm Hb Hij Hi Hj.
  destruct (rect_entry_range n m i e Hm ltac:(lia)) as [Hil He].
  destruct (rect_entry_range n m j e Hm ltac:(lia)) as [Hjl _].
  rewrite !(entry_fused n) by auto.
  apply (firstn_sum_strict _ (col_bits e m Hb) i j Hij).
  now rewrite col_nth.
Qed.

(** X14 (first come, first served).  In sequence order (top-1 routing, and
    top-2 routing without batch-prioritised routing) a token is never
    dropped in favour of a later one: when a token is admitted to an expert
    through a choice, every earlier token that selected the same expert
    through the same choice is admitted too. *)
Theorem first_come_first_served (softmax : list Q -> list Q) :
  (forall logits input_mask use_fp32 capacity_factor eval_mode fraction
          use_xmoe f i j e,
     top1gating softmax false logits input_mask use_fp32 capacity_factor
                eval_mode fraction use_xmoe = Ok (Top1Dense f) ->
     (i < j)%nat ->
     entry (t1_mask1_sel f) i e = 1%Z -> entry (t1_mask1 f) j e = 1%Z ->
     entry (t1_mask1 f) i e = 1%Z) /\
  (forall draws logits input_mask use_fp32 policy normalize eval_mode fraction
          f r i j e,
     well_shaped draws logits input_mask policy ->
     top2gating softmax false draws logits input_mask use_fp32 policy normalize
                eval_mode fraction false = Ok (Top2Dense f) ->
     (i < j)%nat -> selected f r i e -> admitted f r j e ->
     admitted f r i e).
Proof.
  split.
  - intros logits input_mask use_fp32 capacity_factor eval_mode fraction
      use_xmoe f i j e H Hij Hi Hj.
    pose proof (top1_frame_selection _ _ _ _ _ _ _ _ _ H)
      as ((Rm & Bm & _) & _ & Hlr & Hll).
    apply top1gating_dense_inv in H. cbv zeta in H.
    destruct H as (_ & _ & _ & _ & _ & _ & _ & _ & Hloc & Hm1 & _).
    assert (Hlen : length (t1_locations1 f) = length (t1_mask1_sel f))
      by (rewrite Hloc; apply fused_cumsum_length).
    rewrite Hm1 in *.
    apply (admitted_below (shape1 logits) _ _ _ i j e); auto.
    rewrite Hloc.
    apply (sequence_locations_increase0 (shape1 logits)); auto.
    now apply cut_entry_one in Hj.
  - intros draws logits input_mask use_fp32 policy normalize eval_mode fraction
      f r i j e Hws H Hij Hi Hj.
    pose proof (top2_frame_shape _ _ _ _ _ _ _ _ _ _ _ Hws H) as Hsh.
    cbv zeta in Hsh.
    destruct Hsh as (_ & _ & (R1 & B1 & _) & (R2 & B2 & _) & _ & _ & _
                     & Hl1 & Hl2 & Hloc1 & Hloc2).
    apply top2gating_dense_inv in H. cbv zeta in H.
    destruct H as (_ & _ & _ & _ & _ & _ & _ & _ & _ & _ & _ & _ & _ & _ & _
                   & Hm1 & Hm2 & _).
    unfold base_locations in Hloc1, Hloc2.
    unfold selected, admitted in *. destruct r.
    + rewrite Hm1 in *.
      assert (Hsel : entry (t2_mask1_sel f) j e = 1%Z)
        by now apply cut_entry_one in Hj.
      apply (admitted_below (shape1 logits) _ _ _ i j e); auto.
      * rewrite Hloc1. now apply fused_cumsum_rect.
      * rewrite Hloc1. apply fused_cumsum_length.
      * rewrite Hloc1.
        now apply (sequence_locations_increase0 (shape1 logits)).
    + rewrite Hm2 in *.
      assert (Hsel : entry (t2_mask2_sel f) j e = 1%Z)
        by now apply cut_entry_one in Hj.
      assert (Hn1 : length (sum_dim0_z (shape1 logits) (t2_mask1_sel f))
                    = shape1 logits) by now apply sum_dim0_z_length.
      apply (admitted_below (shape1 logits) _ _ _ i j e); auto.
      * rewrite Hloc2. apply add_row_rect; auto. now apply fused_cumsum_rect.
      * rewrite Hloc2. unfold add_row. rewrite length_map.
        apply fused_cumsum_length.
      * rewrite Hloc2.
        now apply (sequence_locations_increase (shape1 logits)).
Qed.

Lemma first_come_first_served_witness :
  exists f,
    top1gating linear_gate false logits_4x2 None false 1 false (1 # 4) false
    = Ok (Top1Dense f) /\
    entry (t1_mask1 f) 0 0 = 1%Z.
Proof.
  eexists. split; [vm_compute; reflexivity|].
  match goal with
  | |- entry (t1_mask1 ?F) _ _ = _ =>
      exact (proj1 (first_come_first_served linear_gate) logits_4x2 None false
               1 false (1 # 4) false F 0%nat 1%nat 0%nat eq_refl (le_n 1)
               eq_refl eq_refl)
  end.
Defined.

(** ** Batch-prioritised order *)

Lemma insert_by_sorted_q (key : nat -> Q) i l :
  StronglySorted (fun a b => key a <= key b) l ->
  StronglySorted (fun a b => key a <= key b) (insert_by Qle_bool key i l).
Proof.
  induction 1 as [|j l Hl IH Hj]; cbn.
  - repeat constructor.
  - destruct (Qle_bool (key i) (key j)) eqn:E.
    + apply Qle_bool_iff in E. constructor; [now constructor|].
      constructor; auto. eapply Forall_impl; [|exact Hj].
      cbn; intros a Ha. eapply Qle_trans; eauto.
    + assert (Hji : key j <= key i).
      { apply Qlt_le_weak, Qnot_le_lt. intros Hle.
        apply Qle_bool_iff in Hle. congruence. }
      constructor; auto.
      eapply Permutation_Forall; [symmetry; apply insert_by_perm|].
      constructor; auto.
Qed.

Lemma argsort_sorted_q keys :
  StronglySorted (fun a b => nth a keys 0 <= nth b keys 0)
                 (argsort Qle_bool 0 keys).
Proof.
  unfold argsort. induction (seq 0 (length keys)) as [|i l IH]; cbn.
  - constructor.
  - now apply insert_by_sorted_q.
Qed.

Lemma sorted_nth {A : Type} (R : A -> A -> Prop) l d :
  StronglySorted R l -> forall p q,
  (p < q)%nat -> (q < length l)%nat -> R (nth p l d) (nth q l d).
Proof.
  induction 1 as [|x l Hl IH Hx]; intros p q Hpq Hq; cbn [length] in Hq.
  - lia.
  - destruct q as [|q]; [lia|]. destruct p as [|p]; cbn [nth].
    + apply (proj1 (Forall_forall _ _) Hx). apply nth_In. lia.
    + apply IH; lia.
Qed.

(** [order.argsort()] sends a token to its place in [order]. *)
Lemma rank_place order s :
  Permutation order (seq 0 (length order)) -> (s < length order)%nat ->
  nth (nth s (argsort Nat.leb O order) O) order O = s.
Proof.
  intros HP Hs. pose proof (rank_inverse order HP) as Hinv.
  apply (f_equal (fun l => nth s l O)) in Hinv.
  rewrite seq_nth in Hinv by assumption. cbn [Nat.add] in Hinv.
  rewrite (nth_map_in _ _ _ O) in Hinv by now rewrite argsort_length.
  exact Hinv.
Qed.

(** A token with a strictly smaller key comes strictly earlier in the
    order of the keys. *)
Lemma rank_of_smaller_key keys i j :
  (i < length keys)%nat -> (j < length keys)%nat ->
  nth i keys 0 < nth j keys 0 ->
  let rank := argsort Nat.leb O (argsort Qle_bool 0 keys) in
  (nth i rank O < nth j rank O)%nat.
Proof.
  intros Hi Hj Hlt. cbv zeta.
  set (order := argsort Qle_bool 0 keys).
  set (rank := argsort Nat.leb O order).
  assert (Lo : length order = length keys) by apply argsort_length.
  assert (HP : Permutation order (seq 0 (length order)))
    by (rewrite Lo; apply argsort_perm).
  assert (Lr : length rank = length keys)
    by (unfold rank; now rewrite argsort_length).
  assert (Hri : (nth i rank O < length order)%nat).
  { assert (Hin : In (nth i rank O) rank) by (apply nth_In; lia).
    eapply Permutation_in in Hin; [|apply argsort_perm].
    apply in_seq in Hin. lia. }
  assert (Hrj : (nth j rank O < length order)%nat).
  { assert (Hin : In (nth j rank O) rank) by (apply nth_In; lia).
    eapply Permutation_in in Hin; [|apply argsort_perm].
    apply in_seq in Hin. lia. }
  pose proof (rank_place order i HP ltac:(lia)) as Pi.
  pose proof (rank_place order j HP ltac:(lia)) as Pj.
  fold rank in Pi, Pj.
  destruct (Nat.lt_total (nth i rank O) (nth j rank O)) as [|[Heq|Hgt]]; auto.
  - exfalso. rewrite Heq in Pi. rewrite Pi in Pj. rewrite Pj in Hlt.
    apply (Qlt_irrefl _ Hlt).
  - exfalso.
    pose proof (sorted_nth _ order O (argsort_sorted_q keys) _ _ Hgt Hri) as Hle.
    cbv beta in Hle. rewrite Pi, Pj in Hle.
    apply (Qlt_not_le _ _ Hlt Hle).
Qed.

(** Under batch-prioritised routing the location of a selected token is the
    number of selected tokens that precede it in the importance order. *)
Lemma bpr_entry n e m order s :
  rect n m -> binary m -> (e < n)%nat ->
  Permutation order (seq 0 (length m)) -> entry m s e = 1%Z ->
  let rank := argsort Nat.leb O order in
  let SM := gather 0%Z (col 0%Z e m) order in
  nth (nth s rank O) SM 0%Z = 1%Z /\
  entry (bpr_locations m order rank) s e = sumZ (firstn (nth s rank O) SM).
Proof.
  intros Hm Hb He HP Hs. cbv zeta.
  set (rank := argsort Nat.leb O order).
  set (SM := gather 0%Z (col 0%Z e m) order).
  destruct (rect_entry_range n m s e Hm ltac:(lia)) as [Hlen _].
  pose proof (rank_length m order HP) as Hrl.
  pose proof (rank_range m order HP) as Hrr. fold rank in Hrl, Hrr.
  assert (Hk : (nth s rank O < length m)%nat).
  { rewrite Forall_forall in Hrr. apply Hrr, nth_In. lia. }
  assert (H1 : nth (nth s rank O) SM 0%Z = 1%Z).
  { rewrite <- Hs, <- col_nth, (col_mask_by_rank e m order HP).
    fold rank SM. unfold gather at 1.
    now rewrite (nth_map_in _ _ _ O) by lia. }
  split; auto.
  rewrite <- col_nth. unfold rank.
  rewrite (col_bpr_locations n e m order Hm He HP).
  fold rank SM. unfold gather at 1.
  rewrite (nth_map_in _ _ _ O) by lia.
  pose proof (SM_length e m order HP) as HSl. fold SM in HSl.
  rewrite (zip_with_nth _ _ _ _ 0%Z 0%Z)
    by (rewrite ?excl_from_length; lia).
  rewrite H1, excl_from_nth by lia. lia.
Qed.

Lemma bpr_locations_increase n e m order v i j :
  rect n m -> binary m -> length v = n ->
  Permutation order (seq 0 (length m)) ->
  entry m i e = 1%Z -> entry m j e = 1%Z ->
  let rank := argsort Nat.leb O order in
  (nth i rank O < nth j rank O)%nat ->
  (entry (add_row (bpr_locations m order rank) v) i e
   < entry (add_row (bpr_locations m order rank) v) j e)%Z.
Proof.
  intros Hm Hb Hv HP Hi Hj. cbv zeta. intros Hr.
  destruct (rect_entry_range n m i e Hm ltac:(lia)) as [Hil He].
  destruct (rect_entry_range n m j e Hm ltac:(lia)) as [Hjl _].
  rewrite !(entry_add_row n);
    auto using bpr_locations_rect; try (rewrite bpr_locations_length; auto; lia).
  destruct (bpr_entry n e m order i Hm Hb He HP Hi) as [Hi1 ->].
  destruct (bpr_entry n e m order j Hm Hb He HP Hj) as [Hj1 ->].
  pose proof (firstn_sum_strict _ (SM_bits e m order Hb) _ _ Hr Hi1). lia.
Qed.

Lemma bpr_locations_increase0 n e m order i j :
  rect n m -> binary m ->
  Permutation order (seq 0 (length m)) ->
  entry m i e = 1%Z -> entry m j e = 1%Z ->
  let rank := argsort Nat.leb O order in
  (nth i rank O < nth j rank O)%nat ->
  (entry (bpr_locations m order rank) i e
   < entry (bpr_locations m order rank) j e)%Z.
Proof.
  intros Hm Hb HP Hi Hj. cbv zeta. intros Hr.
  destruct (rect_entry_range n m i e Hm ltac:(lia)) as [Hil He].
  destruct (bpr_entry n e m order i Hm Hb He HP Hi) as [Hi1 ->].
  destruct (bpr_entry n e m order j Hm Hb He HP Hj) as [Hj1 ->].
  apply (firstn_sum_strict _ (SM_bits e m order Hb) _ _ Hr Hi1).
Qed.

Lemma importance_rank gates i j :
  (i < length gates)%nat -> (j < length gates)%nat ->
  nth j (max_dim1 gates) 0 < nth i (max_dim1 gates) 0 ->
  (nth i (argsort Nat.leb O (importance_order gates)) O
   < nth j (argsort Nat.leb O (importance_order gates)) O)%nat.
Proof.
  intros Hi Hj Hlt. unfold importance_order.
  assert (Lk : length (max_dim1 gates) = length gates)
    by (unfold max_dim1; apply length_map).
  apply rank_of_smaller_key; rewrite ?length_map; try lia.
  rewrite !(nth_map_in _ _ _ 0) by lia. lra.
Qed.

(** X15 (batch-prioritised routing serves the confident tokens first).
    With batch-prioritised routing, when a token is admitted to an expert
    through a choice, every token that selected the same expert through the
    same choice and has a strictly larger top gate probability is admitted
    too, at a strictly smaller slot. *)
Theorem importance_first softmax draws logits input_mask use_fp32 policy
  normalize eval_mode fraction f r i j e :
  well_shaped draws logits input_mask policy ->
  top2gating softmax false draws logits input_mask use_fp32 policy normalize
             eval_mode fraction true = Ok (Top2Dense f) ->
  selected f r i e -> admitted f r j e ->
  nth j (max_dim1 (t2_gates f)) 0 < nth i (max_dim1 (t2_gates f)) 0 ->
  admitted f r i e /\ (slot f r i < slot f r j)%Z.
Proof.
  intros Hws H Hi Hj Hlt.
  pose proof (top2_frame_shape _ _ _ _ _ _ _ _ _ _ _ Hws H) as Hsh.
  cbv zeta in Hsh.
  destruct Hsh as (_ & _ & S1 & S2 & Lg & _ & _ & Hl1 & Hl2 & Hloc1 & Hloc2).
  pose proof S1 as (R1 & B1 & _). pose proof S2 as (R2 & B2 & _).
  apply top2gating_dense_inv in H. cbv zeta in H.
  destruct H as (_ & _ & _ & _ & _ & _ & _ & _ & _ & _ & _ & _ & _ & _ & _
                 & Hm1 & Hm2 & _ & Hls1 & Hls2 & _).
  pose proof (importance_order_perm (t2_gates f)) as HP. rewrite Lg in HP.
  set (order := importance_order (t2_gates f)) in *.
  assert (HP1 : Permutation order (seq 0 (length (t2_mask1_sel f))))
    by now rewrite Hl1.
  assert (HP2 : Permutation order (seq 0 (length (t2_mask2_sel f))))
    by now rewrite Hl2.
  unfold base_locations in Hloc1, Hloc2.
  assert (Hn1 : length (sum_dim0_z (shape1 logits) (t2_mask1_sel f))
                = shape1 logits) by now apply sum_dim0_z_length.
  assert (Rl1 : rect (shape1 logits) (t2_locations1 f))
    by (rewrite Hloc1; now apply bpr_locations_rect).
  assert (Rl2 : rect (shape1 logits) (t2_locations2 f)).
  { rewrite Hloc2. apply add_row_rect; auto. now apply bpr_locations_rect. }
  assert (Ll1 : length (t2_locations1 f) = length (t2_mask1_sel f))
    by (rewrite Hloc1; now apply bpr_locations_length).
  assert (Ll2 : length (t2_locations2 f) = length (t2_mask2_sel f)).
  { rewrite Hloc2. unfold add_row. rewrite length_map.
    now apply bpr_locations_length. }
  unfold selected, admitted, slot in *. destruct r.
  - rewrite Hm1 in Hj |- *. rewrite Hls1, Hm1.
    pose proof (cut_entry_one _ _ _ _ Hj) as Hjs.
    destruct (rect_entry_range _ _ i e R1 ltac:(lia)) as [Hil _].
    destruct (rect_entry_range _ _ j e R1 ltac:(lia)) as [Hjl _].
    pose proof (importance_rank (t2_gates f) i j ltac:(lia) ltac:(lia) Hlt)
      as Hrank.
    assert (Hloc : (entry (t2_locations1 f) i e < entry (t2_locations1 f) j e)%Z).
    { rewrite Hloc1.
      now apply (bpr_locations_increase0 (shape1 logits)). }
    assert (Ha : entry (mul_zb (t2_mask1_sel f)
                          (lt_scalar (t2_locations1 f) (t2_capacity f))) i e
                 = 1%Z)
      by now apply (admitted_below (shape1 logits) _ _ _ i j e).
    split; auto.
    destruct (admitted_facts _ _ _ _ _ _ S1 Rl1 Ll1 Ha) as (_ & _ & _ & _ & ->).
    destruct (admitted_facts _ _ _ _ _ _ S1 Rl1 Ll1 Hj) as (_ & _ & _ & _ & ->).
    exact Hloc.
  - rewrite Hm2 in Hj |- *. rewrite Hls2, Hm2.
    pose proof (cut_entry_one _ _ _ _ Hj) as Hjs.
    destruct (rect_entry_range _ _ i e R2 ltac:(lia)) as [Hil _].
    destruct (rect_entry_range _ _ j e R2 ltac:(lia)) as [Hjl _].
    pose proof (importance_rank (t2_gates f) i j ltac:(lia) ltac:(lia) Hlt)
      as Hrank.
    assert (Hloc : (entry (t2_locations2 f) i e < entry (t2_locations2 f) j e)%Z).
    { rewrite Hloc2.
      now apply (bpr_locations_increase (shape1 logits)). }
    assert (Ha : entry (mul_zb (t2_mask2_sel f)
                          (lt_scalar (t2_locations2 f) (t2_capacity f))) i e
                 = 1%Z)
      by now apply (admitted_below (shape1 logits) _ _ _ i j e).
    split; auto.
    destruct (admitted_facts _ _ _ _ _ _ S2 Rl2 Ll2 Ha) as (_ & _ & _ & _ & ->).
    destruct (admitted_facts _ _ _ _ _ _ S2 Rl2 Ll2 Hj) as (_ & _ & _ & _ & ->).
    exact Hloc.
Qed.

Lemma importance_first_witness :
  exists f,
    top2gating linear_gate false no_draws logits_3x3 None false "none" false
               false (1 # 4) true = Ok (Top2Dense f) /\
    admitted f First 2 0 /\ (slot f First 2 < slot f First 1)%Z.
Proof.
  eexists. split; [vm_compute; reflexivity|].
  match goal with
  | |- admitted ?F _ _ _ /\ _ =>
      exact (importance_first linear_gate no_draws logits_3x3 None false
               "none" false false (1 # 4) F First 2%nat 1%nat 0%nat
               well_shaped_3x3 eq_refl eq_refl eq_refl eq_refl)
  end.
Defined.

(** ** The experts a token chooses *)

Section ArgmaxOrder.
Variable A : Type.
Variable ltb : A -> A -> bool.
Hypothesis ltb_irrefl : forall a, ltb a a = false.
Hypothesis ltb_trans :
  forall a b c, ltb a b = true -> ltb b c = true -> ltb a c = true.
Hypothesis ltb_between :
  forall a b c, ltb a c = true -> ltb a b = true \/ ltb b c = true.


End ArgmaxOrder.

Lemma Qltb_false x y : Qltb x y = false <-> y <= x.
Proof.
  unfold Qltb. rewrite negb_false_iff. apply Qle_bool_iff.
Qed.











(** ** Facts about _make_finite *)

Lemma select_row_filter (r : list score) :
  concat (zip_with (fun x (b : bool) => if b then [x] else []) r
                   (map isfinite r))
  = filter isfinite r.
Proof.
  induction r as [|x r IH]; cbn [map zip_with concat filter]; auto.
  rewrite IH. now destruct (isfinite x).
Qed.

Lemma masked_select_finite scores :
  masked_select scores (map (map isfinite) scores)
  = filter isfinite (concat scores).
Proof.
  unfold masked_select.
  induction scores as [|r m IH]; cbn [map zip_with concat]; auto.
  rewrite IH, select_row_filter. symmetry. apply filter_app.
Qed.

Lemma masked_assign_finite scores lo :
  masked_assign scores (map (map negb) (map (map isfinite) scores)) lo
  = map (map (fun x => if isfinite x then x else lo)) scores.
Proof.
  unfold masked_assign.
  induction scores as [|r m IH]; cbn [map zip_with]; auto.
  rewrite IH. f_equal. clear.
  induction r as [|x r IH]; cbn [map zip_with]; auto.
  rewrite IH. now destruct (isfinite x).
Qed.

Lemma all2_finite scores :
  all2 (map (map isfinite) scores) = forallb isfinite (concat scores).
Proof.
  unfold all2.
  induction scores as [|r m IH]; cbn [map forallb concat]; auto.
  rewrite forallb_app, IH. f_equal. clear.
  induction r as [|x r IH]; cbn [map forallb]; auto. now rewrite IH.
Qed.

(** The minimum of finite values is one of them and a lower bound. *)
Lemma fold_min_finite v : forall q0,
  Forall (fun x => isfinite x = true) v ->
  exists lo,
    fold_left score_min v (Finite q0) = Finite lo /\
    In (Finite lo) (Finite q0 :: v) /\ lo <= q0 /\
    forall q, In (Finite q) v -> lo <= q.
Proof.
  induction v as [|x v IH]; intros q0 Hv; cbn [fold_left].
  - exists q0. repeat split; cbn; auto using Qle_refl. intros q [].
  - inversion Hv as [|? ? Hx Hv']; subst.
    destruct x as [| | |q]; try discriminate. cbn [score_min].
    destruct (Qltb q q0) eqn:Hlt.
    + destruct (IH q Hv') as (lo & Hf & Hin & Hle & Hall).
      apply Qltb_lt in Hlt.
      exists lo. repeat split; auto.
      * cbn in Hin |- *. tauto.
      * lra.
      * intros q' [Hq|Hq]; [injection Hq as <-; auto|auto].
    + destruct (IH q0 Hv') as (lo & Hf & Hin & Hle & Hall).
      apply Qltb_false in Hlt.
      exists lo. repeat split; auto.
      * cbn in Hin |- *. tauto.
      * intros q' [Hq|Hq]; [injection Hq as <-; lra|auto].
Qed.

Lemma tensor_min_finite v :
  Forall (fun x => isfinite x = true) v -> v <> [] ->
  exists lo,
    tensor_min v = Ok (Finite lo) /\ In (Finite lo) v /\
    forall q, In (Finite q) v -> lo <= q.
Proof.
  destruct v as [|x v]; [congruence|]. intros Hv _.
  inversion Hv as [|? ? Hx Hv']; subst.
  destruct x as [| | |q0]; try discriminate.
  destruct (fold_min_finite v q0 Hv') as (lo & Hf & Hin & Hle & Hall).
  exists lo. cbn [tensor_min]. rewrite Hf. repeat split; auto.
  intros q [Hq|Hq]; [injection Hq as <-; auto|auto].
Qed.

Lemma filter_finite_all (v : list score) :
  Forall (fun x => isfinite x = true) (filter isfinite v).
Proof. apply Forall_forall. intros x Hx%filter_In. tauto. Qed.

(** What [_make_finite] does, case by case. *)
Lemma make_finite_cases scores :
  (forallb isfinite (concat scores) = true /\ _make_finite scores = Ok scores)
  \/
  (forallb isfinite (concat scores) = false /\
   filter isfinite (concat scores) = [] /\
   _make_finite scores = Raise RuntimeError)
  \/
  (forallb isfinite (concat scores) = false /\
   exists lo,
     In (Finite lo) (concat scores) /\
     (forall q, In (Finite q) (concat scores) -> lo <= q) /\
     _make_finite scores
     = Ok (map (map (fun x => if isfinite x then x else Finite lo)) scores)).
Proof.
  unfold _make_finite. cbv zeta. rewrite all2_finite, masked_select_finite.
  destruct (forallb isfinite (concat scores)) eqn:Hall; cbn [negb]; [now left|].
  right. destruct (filter isfinite (concat scores)) as [|x v] eqn:Hf.
  - left. repeat split.
  - right. split; auto.
    destruct (tensor_min_finite (x :: v)) as (lo & Hmin & Hin & Hlow).
    + rewrite <- Hf. apply filter_finite_all.
    + discriminate.
    + exists lo. rewrite <- Hf in Hin, Hlow. rewrite Hmin. cbn [bind].
      rewrite masked_assign_finite. repeat split.
      * apply filter_In in Hin. tauto.
      * intros q Hq. apply Hlow, filter_In. split; auto.
Qed.

Lemma replaced_all_finite lo scores :
  Forall (Forall (fun x => isfinite x = true))
    (map (map (fun x => if isfinite x then x else Finite lo)) scores).
Proof.
  apply Forall_forall. intros r' [r [<- _]]%in_map_iff.
  apply Forall_forall. intros y [x [<- _]]%in_map_iff.
  now destruct x.
Qed.

Lemma forallb_concat_finite scores :
  forallb isfinite (concat scores) = true <->
  Forall (Forall (fun x => isfinite x = true)) scores.
Proof.
  rewrite forallb_forall, Forall_forall. split.
  - intros H r Hr. apply Forall_forall. intros x Hx.
    apply H, in_concat. eauto.
  - intros H x [r [Hr Hx]]%in_concat.
    apply (proj1 (Forall_forall _ _) (H r Hr) x Hx).
Qed.

(** X17 (what [_make_finite] returns).  When [_make_finite] returns, every
    entry of the result is finite and the tensor keeps its shape; finite
    entries are unchanged, and every non-finite entry is replaced by the
    smallest finite entry of the input. *)
Theorem make_finite_result scores out :
  _make_finite scores = Ok out ->
  Forall (Forall (fun x => isfinite x = true)) out /\
  map (@length score) out = map (@length score) scores /\
  exists lo,
    (forall q, In (Finite q) (concat scores) -> lo <= q) /\
    (Exists (Exists (fun x => isfinite x = false)) scores ->
     In (Finite lo) (concat scores)) /\
    out = map (map (fun x => if isfinite x then x else Finite lo)) scores.
Proof.
  intros H.
  destruct (make_finite_cases scores)
    as [[Hall Heq]|[(_ & _ & Heq)|(Hall & lo & Hin & Hlow & Heq)]];
    rewrite Heq in H; [|discriminate|]; injection H as <-.
  - pose proof (proj1 (forallb_concat_finite scores) Hall) as Hfin.
    split; [exact Hfin|]. split; [reflexivity|].
    assert (Hid : forall lo,
              scores = map (map (fun x => if isfinite x then x else Finite lo))
                           scores).
    { intros lo. rewrite <- (map_id scores) at 1.
      apply map_ext_in. intros r Hr. rewrite <- (map_id r) at 1.
      apply map_ext_in. intros x Hx.
      rewrite (proj1 (Forall_forall _ _)
                 (proj1 (Forall_forall _ _) Hfin r Hr) x Hx).
      reflexivity. }
    assert (Hno : ~ Exists (Exists (fun x => isfinite x = false)) scores).
    { intros [r [Hr [x [Hx Hf]]%Exists_exists]]%Exists_exists.
      rewrite (proj1 (Forall_forall _ _)
                 (proj1 (Forall_forall _ _) Hfin r Hr) x Hx) in Hf.
      discriminate. }
    destruct (filter isfinite (concat scores)) as [|x v] eqn:Hf.
    + exists 0. repeat split; auto; [|contradiction].
      intros q Hq.
      assert (Hin : In (Finite q) (filter isfinite (concat scores)))
        by (apply filter_In; auto).
      rewrite Hf in Hin. destruct Hin.
    + destruct (tensor_min_finite (x :: v)) as (lo & _ & _ & Hlow).
      * rewrite <- Hf. apply filter_finite_all.
      * discriminate.
      * exists lo. repeat split; auto; [|contradiction].
        intros q Hq. apply Hlow. rewrite <- Hf. apply filter_In. auto.
  - split; [apply replaced_all_finite|]. split.
    + rewrite map_map. apply map_ext. intros r. apply length_map.
    + exists lo. repeat split; auto.
Qed.

Lemma make_finite_result_witness :
  Forall (Forall (fun x => isfinite x = true))
    [[Finite 3; Finite 1]; [Finite 1; Finite 1]] /\
  map (@length score) [[Finite 3; Finite 1]; [Finite 1; Finite 1]]
  = map (@length score) [[Finite 3; Nan]; [Finite 1; PosInf]] /\
  exists lo,
    (forall q, In (Finite q) (concat [[Finite 3; Nan]; [Finite 1; PosInf]]) ->
               lo <= q) /\
    (Exists (Exists (fun x => isfinite x = false))
            [[Finite 3; Nan]; [Finite 1; PosInf]] ->
     In (Finite lo) (concat [[Finite 3; Nan]; [Finite 1; PosInf]])) /\
    [[Finite 3; Finite 1]; [Finite 1; Finite 1]]
    = map (map (fun x => if isfinite x then x else Finite lo))
          [[Finite 3; Nan]; [Finite 1; PosInf]].
Proof.
  exact (make_finite_result [[Finite 3; Nan]; [Finite 1; PosInf]]
           [[Finite 3; Finite 1]; [Finite 1; Finite 1]] eq_refl).
Defined.

(** X18 (when [_make_finite] raises).  [_make_finite] raises exactly on a
    tensor that has entries but no finite one, where the minimum over the
    finite entries is a reduction of an empty tensor; the exception is a
    [RuntimeError].  On every other tensor it returns, an empty tensor and
    an all-finite tensor unchanged. *)
Theorem make_finite_raises scores :
  ((exists e, _make_finite scores = Raise e) <->
   concat scores <> [] /\
   Forall (fun x => isfinite x = false) (concat scores)) /\
  (forall e, _make_finite scores = Raise e -> e = RuntimeError) /\
  (Forall (Forall (fun x => isfinite x = true)) scores ->
   _make_finite scores = Ok scores).
Proof.
  assert (Hnone : filter isfinite (concat scores) = [] ->
                  Forall (fun x => isfinite x = false) (concat scores)).
  { intros Hf. apply Forall_forall. intros x Hx.
    destruct (isfinite x) eqn:E; auto.
    assert (Hin : In x (filter isfinite (concat scores)))
      by (apply filter_In; auto).
    rewrite Hf in Hin. destruct Hin. }
  destruct (make_finite_cases scores)
    as [[Hall Heq]|[(Hall & Hf & Heq)|(Hall & lo & Hin & Hlow & Heq)]].
  - split; [split|split].
    + intros [e He]. congruence.
    + intros [Hne Hnf]. destruct (concat scores) as [|x v]; [congruence|].
      cbn [forallb] in Hall. inversion Hnf; subst.
      apply andb_prop in Hall as [Hx _]. congruence.
    + intros e He. congruence.
    + intros _. exact Heq.
  - split; [split|split].
    + intros _. split; [|now apply Hnone].
      intros Hnil. rewrite Hnil in Hall. discriminate.
    + intros _. eauto.
    + intros e He. congruence.
    + intros Hfin. apply forallb_concat_finite in Hfin. congruence.
  - split; [split|split].
    + intros [e He]. congruence.
    + intros [_ Hnf].
      rewrite Forall_forall in Hnf. specialize (Hnf _ Hin). discriminate.
    + intros e He. congruence.
    + intros Hfin. apply forallb_concat_finite in Hfin. congruence.
Qed.

Example make_finite_all_nan :
  _make_finite [[Nan; PosInf]] = Raise RuntimeError /\
  _make_finite [] = Ok [] /\
  _make_finite [[Nan; Finite 2]] = Ok [[Finite 2; Finite 2]].
Proof. repeat split. Qed.

(** X19 (applying [_make_finite] twice).  What [_make_finite] returns it
    returns unchanged when applied again. *)
Theorem make_finite_idempotent scores out :
  _make_finite scores = Ok out -> _make_finite out = Ok out.
Proof.
  intros H.
  assert (Hfin : Forall (Forall (fun x => isfinite x = true)) out).
  { destruct (make_finite_cases scores)
      as [[Hall Heq]|[(_ & _ & Heq)|(Hall & lo & Hin & Hlow & Heq)]];
      rewrite Heq in H; [|discriminate|]; injection H as <-.
    - now apply forallb_concat_finite.
    - apply replaced_all_finite. }
  apply forallb_concat_finite in Hfin.
  destruct (make_finite_cases out)
    as [[_ Heq]|[(Hall & _)|(Hall & _)]]; [exact Heq|congruence|congruence].
Qed.

Lemma make_finite_idempotent_witness :
  _make_finite [[Finite 3; Finite 1]; [Finite 1; Finite 1]]
  = Ok [[Finite 3; Finite 1]; [Finite 1; Finite 1]].
Proof.
  exact (make_finite_idempotent [[Finite 3; Nan]; [Finite 1; PosInf]]
           [[Finite 3; Finite 1]; [Finite 1; Finite 1]] eq_refl).
Defined.

(** ** Facts about gumbel_rsample *)

Lemma dict_get_none {V : Type} k (d : dict V) :
  dict_get k d = None <-> ~ In k (map fst d).
Proof.
  induction d as [|[k' v] d IH]; cbn [dict_get map fst In]; [tauto|].
  destruct (String.eqb_spec k k') as [->|Hne].
  - split; [discriminate|]. intros H. exfalso. apply H. now left.
  - rewrite IH. split; [intros H [Hk|Hk]; [congruence|tauto]|tauto].
Qed.

Lemma dict_get_set_same {V : Type} k (v : V) d :
  dict_get k (dict_set k v d) = Some v.
Proof.
  induction d as [|[k' v'] d IH]; cbn [dict_set dict_get].
  - now rewrite String.eqb_refl.
  - destruct (String.eqb k k') eqn:E; cbn [dict_get].
    + now rewrite String.eqb_refl.
    + now rewrite E.
Qed.

Lemma dict_get_set_other {V : Type} k k' (v : V) d :
  k' <> k -> dict_get k' (dict_set k v d) = dict_get k' d.
Proof.
  intros Hne.
  induction d as [|[k0 v0] d IH]; cbn [dict_set dict_get].
  - now rewrite (proj2 (String.eqb_neq k' k) Hne).
  - destruct (String.eqb_spec k k0) as [->|Hk]; cbn [dict_get].
    + now rewrite (proj2 (String.eqb_neq k' k0) Hne).
    + now rewrite IH.
Qed.

Lemma dict_set_fresh_keys {V : Type} k (v : V) d :
  dict_get k d = None -> map fst (dict_set k v d) = map fst d ++ [k].
Proof.
  induction d as [|[k' v'] d IH]; cbn [dict_set dict_get map fst app]; auto.
  destruct (String.eqb k k'); [discriminate|]. intros H.
  cbn [map fst]. now rewrite IH.
Qed.

(** X20 (the sampler of a device is created once).  A call of
    [gumbel_rsample] leaves the device with a registered sampler; when the
    device had one, the call keeps it, registers nothing and creates no
    distribution object, and otherwise it creates one object, on that
    device.  The samplers of the other devices are untouched. *)
Theorem gumbel_rsample_registers (Rng : Type)
  (rsample : Sampler -> nat * nat -> Rng -> list (list Q) * Rng)
  shape dev (w : World Rng) :
  let w' := snd (gumbel_rsample rsample shape dev w) in
  (forall g, dict_get dev (gumbel_map w) = Some g ->
     gumbel_map w' = gumbel_map w /\ created w' = created w) /\
  (dict_get dev (gumbel_map w) = None ->
     dict_get dev (gumbel_map w') = Some (mkSampler (created w) dev) /\
     created w' = S (created w)) /\
  (forall dev', dev' <> dev ->
     dict_get dev' (gumbel_map w') = dict_get dev' (gumbel_map w)).
Proof.
  cbv zeta. unfold gumbel_rsample.
  destruct (dict_get dev (gumbel_map w)) as [g0|] eqn:Hget.
  - destruct (rsample g0 shape (rng w)) as [t r]. cbn [snd gumbel_map created].
    split; [auto|]. split; [discriminate|auto].
  - destruct (rsample _ shape (rng w)) as [t r]. cbn [snd gumbel_map created].
    split; [discriminate|]. split.
    + intros _. split; auto. apply dict_get_set_same.
    + intros dev' Hne. now apply dict_get_set_other.
Qed.

(** What a run of calls keeps true of the map. *)
Lemma gumbel_calls_invariant (Rng : Type)
  (rsample : Sampler -> nat * nat -> Rng -> list (list Q) * Rng) calls :
  forall (w : World Rng),
  created w = length (gumbel_map w) -> NoDup (map fst (gumbel_map w)) ->
  (forall dev g, dict_get dev (gumbel_map w) = Some g -> sampler_device g = dev) ->
  let w' := gumbel_calls rsample calls w in
  created w' = length (gumbel_map w') /\ NoDup (map fst (gumbel_map w')) /\
  (forall dev g, dict_get dev (gumbel_map w') = Some g -> sampler_device g = dev) /\
  (forall dev, In dev (map fst (gumbel_map w')) <->
               In dev (map fst (gumbel_map w)) \/ In dev (map snd calls)).
Proof.
  induction calls as [|[shape dev] calls IH]; intros w Hc Hnd Hdev; cbv zeta.
  - cbn [gumbel_calls map In]. split; [auto|]. split; [auto|].
    split; [auto|]. intros d. tauto.
  - cbn [gumbel_calls map snd In].
    set (w1 := snd (gumbel_rsample rsample shape dev w)).
    assert (H1 : created w1 = length (gumbel_map w1) /\
                 NoDup (map fst (gumbel_map w1)) /\
                 (forall d g, dict_get d (gumbel_map w1) = Some g ->
                              sampler_device g = d) /\
                 (forall d, In d (map fst (gumbel_map w1)) <->
                            In d (map fst (gumbel_map w)) \/ d = dev)).
    { unfold w1, gumbel_rsample.
      destruct (dict_get dev (gumbel_map w)) as [g0|] eqn:Hget.
      - destruct (rsample g0 shape (rng w)) as [t r].
        cbn [snd gumbel_map created].
        split; [auto|]. split; [auto|]. split; [auto|].
        intros d. split; [tauto|]. intros [H| ->]; auto.
        destruct (In_dec string_dec dev (map fst (gumbel_map w))) as [|Hn];
          auto.
        apply dict_get_none in Hn. congruence.
      - destruct (rsample _ shape (rng w)) as [t r].
        cbn [snd gumbel_map created].
        pose proof (dict_set_fresh_keys dev (mkSampler (created w) dev)
                      (gumbel_map w) Hget) as Hkeys.
        split; [|split; [|split]].
        + rewrite <- (length_map fst (dict_set _ _ _)), Hkeys.
          rewrite length_app, length_map. cbn [length]. lia.
        + rewrite Hkeys. apply NoDup_app; auto.
          * repeat constructor. intros [].
          * intros x Hx [<-|[]]. apply dict_get_none in Hget. contradiction.
        + intros d g Hg. destruct (string_dec d dev) as [->|Hne].
          * rewrite dict_get_set_same in Hg. now injection Hg as <-.
          * rewrite dict_get_set_other in Hg by assumption. eauto.
        + intros d. rewrite Hkeys, in_app_iff. cbn [In]. intuition. }
    destruct H1 as (Hc1 & Hnd1 & Hdev1 & Hk1).
    destruct (IH w1 Hc1 Hnd1 Hdev1) as (Hc2 & Hnd2 & Hdev2 & Hk2).
    split; [auto|]. split; [auto|]. split; [auto|].
    intros d. rewrite Hk2, Hk1. intuition.
Qed.

(** X21 (one distribution object per device).  Starting from the empty
    [gumbel_map], after any run of calls of [gumbel_rsample] the number of
    distribution objects created is the number of distinct devices asked
    for, and the devices with a registered sampler are exactly those, each
    with a sampler on that device. *)
Theorem one_sampler_per_device (Rng : Type)
  (rsample : Sampler -> nat * nat -> Rng -> list (list Q) * Rng)
  (calls : list (nat * nat * device)) (r0 : Rng) :
  let w := gumbel_calls rsample calls (mkWorld [] 0 r0) in
  created w = length (nodup string_dec (map snd calls)) /\
  (forall dev,
     In dev (map snd calls) <->
     exists g, dict_get dev (gumbel_map w) = Some g /\ sampler_device g = dev).
Proof.
  cbv zeta.
  assert (H0 : forall dev g,
            dict_get dev (@nil (device * Sampler)) = Some g ->
            sampler_device g = dev) by (intros dev g H; discriminate H).
  destruct (gumbel_calls_invariant Rng rsample calls (mkWorld [] 0 r0)
              eq_refl (NoDup_nil _) H0) as (Hc & Hnd & Hdev & Hk).
  cbv zeta in Hk. cbn [gumbel_map map fst In] in Hk.
  set (w := gumbel_calls rsample calls (mkWorld [] 0 r0)) in *.
  split.
  - rewrite Hc, <- (length_map fst (gumbel_map w)).
    apply Permutation_length, NoDup_Permutation; auto using NoDup_nodup.
    intros d. rewrite nodup_In, Hk. tauto.
  - intros dev. split.
    + intros Hin.
      destruct (dict_get dev (gumbel_map w)) as [g|] eqn:Hg.
      * exists g. split; eauto.
      * apply dict_get_none in Hg. exfalso. apply Hg, Hk. tauto.
    + intros (g & Hg & _).
      destruct (In_dec string_dec dev (map fst (gumbel_map w))) as [Hi|Hn].
      * apply Hk in Hi. tauto.
      * apply dict_get_none in Hn. congruence.
Qed.

(** ** one_hot and argmax *)

(** The scan keeps its best entry when nothing exceeds it. *)
Lemma argmax_from_stay {A : Type} (ltb : A -> A -> bool) r : forall best bi i,
  Forall (fun z => ltb best z = false) r ->
  argmax_from ltb best bi i r = bi.
Proof.
  induction r as [|x r IH]; intros best bi i Hr; cbn [argmax_from]; auto.
  inversion Hr as [|? ? Hx Hr']; subst. rewrite Hx. now apply IH.
Qed.

(** The scan over the tail of a one-hot row. *)
Lemma argmax_from_hot k : forall a best bi i j,
  (best = 0%Z \/ best = 1%Z) ->
  (best = 1%Z -> ~ (Z.of_nat a <= j < Z.of_nat a + Z.of_nat k)%Z) ->
  argmax_from Z.ltb best bi i
    (map (fun c => if (Z.of_nat c =? j)%Z then 1%Z else 0%Z) (seq a k))
  = if ((best =? 0) && (Z.of_nat a <=? j) && (j <? Z.of_nat a + Z.of_nat k))%Z
    then (i + Z.to_nat (j - Z.of_nat a))%nat else bi.
Proof.
  induction k as [|k IH]; intros a best bi i j Hb Hone;
    cbn [seq map argmax_from].
  - destruct ((best =? 0) && (Z.of_nat a <=? j))%Z eqn:E; cbn [andb]; auto.
    destruct (j <? Z.of_nat a + Z.of_nat 0)%Z eqn:E'; auto.
    apply andb_prop in E as [_ E]. apply Z.leb_le in E. apply Z.ltb_lt in E'.
    lia.
  - destruct (Z.of_nat a =? j)%Z eqn:Ea.
    + apply Z.eqb_eq in Ea. destruct Hb as [->| ->]; [|exfalso; apply Hone; lia].
      cbn [Z.ltb Z.compare Z.eqb andb].
      rewrite IH; auto; [|intros _; lia].
      cbn [Z.eqb andb].
      replace (Z.of_nat a <=? j)%Z with true by (symmetry; apply Z.leb_le; lia).
      replace (j <? Z.of_nat a + Z.of_nat (S k))%Z with true
        by (symmetry; apply Z.ltb_lt; lia).
      cbn [andb]. replace (j - Z.of_nat a)%Z with 0%Z by lia. cbn. lia.
    + apply Z.eqb_neq in Ea.
      replace (best <? 0)%Z with false
        by (destruct Hb as [->| ->]; reflexivity).
      rewrite IH; auto; [|intros H1 H2; apply (Hone H1); lia].
      destruct (best =? 0)%Z; cbn [andb]; auto.
      destruct (Z.of_nat a <=? j)%Z eqn:E1, (j <? Z.of_nat a + Z.of_nat (S k))%Z eqn:E2,
        (Z.of_nat (S a) <=? j)%Z eqn:E3, (j <? Z.of_nat (S a) + Z.of_nat k)%Z eqn:E4;
        cbn [andb]; auto;
        rewrite ?Z.leb_le, ?Z.ltb_lt, ?Z.leb_gt, ?Z.ltb_ge in *; lia.
Qed.

Lemma argmax_hot_row n j :
  (0 <= j < n)%Z -> argmax_row Z.ltb (one_hot_row n j) = Z.to_nat j.
Proof.
  intros Hj. unfold one_hot_row.
  destruct (Z.to_nat n) as [|k] eqn:Hn; [lia|].
  cbn [seq map argmax_row].
  change (Z.of_nat 0) with 0%Z.
  rewrite argmax_from_hot; change (Z.of_nat 1) with 1%Z.
  - destruct (0 =? j)%Z eqn:E0.
    + apply Z.eqb_eq in E0. subst. reflexivity.
    + apply Z.eqb_neq in E0. cbn [Z.eqb andb].
      replace (1 <=? j)%Z with true by (symmetry; apply Z.leb_le; lia).
      replace (j <? 1 + Z.of_nat k)%Z with true
        by (symmetry; apply Z.ltb_lt; lia).
      cbn [andb]. lia.
  - destruct (0 =? j)%Z; auto.
  - destruct (0 =? j)%Z eqn:E0; [|discriminate].
    apply Z.eqb_eq in E0. intros _. lia.
Qed.

(** X22 (one_hot and argmax).  The rows that [one_hot] builds over at least
    one class decode to the indices they were built from: their arg-max
    along the class dimension is the index tensor. *)
Theorem one_hot_argmax indices num_classes m :
  one_hot indices num_classes = Ok m -> (0 < num_classes)%Z ->
  argmax Z.ltb (Z.to_nat num_classes) m = Ok indices.
Proof.
  intros H Hn. apply one_hot_inv in H as (-> & _ & Hr).
  unfold argmax. destruct (Z.to_nat num_classes) as [|k] eqn:Hk; [lia|].
  f_equal. rewrite map_map. rewrite <- (map_id indices) at 2.
  apply map_ext_in. intros i Hi.
  pose proof (proj1 (Forall_forall _ _) Hr i Hi) as Hin. cbv beta in Hin.
  rewrite argmax_hot_row by exact Hin. unfold id. lia.
Qed.

Lemma one_hot_argmax_witness :
  argmax Z.ltb (Z.to_nat 3) [[0; 0; 1]; [1; 0; 0]]%Z = Ok [2; 0]%Z.
Proof. exact (one_hot_argmax [2; 0]%Z 3%Z _ eq_refl eq_refl). Defined.

(** ** The accelerated return of top-2 routing *)

(** When the dense path returns, the accelerated path returns the same
    locals, with locations read through the masks before the capacity
    cut. *)
Lemma top2gating_tutel_of_dense softmax draws logits input_mask use_fp32 policy
  normalize eval_mode fraction bpr f :
  top2gating softmax false draws logits input_mask use_fp32 policy normalize
             eval_mode fraction bpr = Ok (Top2Dense f) ->
  top2gating softmax true draws logits input_mask use_fp32 policy normalize
             eval_mode fraction bpr
  = Ok (Top2Tutel (t2_l_aux f) (t2_capacity f) (shape1 logits)
          [t2_indices1_s f; t2_indices2_s f]
          [sum_dim1_z (mul_zz (t2_locations1 f) (t2_mask1_sel f));
           sum_dim1_z (mul_zz (t2_locations2 f) (t2_mask2_sel f))]
          [t2_gates1_s f; t2_gates2_s f]).
Proof.
  unfold top2gating. intros H.
  assert (Hsh : shape1 (if use_fp32 then to_float logits else logits) = shape1 logits)
    by now destruct use_fp32.
  destruct (top2_capacity _ _ _ _) as [C|]; cbn [bind] in *; [|discriminate].
  destruct (argmax Qltb _ _) as [idx1|]; cbn [bind] in *; [|discriminate].
  destruct (one_hot idx1 _) as [m1|]; cbn [bind] in *; [|discriminate].
  destruct (argmax xltb _ _) as [idx2|]; cbn [bind] in *; [|discriminate].
  destruct (one_hot idx2 _) as [m2|]; cbn [bind] in *; [|discriminate].
  cbv zeta in *.
  split_pair H. split_pair H. split_pair H. split_pair H.
  apply bind_ok in H as (sc1 & _ & H).
  apply bind_ok in H as (sc2 & _ & H).
  injection H as <-.
  cbn [t2_gates t2_capacity t2_indices1_s t2_indices2_s t2_mask1_hot
       t2_mask2_hot t2_mask1_sel t2_mask2_sel t2_locations1 t2_locations2
       t2_l_aux t2_mask1 t2_mask2 t2_gates1_s t2_gates2_s t2_locations1_s
       t2_locations2_s t2_combine_weights t2_dispatch_mask].
  now rewrite Hsh.
Qed.

(** How the location read through the uncut mask relates to the stored
    slot. *)
Lemma uncut_location n m loc C s e :
  selection n m -> rect n loc -> length loc = length m ->
  entry m s e = 1%Z ->
  let cut := mul_zb m (lt_scalar loc C) in
  (entry cut s e = 1%Z ->
   nth s (sum_dim1_z (mul_zz loc m)) 0%Z
   = nth s (sum_dim1_z (mul_zz loc cut)) 0%Z) /\
  (entry cut s e <> 1%Z ->
   (C <= nth s (sum_dim1_z (mul_zz loc m)) 0)%Z /\
   nth s (sum_dim1_z (mul_zz loc cut)) 0%Z = 0%Z).
Proof.
  intros Hsel Hl Hlen Hs. cbv zeta.
  assert (Hslot : nth s (sum_dim1_z (mul_zz loc m)) 0%Z = entry loc s e)
    by (apply admitted_slot; auto; apply Hsel).
  rewrite Hslot. split; intros Hc.
  - destruct (admitted_facts _ _ _ _ _ _ Hsel Hl Hlen Hc) as (_ & _ & _ & _ & ->).
    reflexivity.
  - apply (dropped_row_zero n); auto.
    pose proof (selection_cut n m loc C Hsel Hl) as (_ & Hb & _).
    destruct (entry_bit _ s e Hb); [assumption|contradiction].
Qed.

(** X23 (the two return paths of top-2 routing agree).  When the dense path
    of [top2gating] returns on well-shaped arguments, the accelerated path
    returns the same loss, capacity, choices and gate values; for a token
    and a choice that selects an expert, the location it reports is the
    slot the dense path stores when the choice is admitted, and reaches the
    capacity when the dense path drops the choice (and stores 0). *)
Theorem top2_paths_agree softmax draws logits input_mask use_fp32 policy
  normalize eval_mode fraction bpr f :
  well_shaped draws logits input_mask policy ->
  top2gating softmax false draws logits input_mask use_fp32 policy normalize
             eval_mode fraction bpr = Ok (Top2Dense f) ->
  exists loc1 loc2,
    top2gating softmax true draws logits input_mask use_fp32 policy normalize
               eval_mode fraction bpr
    = Ok (Top2Tutel (t2_l_aux f) (t2_capacity f) (shape1 logits)
            [t2_indices1_s f; t2_indices2_s f] [loc1; loc2]
            [t2_gates1_s f; t2_gates2_s f]) /\
    forall r s e,
      selected f r s e ->
      let loc := match r with First => loc1 | Second => loc2 end in
      (admitted f r s e -> nth s loc 0%Z = slot f r s) /\
      (~ admitted f r s e ->
       (t2_capacity f <= nth s loc 0)%Z /\ slot f r s = 0%Z).
Proof.
  intros Hws H.
  pose proof (top2gating_tutel_of_dense _ _ _ _ _ _ _ _ _ _ _ H) as HT.
  do 2 eexists. split; [exact HT|].
  pose proof (top2_frame_shape _ _ _ _ _ _ _ _ _ _ _ Hws H) as Hsh.
  cbv zeta in Hsh.
  destruct Hsh as (_ & _ & S1 & S2 & Lg & _ & _ & Hl1 & Hl2 & Hloc1 & Hloc2).
  apply top2gating_dense_inv in H. cbv zeta in H.
  destruct H as (_ & _ & _ & _ & _ & _ & _ & _ & _ & _ & _ & _ & _ & _ & _
                 & Hm1 & Hm2 & _ & Hls1 & Hls2 & _).
  pose proof (importance_order_perm (t2_gates f)) as HP. rewrite Lg in HP.
  set (order := importance_order (t2_gates f)) in *.
  assert (HP1 : Permutation order (seq 0 (length (t2_mask1_sel f))))
    by now rewrite Hl1.
  assert (HP2 : Permutation order (seq 0 (length (t2_mask2_sel f))))
    by now rewrite Hl2.
  assert (Rl1 : rect (shape1 logits) (t2_locations1 f))
    by (rewrite Hloc1; apply base_locations_rect; auto; apply S1).
  assert (Rl2 : rect (shape1 logits) (t2_locations2 f)).
  { rewrite Hloc2. apply add_row_rect.
    - apply base_locations_rect; auto; apply S2.
    - apply sum_dim0_z_length, S1. }
  assert (Ll1 : length (t2_locations1 f) = length (t2_mask1_sel f))
    by (rewrite Hloc1; now apply base_locations_length).
  assert (Ll2 : length (t2_locations2 f) = length (t2_mask2_sel f)).
  { rewrite Hloc2. unfold add_row. rewrite length_map.
    now apply base_locations_length. }
  intros r s e Hsel. unfold selected, admitted, slot in *. cbv zeta.
  destruct r.
  - rewrite Hls1, Hm1.
    apply (uncut_location (shape1 logits)); auto.
  - rewrite Hls2, Hm2.
    apply (uncut_location (shape1 logits)); auto.
Qed.

Lemma top2_paths_agree_witness :
  exists f loc1 loc2,
    top2gating linear_gate false no_draws logits_3x3 None false "none" false
               false (1 # 4) false = Ok (Top2Dense f) /\
    top2gating linear_gate true no_draws logits_3x3 None false "none" false
               false (1 # 4) false
    = Ok (Top2Tutel (t2_l_aux f) (t2_capacity f) (shape1 logits_3x3)
            [t2_indices1_s f; t2_indices2_s f] [loc1; loc2]
            [t2_gates1_s f; t2_gates2_s f]) /\
    forall r s e,
      selected f r s e ->
      let loc := match r with First => loc1 | Second => loc2 end in
      (admitted f r s e -> nth s loc 0%Z = slot f r s) /\
      (~ admitted f r s e ->
       (t2_capacity f <= nth s loc 0)%Z /\ slot f r s = 0%Z).
Proof.
  eexists.
  match goal with
  | |- exists loc1 loc2, ?A = Ok (Top2Dense ?F) /\ _ =>
      assert (H : A = Ok (Top2Dense F)) by (vm_compute; reflexivity);
      destruct (top2_paths_agree linear_gate no_draws logits_3x3 None false
                  "none" false false (1 # 4) false F well_shaped_3x3 H)
        as (loc1 & loc2 & HT & Hrel);
      exists loc1, loc2; split; [exact H|split; [exact HT|exact Hrel]]
  end.
Defined.

(** ** Top-1 and top-2 routing side by side *)

(** X24 (top-2 routing extends top-1 routing).  On the same logits and
    padding mask, the dense returns of [top1gating] and [top2gating] have
    the same gate probabilities, the same first choice for every token, the
    same first-choice mask before the capacity cut, and the same auxiliary
    loss, whatever the other settings of the two calls. *)
Theorem top1_top2_first_choice softmax draws logits input_mask use_fp32
  capacity_factor eval_mode1 fraction1 use_xmoe policy normalize eval_mode2
  fraction2 bpr f1 f2 :
  top1gating softmax false logits input_mask use_fp32 capacity_factor
             eval_mode1 fraction1 use_xmoe = Ok (Top1Dense f1) ->
  top2gating softmax false draws logits input_mask use_fp32 policy normalize
             eval_mode2 fraction2 bpr = Ok (Top2Dense f2) ->
  t1_gates f1 = t2_gates f2 /\
  t1_indices1_s f1 = t2_indices1_s f2 /\
  t1_mask1_sel f1 = t2_mask1_sel f2 /\
  t1_l_aux f1 = t2_l_aux f2.
Proof.
  intros H1 H2.
  apply top1gating_dense_inv in H1. cbv zeta in H1.
  destruct H1 as (_ & _ & _ & Hl1 & Hg1 & Hi1 & Hm1 & _).
  apply top2gating_dense_inv in H2. cbv zeta in H2.
  destruct H2 as (_ & _ & _ & _ & Hl2 & Hg2 & Hi2 & Hh2 & _ & _ & Hs2 & _).
  assert (Hg : t1_gates f1 = t2_gates f2) by congruence.
  assert (Hi : t1_indices1_s f1 = t2_indices1_s f2) by congruence.
  assert (Hm : t1_mask1_sel f1 = t2_mask1_sel f2) by congruence.
  repeat split; auto. congruence.
Qed.

Lemma top1_top2_first_choice_witness :
  exists f1 f2,
    top1gating linear_gate false logits_3x3 None false 1 false (1 # 4) false
    = Ok (Top1Dense f1) /\
    top2gating linear_gate false no_draws logits_3x3 None false "none" false
               true (1 # 4) true = Ok (Top2Dense f2) /\
    t1_gates f1 = t2_gates f2 /\
    t1_indices1_s f1 = t2_indices1_s f2 /\
    t1_mask1_sel f1 = t2_mask1_sel f2 /\
    t1_l_aux f1 = t2_l_aux f2.
Proof.
  do 2 eexists. split; [vm_compute; reflexivity|].
  split; [vm_compute; reflexivity|].
  exact (top1_top2_first_choice linear_gate no_draws logits_3x3 None false 1
           false (1 # 4) false "none" false true (1 # 4) true _ _
           eq_refl eq_refl).
Defined.

(** ** Facts about the overflow diagnostics *)

Lemma row_split_at r : forall l C,
  length l = length r ->
  (sumZ (zip_with (fun x (c : bool) => if c then x else 0%Z) r
                  (map (fun x => (C <=? x)%Z) l))
   + sumZ (zip_with (fun x (c : bool) => if c then x else 0%Z) r
                    (map (fun x => (x <? C)%Z) l)))%Z
  = sumZ r.
Proof.
  induction r as [|x r IH]; intros [|y l] C Hl; cbn [map zip_with];
    try discriminate; rewrite ?sumZ_nil, ?sumZ_cons; auto.
  specialize (IH l C ltac:(cbn in Hl; lia)).
  destruct (C <=? y)%Z eqn:E1, (y <? C)%Z eqn:E2;
    rewrite ?Z.leb_le, ?Z.ltb_lt, ?Z.leb_gt, ?Z.ltb_ge in *; lia.
Qed.

(** The selections at or above the capacity are those that the cut
    removes. *)
Lemma overflow_count n m loc C :
  rect n m -> rect n loc -> length loc = length m ->
  sum_all_z (mul_zb m (ge_scalar loc C))
  = (sum_all_z m - sum_all_z (mul_zb m (lt_scalar loc C)))%Z.
Proof.
  intros Hm. revert loc. unfold sum_all_z, mul_zb, ge_scalar, lt_scalar.
  induction Hm as [|r m Hr Hm IH]; intros [|l loc] Hl Hlen;
    cbn [map zip_with]; try discriminate; rewrite ?sumZ_nil, ?sumZ_cons; auto.
  inversion Hl as [|? ? Hlr Hl']; subst.
  specialize (IH loc Hl' ltac:(cbn in Hlen; lia)).
  pose proof (row_split_at r l C ltac:(lia)). lia.
Qed.

Lemma sum_all_bits_nonneg m : binary m -> (0 <= sum_all_z m)%Z.
Proof.
  unfold sum_all_z. induction 1 as [|r m Hr Hm IH]; cbn [map];
    rewrite ?sumZ_nil, ?sumZ_cons; [lia|].
  pose proof (sumZ_bits_nonneg r Hr). lia.
Qed.

Lemma sum_all_cut_le n m loc C :
  rect n m -> rect n loc -> binary m ->
  (0 <= sum_all_z (mul_zb m (lt_scalar loc C)) <= sum_all_z m)%Z.
Proof.
  intros Hm Hl Hb. split.
  - apply sum_all_bits_nonneg. now apply mul_zb_binary.
  - revert loc Hl. unfold sum_all_z, mul_zb, lt_scalar.
    induction Hm as [|r m Hr Hm IH]; intros [|l loc] Hl;
      cbn [map zip_with]; rewrite ?sumZ_nil, ?sumZ_cons; try lia.
    + inversion Hb; subst.
      pose proof (sumZ_bits_nonneg r ltac:(assumption)).
      pose proof (sum_all_bits_nonneg m ltac:(assumption)).
      unfold sum_all_z in *. lia.
    + inversion Hb as [|? ? Hbr Hbm]; inversion Hl as [|? ? Hlr Hl']; subst.
      specialize (IH Hbm loc Hl').
      pose proof (admitted_le_total r (map (fun x => (x <? C)%Z) l) Hbr) as Hle.
      unfold sel in Hle. lia.
Qed.

Lemma overflow_expert_share n m loc C :
  rect n m -> rect n loc -> length loc = length m -> binary m ->
  let selected := sum_all_z m in
  let kept := sum_all_z (mul_zb m (lt_scalar loc C)) in
  (0 <= kept <= selected)%Z /\
  (selected = 0%Z -> overflow_expert m loc C = Nan) /\
  ((0 < selected)%Z ->
   exists q,
     overflow_expert m loc C = Finite q /\
     q == 100 * inject_Z (selected - kept) / inject_Z selected /\
     0 <= q <= 100).
Proof.
  intros Hm Hl Hlen Hb. cbv zeta.
  pose proof (sum_all_cut_le n m loc C Hm Hl Hb) as Hk.
  pose proof (overflow_count n m loc C Hm Hl Hlen) as Ho.
  unfold overflow_expert, true_divide. rewrite Ho.
  set (sel := sum_all_z m) in *.
  set (kept := sum_all_z (mul_zb m (lt_scalar loc C))) in *.
  split; [exact Hk|]. split.
  - intros H0. rewrite H0. replace kept with 0%Z by lia. reflexivity.
  - intros Hpos.
    replace (sel =? 0)%Z with false by (symmetry; apply Z.eqb_neq; lia).
    eexists. split; [reflexivity|].
    assert (Hs : 0 < inject_Z sel)
      by (change 0 with (inject_Z 0); rewrite <- Zlt_Qlt; lia).
    assert (Hd : 0 <= inject_Z (sel - kept) <= inject_Z sel).
    { change 0 with (inject_Z 0). rewrite <- !Zle_Qle. lia. }
    rewrite inject_Z_mult. change (inject_Z 100) with 100.
    split; [reflexivity|]. split.
    + apply Qle_shift_div_l; [exact Hs|]. nra.
    + apply Qle_shift_div_r; [exact Hs|]. nra.
Qed.

(** X25 (overflow diagnostics).  The overflow percentages that
    [top2gating] logs are the share of first (second) choices that the
    capacity cut drops: 100 * (selected - admitted) / selected, a number
    between 0 and 100, and not a number when no token selects an expert
    through that choice (an empty or fully padded batch). *)
Theorem overflow_diagnostics softmax draws logits input_mask use_fp32 policy
  normalize eval_mode fraction bpr f :
  well_shaped draws logits input_mask policy ->
  top2gating softmax false draws logits input_mask use_fp32 policy normalize
             eval_mode fraction bpr = Ok (Top2Dense f) ->
  let share (selected kept : list (list Z)) (overflow : score) :=
    (sum_all_z selected = 0%Z -> overflow = Nan) /\
    ((0 < sum_all_z selected)%Z ->
     exists q,
       overflow = Finite q /\
       q == 100 * inject_Z (sum_all_z selected - sum_all_z kept)
            / inject_Z (sum_all_z selected) /\
       0 <= q <= 100) in
  share (t2_mask1_sel f) (t2_mask1 f) (overflow_expert1 f) /\
  share (t2_mask2_sel f) (t2_mask2 f) (overflow_expert2 f).
Proof.
  intros Hws H.
  pose proof (top2_frame_shape _ _ _ _ _ _ _ _ _ _ _ Hws H) as Hsh.
  cbv zeta in Hsh.
  destruct Hsh as (_ & _ & S1 & S2 & Lg & _ & _ & Hl1 & Hl2 & Hloc1 & Hloc2).
  apply top2gating_dense_inv in H. cbv zeta in H.
  destruct H as (_ & _ & _ & _ & _ & _ & _ & _ & _ & _ & _ & _ & _ & _ & _
                 & Hm1 & Hm2 & _).
  pose proof (importance_order_perm (t2_gates f)) as HP. rewrite Lg in HP.
  set (order := importance_order (t2_gates f)) in *.
  assert (HP1 : Permutation order (seq 0 (length (t2_mask1_sel f))))
    by now rewrite Hl1.
  assert (HP2 : Permutation order (seq 0 (length (t2_mask2_sel f))))
    by now rewrite Hl2.
  assert (Rl1 : rect (shape1 logits) (t2_locations1 f))
    by (rewrite Hloc1; apply base_locations_rect; auto; apply S1).
  assert (Rl2 : rect (shape1 logits) (t2_locations2 f)).
  { rewrite Hloc2. apply add_row_rect.
    - apply base_locations_rect; auto; apply S2.
    - apply sum_dim0_z_length, S1. }
  assert (Ll1 : length (t2_locations1 f) = length (t2_mask1_sel f))
    by (rewrite Hloc1; now apply base_locations_length).
  assert (Ll2 : length (t2_locations2 f) = length (t2_mask2_sel f)).
  { rewrite Hloc2. unfold add_row. rewrite length_map.
    now apply base_locations_length. }
  cbv zeta. unfold overflow_expert1, overflow_expert2. rewrite Hm1, Hm2.
  destruct S1 as (R1 & B1 & _). destruct S2 as (R2 & B2 & _).
  split.
  - apply (overflow_expert_share (shape1 logits)); auto.
  - apply (overflow_expert_share (shape1 logits)); auto.
Qed.

Lemma overflow_diagnostics_witness :
  exists f,
    top2gating linear_gate false no_draws logits_3x3 None false "none" false
               false (1 # 4) false = Ok (Top2Dense f) /\
    ((sum_all_z (t2_mask1_sel f) = 0%Z -> overflow_expert1 f = Nan) /\
     ((0 < sum_all_z (t2_mask1_sel f))%Z ->
      exists q,
        overflow_expert1 f = Finite q /\
        q == 100 * inject_Z (sum_all_z (t2_mask1_sel f)
                             - sum_all_z (t2_mask1 f))
             / inject_Z (sum_all_z (t2_mask1_sel f)) /\
        0 <= q <= 100)) /\
    ((sum_all_z (t2_mask2_sel f) = 0%Z -> overflow_expert2 f = Nan) /\
     ((0 < sum_all_z (t2_mask2_sel f))%Z ->
      exists q,
        overflow_expert2 f = Finite q /\
        q == 100 * inject_Z (sum_all_z (t2_mask2_sel f)
                             - sum_all_z (t2_mask2 f))
             / inject_Z (sum_all_z (t2_mask2_sel f)) /\
        0 <= q <= 100)).
Proof.
  eexists. split; [vm_compute; reflexivity|].
  match goal with
  | |- context [overflow_expert1 ?F] =>
      exact (overflow_diagnostics linear_gate no_draws logits_3x3 None false
               "none" false false (1 # 4) false F well_shaped_3x3 eq_refl)
  end.
Defined.

(** ** The accelerated path has no capacity to run out of *)


